(** * django-denorm: the denormalization engine of [denorm/fields.py]

    A shallow embedding of the [Denorm] class (one rule per denormalized
    field), of the signal wiring done by [Denorm.setup] and of
    [rebuildall], together with the properties of the recomputation
    engine: the cycle guard kept in [self.updating], the pre/post impact
    set kept in [self.qs], and the no-write-on-no-change test of
    [Denorm.update].

    The Django side is modelled as far as the engine uses it: model
    instances are objects with a primary key and an attribute dictionary,
    a table is a list of rows, a queryset is a lazy query that is
    evaluated against the table when it is iterated, [save] sends
    [pre_save], writes the row and sends [post_save], and a signal calls
    its receivers in connection order.  Python exceptions are results of
    their own, and the recursion [update -> save -> post_handler -> update]
    is cut by a fuel counter. *)

From stdpp Require Import gmap strings list.

Open Scope Z_scope.

#[local] Set Warnings "-clear-no-such-hyp".


(** ** Rows, tables and querysets *)

(** A model instance: the model class it belongs to (by name), its
    primary key and its attribute dictionary. *)
Record instance := mkInstance {
  inst_model : string;
  pk : Z;
  attrs : gmap string Z
}.

#[global] Instance instance_eq_dec : EqDecision instance.
Proof. solve_decision. Defined.

(** [setattr(instance, name, v)]. *)
Definition setattr (i : instance) (name : string) (v : Z) : instance :=
  mkInstance (inst_model i) (pk i) (<[name := v]> (attrs i)).

(** The querysets the engine builds: [Model.objects.none()],
    [Model.objects.all()], [Model.objects.filter(pk=k)],
    [Model.objects.filter(pk__in=ks)], [a | b] and [a.distinct()]. *)
Inductive QuerySet :=
| QNone (m : string)
| QAll (m : string)
| QPk (m : string) (k : Z)
| QPkIn (m : string) (ks : list Z)
| QOr (a b : QuerySet)
| QDistinct (a : QuerySet).

(** Evaluation of a queryset against the stored rows (what iterating it
    does). *)
Fixpoint eval (rows : list instance) (q : QuerySet) : list instance :=
  match q with
  | QNone _ => []
  | QAll m => filter (λ i, inst_model i = m) rows
  | QPk m k => filter (λ i, inst_model i = m ∧ pk i = k) rows
  | QPkIn m ks => filter (λ i, inst_model i = m ∧ pk i ∈ ks) rows
  | QOr a b => eval rows a ++ eval rows b
  | QDistinct a => remove_dups (eval rows a)
  end.

(** Writing a row: replace the stored row with the same model and key,
    or append a new one. *)
Fixpoint db_put (rows : list instance) (i : instance) : list instance :=
  match rows with
  | [] => [i]
  | r :: rest =>
      if decide (inst_model r = inst_model i ∧ pk r = pk i)
      then i :: rest
      else r :: db_put rest i
  end.

Definition db_remove (rows : list instance) (i : instance) : list instance :=
  filter (λ r, ¬ (inst_model r = inst_model i ∧ pk r = pk i)) rows.

(** ** Rules *)

(** Modelled from the spec: the dependency resolvers (denorm/dependencies.py
    is not part of the sources).  A resolver is bound to one source
    relationship and maps the changed rows to a queryset of rows of the
    owning model; it may look at the stored rows when it is called. *)
Record Dependency := mkDependency {
  source : string;
  resolve : list instance → QuerySet → QuerySet
}.

(** One [Denorm] object: [did] stands for the identity of the Python
    object, [func.depend] is [depend]. *)
Record Denorm := mkDenorm {
  did : nat;
  model : string;
  fieldname : string;
  func : list instance → instance → Z;
  depend : list Dependency
}.

(** ** Signals *)

Inductive SignalName :=
| pre_save | post_save | pre_delete | post_delete | pre_update | post_update.

#[global] Instance SignalName_eq_dec : EqDecision SignalName.
Proof. solve_decision. Defined.

(** The bound methods of a [Denorm] that [setup] connects. *)
Inductive Handler :=
| PreHandler | PostHandler | PreUpdateHandler | PostUpdateHandler
| SelfUpdateHandler | SelfSaveHandler.

#[global] Instance Handler_eq_dec : EqDecision Handler.
Proof. solve_decision. Defined.

(** A connected receiver: the bound method and the [sender] it was
    connected with ([None]: every sender). *)
Record Receiver := mkReceiver {
  r_handler : Handler;
  r_denorm : Denorm;
  r_sender : option string
}.

Definition Signals : Type := SignalName → list Receiver.

Definition no_receivers : Signals := λ _, [].

(** [signal.connect(receiver, sender=...)]. *)
Definition connect (s : SignalName) (h : Handler) (d : Denorm)
    (sender : option string) (sg : Signals) : Signals :=
  λ s', if decide (s' = s) then sg s' ++ [mkReceiver h d sender] else sg s'.

(** [Denorm.setup] (the resolvers' own [setup] calls only prepare the
    resolvers). *)
Definition setup (d : Denorm) (sg : Signals) : Signals :=
  connect post_update SelfUpdateHandler d (Some (model d))
  (connect pre_save SelfSaveHandler d (Some (model d))
  (connect post_update PostUpdateHandler d None
  (connect pre_update PreUpdateHandler d None
  (connect post_delete PostHandler d None
  (connect pre_delete PreHandler d None
  (connect post_save PostHandler d None
  (connect pre_save PreHandler d None sg))))))).

(** Every rule set up in turn, as the model classes are prepared. *)
Definition setup_all (ds : list Denorm) : Signals :=
  foldl (λ sg d, setup d sg) no_receivers ds.

(** The receivers a signal calls for a sender. *)
Definition live_receivers (sg : Signals) (s : SignalName) (sender : string)
    : list Receiver :=
  filter (λ r, r_sender r = None ∨ r_sender r = Some sender) (sg s).

(** ** The state of the process *)

(** What happened, in order (a ghost trace). *)
Inductive Event :=
| EvFunc (d : nat) (k : Z)                (* rule d called func on row k *)
| EvAdd (d : nat) (k : Z)                 (* updating.add(k) *)
| EvRemove (d : nat) (k : Z)              (* updating.remove(k) *)
| EvSave (m : string) (k : Z)             (* instance.save() was called *)
| EvWrite (i : instance)                  (* the row was written *)
| EvDelete (m : string) (k : Z)           (* the row was deleted *)
| EvSend (s : SignalName) (sender : string)
| EvUpdate (d : nat) (q : QuerySet).      (* rule d: update(q) was called *)

(** The stored rows, every rule's [updating] set and [qs] attribute
    (absent from the map: the attribute does not exist), and the trace. *)
Record World := mkWorld {
  db : list instance;
  updating : gmap nat (gset Z);
  qs : gmap nat QuerySet;
  log : list Event
}.

(** The [updating] set of the rule with identity [n] (empty until the
    first [add]). *)
Definition inflight (w : World) (n : nat) : gset Z :=
  default ∅ (updating w !! n).

Definition updating_of (w : World) (d : Denorm) : gset Z :=
  inflight w (did d).

Definition qs_of (w : World) (d : Denorm) : option QuerySet :=
  qs w !! did d.

Inductive Exn := AttributeError | KeyError | TypeError | DatabaseError.

Inductive Result (A : Type) :=
| Ok (a : A) (w : World)
| Raise (e : Exn) (w : World)
| OutOfFuel.
Arguments Ok {A} a w.
Arguments Raise {A} e w.
Arguments OutOfFuel {A}.

Definition M (A : Type) : Type := World → Result A.

#[global] Instance M_ret : MRet M := λ A a w, Ok a w.
#[global] Instance M_bind : MBind M := λ A B f m w,
  match m w with
  | Ok a w' => f a w'
  | Raise e w' => Raise e w'
  | OutOfFuel => OutOfFuel
  end.

Definition raise {A} (e : Exn) : M A := λ w, Raise e w.
Definition get_db : M (list instance) := λ w, Ok (db w) w.
Definition put_db (rows : list instance) : M unit :=
  λ w, Ok tt (mkWorld rows (updating w) (qs w) (log w)).
Definition emit (e : Event) : M unit :=
  λ w, Ok tt (mkWorld (db w) (updating w) (qs w) (log w ++ [e])).
Definition get_updating (d : Denorm) : M (gset Z) :=
  λ w, Ok (updating_of w d) w.
Definition put_updating (d : Denorm) (u : gset Z) : M unit :=
  λ w, Ok tt (mkWorld (db w) (<[did d := u]> (updating w)) (qs w) (log w)).
Definition hasattr_qs (d : Denorm) : M bool :=
  λ w, Ok (bool_decide (is_Some (qs_of w d))) w.
Definition get_qs (d : Denorm) : M QuerySet :=
  λ w, match qs_of w d with Some q => Ok q w | None => Raise AttributeError w end.
Definition set_qs (d : Denorm) (q : QuerySet) : M unit :=
  λ w, Ok tt (mkWorld (db w) (updating w) (<[did d := q]> (qs w)) (log w)).
Definition del_qs (d : Denorm) : M unit :=
  λ w, match qs_of w d with
       | Some _ => Ok tt (mkWorld (db w) (updating w) (delete (did d) (qs w)) (log w))
       | None => Raise AttributeError w
       end.

(** [getattr(instance, name)]. *)
Definition getattr (i : instance) (name : string) : M Z :=
  match attrs i !! name with
  | Some v => mret v
  | None => raise AttributeError
  end.

(** [self.updating.add(k)] and [self.updating.remove(k)]. *)
Definition updating_add (d : Denorm) (k : Z) : M unit :=
  u ← get_updating d; put_updating d (u ∪ {[k]});; emit (EvAdd (did d) k).
Definition updating_remove (d : Denorm) (k : Z) : M unit :=
  u ← get_updating d;
  if decide (k ∈ u)
  then put_updating d (u ∖ {[k]});; emit (EvRemove (did d) k)
  else raise KeyError.

(** A [for] loop with an effectful body. *)
Fixpoint for_each {A} (l : list A) (body : A → M unit) : M unit :=
  match l with
  | [] => mret tt
  | x :: rest => body x;; for_each rest body
  end.

(** The argument a signal passes on: [instance=] for the save and delete
    signals, [changed_objs=] for the update signals. *)
Inductive Arg := AInst (i : instance) | AQs (q : QuerySet).

(** ** The engine *)

Section Engine.

(** Whether the storage accepts a write (it raises otherwise). *)
Variable write_ok : list instance → instance → bool.

(** The connected receivers. *)
Variable sigs : Signals.

Section Body.

(** [instance.save()], one level of recursion further down. *)
Variable save_rec : instance → M instance.

(** The body of the loop of [Denorm.update]. *)
Definition update_one (d : Denorm) (i : instance) : M unit :=
  u ← get_updating d;
  if decide (pk i ∈ u) then mret tt
  else
    rows ← get_db;
    let new_value := func d rows i in
    emit (EvFunc (did d) (pk i));;
    old ← getattr i (fieldname d);
    if decide (old = new_value) then mret tt
    else
      let i' := setattr i (fieldname d) new_value in
      updating_add d (pk i');;
      save_rec i';;
      updating_remove d (pk i').

(** [Denorm.update]. *)
Definition update (d : Denorm) (q : QuerySet) : M unit :=
  emit (EvUpdate (did d) q);;
  rows ← get_db;
  for_each (eval rows (QDistinct q)) (update_one d).

(** [self.qs |= dependency.resolve(changed_objs)] for every
    dependency.  The union is modelled for operands of one model (see
    [over] below); Django refuses to combine querysets of two different
    base models. *)
Definition resolve_all (d : Denorm) (changed_objs : QuerySet) : M unit :=
  for_each (depend d) (λ dependency,
    q ← get_qs d;
    rows ← get_db;
    set_qs d (QOr q (resolve dependency rows changed_objs))).

Definition pre_update_handler (d : Denorm) (sender : string)
    (changed_objs : QuerySet) : M unit :=
  set_qs d (QNone (model d));;
  resolve_all d changed_objs.

Definition pre_handler (d : Denorm) (sender : string) (i : instance)
    : M unit :=
  pre_update_handler d sender (QPk sender (pk i)).

Definition post_update_handler (d : Denorm) (sender : string)
    (changed_objs : QuerySet) : M unit :=
  hasattr_qs d ≫= λ has : bool,
  (if has then mret tt else set_qs d (QNone (model d)));;
  resolve_all d changed_objs;;
  q ← get_qs d;
  update d q;;
  u ← get_updating d;
  if decide (u = ∅) then del_qs d else mret tt.

Definition post_handler (d : Denorm) (sender : string) (i : instance)
    : M unit :=
  post_update_handler d sender (QPk sender (pk i)).

Definition self_update_handler (d : Denorm) (sender : string)
    (changed_objs : QuerySet) : M unit :=
  update d changed_objs.

Definition self_save_handler (d : Denorm) (sender : string)
    (i : instance) : M instance :=
  u ← get_updating d;
  if decide (pk i ∈ u) then mret i
  else
    rows ← get_db;
    emit (EvFunc (did d) (pk i));;
    mret (setattr i (fieldname d) (func d rows i)).

(** Calling one receiver with the arguments of the signal; a handler
    that does not take the argument sent is a [TypeError]. *)
Definition call_receiver (r : Receiver) (sender : string) (a : Arg)
    : M Arg :=
  let d := r_denorm r in
  match r_handler r, a with
  | PreHandler, AInst i => pre_handler d sender i;; mret a
  | PostHandler, AInst i => post_handler d sender i;; mret a
  | SelfSaveHandler, AInst i => i' ← self_save_handler d sender i; mret (AInst i')
  | PreUpdateHandler, AQs q => pre_update_handler d sender q;; mret a
  | PostUpdateHandler, AQs q => post_update_handler d sender q;; mret a
  | SelfUpdateHandler, AQs q => self_update_handler d sender q;; mret a
  | _, _ => raise TypeError
  end.

Fixpoint call_receivers (rs : list Receiver) (sender : string) (a : Arg)
    : M Arg :=
  match rs with
  | [] => mret a
  | r :: rest => a' ← call_receiver r sender a; call_receivers rest sender a'
  end.

(** [signal.send(sender=sender, ...)]: the receivers are called in
    connection order and share the object sent. *)
Definition send (s : SignalName) (sender : string) (a : Arg) : M Arg :=
  emit (EvSend s sender);;
  call_receivers (live_receivers sigs s sender) sender a.

Definition send_instance (s : SignalName) (i : instance) : M instance :=
  send s (inst_model i) (AInst i) ≫= λ a : Arg,
  match a with AInst i' => mret i' | AQs _ => mret i end.

(** The write itself. *)
Definition db_write (i : instance) : M unit :=
  rows ← get_db;
  if write_ok rows i
  then put_db (db_put rows i);; emit (EvWrite i)
  else raise DatabaseError.

(** [Model.save]: [pre_save], the write, [post_save]. *)
Definition save_body (i : instance) : M instance :=
  emit (EvSave (inst_model i) (pk i));;
  i' ← send_instance pre_save i;
  db_write i';;
  send_instance post_save i'.

End Body.

(** [instance.save()] with the recursion through the handlers bounded
    by [fuel]. *)
Fixpoint save (fuel : nat) (i : instance) : M instance :=
  match fuel with
  | O => λ _, OutOfFuel
  | S n => save_body (save n) i
  end.

(** [instance.delete()] of one row: [pre_delete], the removal,
    [post_delete].  The rows Django deletes along with it (those that
    reference it) get signals of their own and are not modelled here. *)
Definition delete_instance (fuel : nat) (i : instance) : M unit :=
  i' ← send_instance (save fuel) pre_delete i;
  rows ← get_db;
  put_db (db_remove rows i');;
  emit (EvDelete (inst_model i') (pk i'));;
  send_instance (save fuel) post_delete i';;
  mret tt.

(** Modelled from the spec: the patched [QuerySet.update] of
    denorm/monkeypatches.py, which is not part of the sources.  It
    notifies the rules before and after the bulk update through the
    [pre_update] and [post_update] channels, passing the queryset that
    is updated. *)
Definition queryset_update (fuel : nat) (m : string) (q : QuerySet)
    (name : string) (v : Z) : M unit :=
  send (save fuel) pre_update m (AQs q);;
  rows ← get_db;
  put_db (foldl (λ acc i, db_put acc (setattr i name v)) rows (eval rows q));;
  send (save fuel) post_update m (AQs q);;
  mret tt.

(** [flush] does nothing. *)
Definition flush : M unit := mret tt.

(** [rebuildall]. *)
Definition rebuildall (fuel : nat) (alldenorms : list Denorm) : M unit :=
  for_each alldenorms
    (λ denorm, update (save fuel) denorm (QAll (model denorm))).

(** What the application can do to the process. *)
Inductive Op :=
| OpSave (i : instance)
| OpDelete (i : instance)
| OpQuerysetUpdate (m : string) (q : QuerySet) (name : string) (v : Z)
| OpRebuildAll (alldenorms : list Denorm).

Definition run (fuel : nat) (o : Op) : M unit :=
  match o with
  | OpSave i => save fuel i;; mret tt
  | OpDelete i => delete_instance fuel i
  | OpQuerysetUpdate m q name v => queryset_update fuel m q name v
  | OpRebuildAll ds => rebuildall fuel ds
  end.

End Engine.

(** ** The trace discipline of the cycle guard *)

(** Whether an event is a recomputation, an [add] or a [remove] of rule
    [n] for key [k]. *)
Definition touches (n : nat) (k : Z) (e : Event) : bool :=
  match e with
  | EvFunc n' k' | EvAdd n' k' | EvRemove n' k' => bool_decide (n' = n ∧ k' = k)
  | _ => false
  end.

(** One step of the guard for rule [n] and key [k]: [inside] says whether
    [k] is in the [updating] set.  A recomputation or an [add] while
    inside is refused, and so is a [remove] while outside. *)
Definition guard_step (n : nat) (k : Z) (inside : bool) (e : Event)
    : option bool :=
  if touches n k e then
    match e, inside with
    | EvFunc _ _, false => Some false
    | EvAdd _ _, false => Some true
    | EvRemove _ _, true => Some false
    | _, _ => None
    end
  else Some inside.

Fixpoint guarded (n : nat) (k : Z) (inside : bool) (evs : list Event)
    : option bool :=
  match evs with
  | [] => Some inside
  | e :: rest =>
      match guard_step n k inside e with
      | Some b => guarded n k b rest
      | None => None
      end
  end.

Definition mem (w : World) (n : nat) (k : Z) : bool :=
  bool_decide (k ∈ inflight w n).

(** The events [evs] lead from [w] to [w'] and obey every guard. *)
Definition Obeys (evs : list Event) (w w' : World) : Prop :=
  log w' = log w ++ evs
  ∧ ∀ n k, guarded n k (mem w n k) evs = Some (mem w' n k).

(** The events leave alone every key that is in flight in [w]. *)
Definition Quiet (evs : list Event) (w : World) : Prop :=
  ∀ n k, k ∈ inflight w n → Forall (λ e, touches n k e = false) evs.

(** What any run of the engine does to the world, whether it returns or
    raises. *)
Definition Step (w w' : World) : Prop :=
  ∃ evs, Obeys evs w w' ∧ Quiet evs w.

(** What a run that returns does: every [updating] set is as it was, and
    a rule with a key in flight keeps its [qs] attribute. *)
Definition Bal (w w' : World) : Prop :=
  Step w w'
  ∧ (∀ n, inflight w' n = inflight w n)
  ∧ (∀ n, inflight w n ≠ ∅ → is_Some (qs w !! n) → is_Some (qs w' !! n)).

Definition respects {A} (m : M A) : Prop :=
  ∀ w, match m w with
       | Ok _ w' => Bal w w'
       | Raise _ w' => Step w w'
       | OutOfFuel => True
       end.

Lemma guarded_app n k b evs1 evs2 :
  guarded n k b (evs1 ++ evs2) =
  match guarded n k b evs1 with
  | Some b' => guarded n k b' evs2
  | None => None
  end.
Proof.
  revert b. induction evs1 as [|e evs1 IH]; intros b; simpl; [done|].
  destruct (guard_step n k b e); [apply IH | done].
Qed.

Lemma guarded_untouched n k b evs :
  Forall (λ e, touches n k e = false) evs → guarded n k b evs = Some b.
Proof.
  induction 1 as [|e evs He _ IH]; simpl; [done|].
  unfold guard_step. by rewrite He.
Qed.

Lemma Obeys_refl w : Obeys [] w w.
Proof. split; [by rewrite app_nil_r | done]. Qed.

Lemma Obeys_app evs1 evs2 w w1 w2 :
  Obeys evs1 w w1 → Obeys evs2 w1 w2 → Obeys (evs1 ++ evs2) w w2.
Proof.
  intros [Hl1 Hg1] [Hl2 Hg2]. split.
  - by rewrite Hl2, Hl1, app_assoc.
  - intros n k. by rewrite guarded_app, Hg1, Hg2.
Qed.

Lemma Step_mono w w' n : Step w w' → inflight w n ⊆ inflight w' n.
Proof.
  intros (evs & [_ Hg] & Hq) k Hk.
  specialize (Hg n k). rewrite (guarded_untouched _ _ _ _ (Hq n k Hk)) in Hg.
  unfold mem in Hg. rewrite (bool_decide_eq_true_2 _ Hk) in Hg.
  injection Hg as Hg. symmetry in Hg. by apply bool_decide_eq_true_1 in Hg.
Qed.

Lemma Step_refl w : Step w w.
Proof. exists []. split; [apply Obeys_refl|]. intros n k _. constructor. Qed.

Lemma Step_trans w w1 w2 : Step w w1 → Step w1 w2 → Step w w2.
Proof.
  intros H1 H2. pose proof (λ n, Step_mono w w1 n H1) as Hm.
  destruct H1 as (evs1 & Hg1 & Hq1), H2 as (evs2 & Hg2 & Hq2).
  exists (evs1 ++ evs2). split; [by eapply Obeys_app|].
  intros n k Hk. apply Forall_app. split; [by apply Hq1|].
  apply Hq2. by apply Hm.
Qed.

Lemma Bal_refl w : Bal w w.
Proof. split; [apply Step_refl | done]. Qed.

Lemma Bal_Step w w' : Bal w w' → Step w w'.
Proof. by intros [? _]. Qed.

Lemma Bal_trans w w1 w2 : Bal w w1 → Bal w1 w2 → Bal w w2.
Proof.
  intros (Hs1 & He1 & Hq1) (Hs2 & He2 & Hq2). split; [by eapply Step_trans|].
  split.
  - intros n. by rewrite He2, He1.
  - intros n Hn Hsome. apply Hq2; [by rewrite He1 | by apply Hq1].
Qed.

(** A change of the stored rows or of a [qs] attribute. *)
Lemma Step_same w w' :
  log w' = log w → updating w' = updating w → Step w w'.
Proof.
  intros Hl Hu.
  assert (Hin : ∀ n, inflight w' n = inflight w n)
    by (intros n; unfold inflight; by rewrite Hu).
  exists []. split.
  - split; [by rewrite app_nil_r|]. intros n k. simpl. unfold mem.
    by rewrite Hin.
  - intros n k _. constructor.
Qed.

Lemma Bal_same w w' :
  log w' = log w → updating w' = updating w →
  (∀ n, is_Some (qs w !! n) → is_Some (qs w' !! n)) →
  Bal w w'.
Proof.
  intros Hl Hu Hq. split; [by apply Step_same|]. split.
  - intros n. unfold inflight. by rewrite Hu.
  - intros n _. apply Hq.
Qed.

(** An event that is no recomputation, [add] or [remove]. *)
Definition neutral (e : Event) : Prop := ∀ n k, touches n k e = false.

Lemma Bal_event e w w' :
  log w' = log w ++ [e] → updating w' = updating w → qs w' = qs w →
  (∀ n k, touches n k e = true → guard_step n k (mem w n k) e = Some (mem w n k)
                                  ∧ k ∉ inflight w n) →
  Bal w w'.
Proof.
  intros Hl Hu Hq He.
  assert (Hin : ∀ n, inflight w' n = inflight w n)
    by (intros n; unfold inflight; by rewrite Hu).
  split; [|split; [done | intros n _; by rewrite Hq]].
  exists [e]. split.
  - split; [done|]. intros n k. simpl.
    replace (mem w' n k) with (mem w n k) by (unfold mem; by rewrite Hin).
    destruct (touches n k e) eqn:Ht.
    + destruct (He n k Ht) as [-> _]. done.
    + unfold guard_step. by rewrite Ht.
  - intros n k Hk. constructor; [|constructor].
    destruct (touches n k e) eqn:Ht; [|done].
    by destruct (He n k Ht) as [_ ?].
Qed.

Lemma respects_ret {A} (a : A) : respects (mret a).
Proof. intros w. apply Bal_refl. Qed.

Lemma respects_raise {A} (e : Exn) : respects (@raise A e).
Proof. intros w. apply Step_refl. Qed.

Lemma respects_bind {A B} (m : M A) (f : A → M B) :
  respects m → (∀ a, respects (f a)) → respects (m ≫= f).
Proof.
  intros Hm Hf w. unfold mbind, M_bind. specialize (Hm w).
  destruct (m w) as [a w1|e w1|]; [|done..].
  specialize (Hf a w1). destruct (f a w1) as [b w2|e w2|]; [| |done].
  - by eapply Bal_trans.
  - eapply Step_trans; [by apply Bal_Step | done].
Qed.

Lemma respects_get_db : respects get_db.
Proof. intros w. apply Bal_refl. Qed.

Lemma respects_put_db rows : respects (put_db rows).
Proof. intros w. by apply Bal_same. Qed.

Lemma respects_get_updating d : respects (get_updating d).
Proof. intros w. apply Bal_refl. Qed.

Lemma respects_hasattr_qs d : respects (hasattr_qs d).
Proof. intros w. apply Bal_refl. Qed.

Lemma respects_get_qs d : respects (get_qs d).
Proof.
  intros w. unfold get_qs. destruct (qs_of w d); [apply Bal_refl | apply Step_refl].
Qed.

Lemma respects_set_qs d q : respects (set_qs d q).
Proof.
  intros w. apply Bal_same; [done..|]. intros n Hn. simpl.
  destruct (decide (did d = n)) as [->|Hne].
  - rewrite lookup_insert_eq. by eexists.
  - by rewrite lookup_insert_ne.
Qed.

Lemma respects_emit e : neutral e → respects (emit e).
Proof.
  intros He w. apply (Bal_event e); [done..|].
  intros n k Ht. by rewrite He in Ht.
Qed.

Lemma respects_getattr i name : respects (getattr i name).
Proof.
  unfold getattr. destruct (attrs i !! name); [apply respects_ret | apply respects_raise].
Qed.

Lemma respects_for_each {A} (l : list A) (body : A → M unit) :
  (∀ x, respects (body x)) → respects (for_each l body).
Proof.
  intros Hb. induction l as [|x l IH]; simpl; [apply respects_ret|].
  apply respects_bind; [apply Hb | intros _; apply IH].
Qed.

(** [del self.qs] under its test [if not self.updating]. *)
Lemma respects_del_qs d :
  respects (u ← get_updating d; if decide (u = ∅) then del_qs d else mret tt).
Proof.
  intros w. unfold mbind, M_bind, get_updating. case_decide as Hu.
  - unfold del_qs. destruct (qs_of w d) as [q|]; [|apply Step_refl].
    split; [by apply Step_same|]. split; [done|].
    intros n Hn Hsome. simpl. destruct (decide (did d = n)) as [<-|Hne].
    + by destruct Hn.
    + by rewrite lookup_delete_ne.
  - apply Bal_refl.
Qed.

(** The worlds after [emit], [updating.add] and [updating.remove]. *)
Definition emitted (e : Event) (w : World) : World :=
  mkWorld (db w) (updating w) (qs w) (log w ++ [e]).

Definition added (d : Denorm) (k : Z) (w : World) : World :=
  mkWorld (db w) (<[did d := updating_of w d ∪ {[k]}]> (updating w)) (qs w)
          (log w ++ [EvAdd (did d) k]).

Definition removed (d : Denorm) (k : Z) (w : World) : World :=
  mkWorld (db w) (<[did d := updating_of w d ∖ {[k]}]> (updating w)) (qs w)
          (log w ++ [EvRemove (did d) k]).

Lemma updating_add_eq d k w : updating_add d k w = Ok tt (added d k w).
Proof. reflexivity. Qed.

Lemma updating_remove_eq d k w :
  k ∈ updating_of w d → updating_remove d k w = Ok tt (removed d k w).
Proof.
  intros Hk. unfold updating_remove, mbind, M_bind, get_updating.
  by rewrite decide_True.
Qed.

Lemma inflight_added d k w n :
  inflight (added d k w) n =
  if decide (n = did d) then inflight w n ∪ {[k]} else inflight w n.
Proof.
  unfold inflight, added, updating_of, inflight. simpl. case_decide as Hn.
  - subst. by rewrite lookup_insert_eq.
  - by rewrite lookup_insert_ne.
Qed.

Lemma inflight_removed d k w n :
  inflight (removed d k w) n =
  if decide (n = did d) then inflight w n ∖ {[k]} else inflight w n.
Proof.
  unfold inflight, removed, updating_of, inflight. simpl. case_decide as Hn.
  - subst. by rewrite lookup_insert_eq.
  - by rewrite lookup_insert_ne.
Qed.

Lemma touches_true n k e :
  touches n k e = true →
  e = EvFunc n k ∨ e = EvAdd n k ∨ e = EvRemove n k.
Proof.
  destruct e; simpl; try done; intros [-> ->]%bool_decide_eq_true; auto.
Qed.

Lemma Obeys_func w n k :
  k ∉ inflight w n → Obeys [EvFunc n k] w (emitted (EvFunc n k) w).
Proof.
  intros Hk. split; [done|]. intros n' k'. simpl. unfold guard_step, touches.
  replace (mem (emitted (EvFunc n k) w) n' k') with (mem w n' k') by done.
  case_bool_decide as Ht; [|done]. destruct Ht as [-> ->].
  unfold mem. by rewrite bool_decide_eq_false_2.
Qed.

Lemma Obeys_add w d k :
  k ∉ updating_of w d → Obeys [EvAdd (did d) k] w (added d k w).
Proof.
  intros Hk. split; [done|]. intros n' k'. simpl.
  unfold guard_step, touches, mem.
  rewrite inflight_added. case_bool_decide as Ht.
  - destruct Ht as [<- <-]. rewrite decide_True by done.
    rewrite (bool_decide_eq_false_2 _ Hk).
    by rewrite bool_decide_eq_true_2 by set_solver.
  - f_equal. apply bool_decide_ext. case_decide as Hn; [|done]. subst.
    set_solver.
Qed.

Lemma Obeys_remove w d k :
  k ∈ updating_of w d → Obeys [EvRemove (did d) k] w (removed d k w).
Proof.
  intros Hk. split; [done|]. intros n' k'. simpl.
  unfold guard_step, touches, mem.
  rewrite inflight_removed. case_bool_decide as Ht.
  - destruct Ht as [<- <-]. rewrite decide_True by done.
    rewrite (bool_decide_eq_true_2 _ Hk).
    by rewrite bool_decide_eq_false_2 by set_solver.
  - f_equal. apply bool_decide_ext. case_decide as Hn; [|done]. subst.
    set_solver.
Qed.

Lemma Bal_func w n k :
  k ∉ inflight w n → Bal w (emitted (EvFunc n k) w).
Proof.
  intros Hk. split; [|done]. exists [EvFunc n k]. split; [by apply Obeys_func|].
  intros n' k' Hk'. constructor; [|constructor]. simpl.
  apply bool_decide_eq_false_2. intros [-> ->]. done.
Qed.

Lemma Step_add w d k :
  k ∉ updating_of w d → Step w (added d k w).
Proof.
  intros Hk. exists [EvAdd (did d) k]. split; [by apply Obeys_add|].
  intros n' k' Hk'. constructor; [|constructor]. simpl.
  apply bool_decide_eq_false_2. intros [<- <-]. done.
Qed.

(** ** Every run of the engine obeys the guard *)

Section EngineRespects.

Variable write_ok : list instance → instance → bool.
Variable sigs : Signals.

Section BodyRespects.

Variable save_rec : instance → M instance.
Hypothesis save_rec_respects : ∀ i, respects (save_rec i).

(** The window of one row: [add], the save, [remove]. *)
Lemma window_Bal d k i w :
  k ∉ updating_of w d →
  match (updating_add d k;; save_rec i;; updating_remove d k) w with
  | Ok _ w' => Bal w w'
  | Raise _ w' => Step w w'
  | OutOfFuel => True
  end.
Proof.
  intros Hk. unfold mbind, M_bind. rewrite updating_add_eq.
  pose proof (save_rec_respects i (added d k w)) as Hs.
  destruct (save_rec i (added d k w)) as [i' w3|e w3|]; [| |done].
  - destruct Hs as (Hstep & Heq & Hqs).
    assert (Hin : k ∈ updating_of w3 d).
    { unfold updating_of. rewrite Heq, inflight_added, decide_True by done.
      set_solver. }
    rewrite updating_remove_eq by done.
    destruct Hstep as (evs & Hg & Hq).
    split; [|split].
    + exists ([EvAdd (did d) k] ++ evs ++ [EvRemove (did d) k]). split.
      * eapply Obeys_app; [by apply Obeys_add|]. eapply Obeys_app; [done|].
        by apply Obeys_remove.
      * intros n' k' Hk'.
        assert (Hne : ¬ (did d = n' ∧ k = k')) by (intros [<- <-]; done).
        apply Forall_app. split; [|apply Forall_app; split].
        -- constructor; [|constructor]. simpl.
           by apply bool_decide_eq_false_2.
        -- apply Hq. rewrite inflight_added. case_decide as Hn; [|done].
           set_solver.
        -- constructor; [|constructor]. simpl.
           by apply bool_decide_eq_false_2.
    + intros n. rewrite inflight_removed, Heq, inflight_added.
      case_decide as Hn; [|done]. subst n.
      unfold updating_of in Hk. set_solver.
    + intros n Hn Hsome. simpl. apply Hqs; [|done].
      rewrite inflight_added. case_decide as Hn'; [|done]. set_solver.
  - eapply Step_trans; [by apply Step_add | done].
Qed.

Lemma respects_update_one d i : respects (update_one save_rec d i).
Proof.
  intros w. unfold update_one.
  change ((get_updating d ≫= _) w) with
    ((λ u : gset Z, if decide (pk i ∈ u) then mret tt else
        rows ← get_db;
        emit (EvFunc (did d) (pk i));;
        old ← getattr i (fieldname d);
        if decide (old = func d rows i) then mret tt else
          updating_add d (pk (setattr i (fieldname d) (func d rows i)));;
          save_rec (setattr i (fieldname d) (func d rows i));;
          updating_remove d (pk (setattr i (fieldname d) (func d rows i))))
     (updating_of w d) w).
  simpl. case_decide as Hk; [apply Bal_refl|].
  unfold mbind at 1 2, M_bind at 1 2, get_db, emit. simpl.
  fold (emitted (EvFunc (did d) (pk i)) w).
  pose proof (Bal_func w (did d) (pk i) Hk) as Hf.
  unfold mbind at 1, M_bind at 1, getattr.
  destruct (attrs i !! fieldname d) as [old|]; simpl;
    [|by apply Bal_Step].
  case_decide as Hold; [done|].
  pose proof (window_Bal d (pk i) (setattr i (fieldname d) (func d (db w) i))
                (emitted (EvFunc (did d) (pk i)) w) Hk) as Hw.
  destruct ((updating_add d (pk i);; _) _) as [[] w'|e w'|]; [| |done].
  - by eapply Bal_trans.
  - eapply Step_trans; [by apply Bal_Step | done].
Qed.

Lemma respects_update d q : respects (update save_rec d q).
Proof.
  unfold update. apply respects_bind; [by apply respects_emit|intros _].
  apply respects_bind; [apply respects_get_db|intros rows].
  apply respects_for_each, respects_update_one.
Qed.

Lemma respects_resolve_all d c : respects (resolve_all d c).
Proof.
  unfold resolve_all. apply respects_for_each. intros dep.
  apply respects_bind; [apply respects_get_qs|intros q].
  apply respects_bind; [apply respects_get_db|intros rows].
  apply respects_set_qs.
Qed.

Lemma respects_pre_update_handler d sender c :
  respects (pre_update_handler d sender c).
Proof.
  unfold pre_update_handler.
  apply respects_bind; [apply respects_set_qs|intros _].
  apply respects_resolve_all.
Qed.

Lemma respects_post_update_handler d sender c :
  respects (post_update_handler save_rec d sender c).
Proof.
  unfold post_update_handler.
  apply respects_bind; [apply respects_hasattr_qs|intros has].
  apply respects_bind.
  { destruct has; [apply respects_ret | apply respects_set_qs]. }
  intros _. apply respects_bind; [apply respects_resolve_all|intros _].
  apply respects_bind; [apply respects_get_qs|intros q].
  apply respects_bind; [apply respects_update|intros _].
  apply respects_del_qs.
Qed.

Lemma respects_self_save_handler d sender i :
  respects (self_save_handler d sender i).
Proof.
  intros w. unfold self_save_handler, mbind, M_bind, get_updating.
  case_decide as Hk; [apply Bal_refl|]. simpl.
  by apply (Bal_func w (did d) (pk i)).
Qed.

Lemma respects_call_receiver r sender a :
  respects (call_receiver save_rec r sender a).
Proof.
  unfold call_receiver, pre_handler, post_handler, self_update_handler.
  destruct (r_handler r), a; try apply respects_raise;
    (apply respects_bind; [|intros ?; apply respects_ret]).
  - apply respects_pre_update_handler.
  - apply respects_post_update_handler.
  - apply respects_pre_update_handler.
  - apply respects_post_update_handler.
  - apply respects_update.
  - apply respects_self_save_handler.
Qed.

Lemma respects_call_receivers rs sender a :
  respects (call_receivers save_rec rs sender a).
Proof.
  revert a. induction rs as [|r rs IH]; intros a; simpl;
    [apply respects_ret|].
  apply respects_bind; [apply respects_call_receiver | apply IH].
Qed.

Lemma respects_send s sender a : respects (send sigs save_rec s sender a).
Proof.
  unfold send. apply respects_bind; [by apply respects_emit|intros _].
  apply respects_call_receivers.
Qed.

Lemma respects_send_instance s i :
  respects (send_instance sigs save_rec s i).
Proof.
  unfold send_instance. apply respects_bind; [apply respects_send|].
  intros [i'|q]; apply respects_ret.
Qed.

Lemma respects_db_write i : respects (db_write write_ok i).
Proof.
  unfold db_write. apply respects_bind; [apply respects_get_db|intros rows].
  destruct (write_ok rows i); [|apply respects_raise].
  apply respects_bind; [apply respects_put_db|intros _].
  by apply respects_emit.
Qed.

Lemma respects_save_body i :
  respects (save_body write_ok sigs save_rec i).
Proof.
  unfold save_body. apply respects_bind; [by apply respects_emit|intros _].
  apply respects_bind; [apply respects_send_instance|intros i'].
  apply respects_bind; [apply respects_db_write|intros _].
  apply respects_send_instance.
Qed.

End BodyRespects.

Lemma respects_save fuel i : respects (save write_ok sigs fuel i).
Proof.
  revert i. induction fuel as [|fuel IH]; intros i; simpl; [done|].
  by apply respects_save_body.
Qed.

Lemma respects_delete_instance fuel i :
  respects (delete_instance write_ok sigs fuel i).
Proof.
  unfold delete_instance.
  apply respects_bind;
    [apply respects_send_instance, respects_save|intros i'].
  apply respects_bind; [apply respects_get_db|intros rows].
  apply respects_bind; [apply respects_put_db|intros _].
  apply respects_bind; [by apply respects_emit|intros _].
  apply respects_bind;
    [apply respects_send_instance, respects_save|intros _].
  apply respects_ret.
Qed.

Lemma respects_queryset_update fuel m q name v :
  respects (queryset_update write_ok sigs fuel m q name v).
Proof.
  unfold queryset_update.
  apply respects_bind; [apply respects_send, respects_save|intros _].
  apply respects_bind; [apply respects_get_db|intros rows].
  apply respects_bind; [apply respects_put_db|intros _].
  apply respects_bind; [apply respects_send, respects_save|intros _].
  apply respects_ret.
Qed.

Lemma respects_rebuildall fuel ds :
  respects (rebuildall write_ok sigs fuel ds).
Proof.
  unfold rebuildall. apply respects_for_each. intros d.
  apply respects_update, respects_save.
Qed.

Lemma respects_run fuel o : respects (run write_ok sigs fuel o).
Proof.
  destruct o; simpl.
  - apply respects_bind; [apply respects_save | intros _; apply respects_ret].
  - apply respects_delete_instance.
  - apply respects_queryset_update.
  - apply respects_rebuildall.
Qed.

End EngineRespects.

(** Running the primitive steps. *)
Lemma bind_eq {A B} (m : M A) (f : A → M B) w :
  (m ≫= f) w = match m w with
               | Ok a w' => f a w'
               | Raise e w' => Raise e w'
               | OutOfFuel => OutOfFuel
               end.
Proof. reflexivity. Qed.

(** The world in which a run ended, whether it returned or raised. *)
Definition final {A} (r : Result A) : option World :=
  match r with
  | Ok _ w => Some w
  | Raise _ w => Some w
  | OutOfFuel => None
  end.

Lemma respects_final {A} (m : M A) w w' :
  respects m → final (m w) = Some w' → Step w w'.
Proof.
  intros Hm Hf. specialize (Hm w).
  destruct (m w) as [a w1|e w1|]; simplify_eq/=; [by apply Bal_Step | done].
Qed.

(** ** The loop body of [update] *)

(** A row that is in flight is skipped: nothing is computed, written or
    saved, whatever [save] would do. *)
Lemma update_one_in_flight save_rec d i w :
  pk i ∈ updating_of w d → update_one save_rec d i w = Ok tt w.
Proof.
  intros Hk. unfold update_one, mbind, M_bind, get_updating.
  by rewrite decide_True.
Qed.

(** A row whose value changes goes through [add], [save], [remove]. *)
Lemma update_one_changed save_rec d i w old :
  pk i ∉ updating_of w d →
  attrs i !! fieldname d = Some old →
  old ≠ func d (db w) i →
  update_one save_rec d i w =
  (updating_add d (pk i);;
   save_rec (setattr i (fieldname d) (func d (db w) i));;
   updating_remove d (pk i)) (emitted (EvFunc (did d) (pk i)) w).
Proof.
  intros Hk Hold Hne. unfold update_one.
  unfold mbind at 1, M_bind at 1, get_updating. rewrite decide_False by done.
  unfold mbind at 1 2 3, M_bind at 1 2 3, get_db, emit, getattr. simpl.
  rewrite Hold. simpl. by rewrite decide_False.
Qed.

(** A row whose value does not change is left alone. *)
Lemma update_one_unchanged save_rec d i w :
  attrs i !! fieldname d = Some (func d (db w) i) →
  update_one save_rec d i w =
  Ok tt (if decide (pk i ∈ updating_of w d) then w
         else emitted (EvFunc (did d) (pk i)) w).
Proof.
  intros Hsame. unfold update_one, mbind, M_bind, get_updating.
  case_decide as Hk; [done|]. simpl. unfold getattr. rewrite Hsame. simpl.
  by rewrite decide_True.
Qed.

(** C1: a row whose recomputed value equals the value stored on it is
    left alone by the loop body of [update]: the body returns, the stored
    rows, every [updating] set and every [qs] attribute are what they
    were, and the trace gains at most the record of the call of [func]
    (none when the row is in flight); no save, no signal, no [add].  This
    holds whatever [save] would do, so [save] is not called. *)
Theorem update_one_no_change save_rec d i w :
  attrs i !! fieldname d = Some (func d (db w) i) →
  update_one save_rec d i w =
  Ok tt (if decide (pk i ∈ updating_of w d) then w
         else emitted (EvFunc (did d) (pk i)) w).
Proof. apply update_one_unchanged. Qed.

(** C2: while a row's key is in the rule's [updating] set, the loop body
    of [update] skips the row (no call of [func], no write, no save: the
    world is returned as it is, whatever [save] would do) and so does
    [self_save_handler].  Every run of the process, however it ends,
    obeys the guard of every rule and key along its whole trace: no rule
    recomputes or adds a key that is in its [updating] set at that point;
    and the run contains no recomputation, [add] or [remove] at all for a
    key that was in flight when it started. *)
Theorem in_flight_row_is_skipped write_ok sigs :
  (∀ save_rec d i w,
     pk i ∈ updating_of w d → update_one save_rec d i w = Ok tt w)
  ∧ (∀ d sender i w,
       pk i ∈ updating_of w d → self_save_handler d sender i w = Ok i w)
  ∧ (∀ fuel o w w',
       final (run write_ok sigs fuel o w) = Some w' →
       ∃ evs, log w' = log w ++ evs
         ∧ (∀ n k, guarded n k (mem w n k) evs = Some (mem w' n k))
         ∧ (∀ n k, k ∈ inflight w n →
              Forall (λ e, touches n k e = false) evs)).
Proof.
  split; [|split].
  - intros. by apply update_one_in_flight.
  - intros d sender i w Hk. unfold self_save_handler.
    rewrite bind_eq. unfold get_updating. by rewrite decide_True.
  - intros fuel o w w' Hf.
    destruct (respects_final _ _ _ (respects_run write_ok sigs fuel o) Hf)
      as (evs & [Hl Hg] & Hq).
    by exists evs.
Qed.

(** C6: the window in which a key is in the [updating] set.  For a row
    whose value changes, [update] adds the key, saves the row and removes
    the key: the key is in the set when the save returns, nothing inside
    the save recomputes, adds or removes it, and it is out of the set
    again after the [remove].  When [update] returns, every [updating]
    set is what it was at entry.  A row whose key is in the set is
    skipped. *)
Theorem updating_window write_ok sigs fuel d :
  (∀ i w w' old,
     pk i ∉ updating_of w d →
     attrs i !! fieldname d = Some old →
     old ≠ func d (db w) i →
     update_one (save write_ok sigs fuel) d i w = Ok tt w' →
     let w1 := added d (pk i) (emitted (EvFunc (did d) (pk i)) w) in
     ∃ i2 w2,
       save write_ok sigs fuel (setattr i (fieldname d) (func d (db w) i)) w1
         = Ok i2 w2
       ∧ w' = removed d (pk i) w2
       ∧ pk i ∈ updating_of w1 d
       ∧ (∃ evs, log w2 = log w1 ++ evs
            ∧ Forall (λ e, touches (did d) (pk i) e = false) evs)
       ∧ pk i ∈ updating_of w2 d
       ∧ pk i ∉ updating_of w' d)
  ∧ (∀ q w w',
       update (save write_ok sigs fuel) d q w = Ok tt w' →
       ∀ n, inflight w' n = inflight w n)
  ∧ (∀ save_rec i w,
       pk i ∈ updating_of w d → update_one save_rec d i w = Ok tt w).
Proof.
  split; [|split].
  - intros i w w' old Hk Hold Hne Hrun w1.
    rewrite (update_one_changed _ _ _ _ old) in Hrun by done.
    unfold mbind, M_bind in Hrun. rewrite updating_add_eq in Hrun.
    fold w1 in Hrun.
    pose proof (respects_save write_ok sigs fuel
                  (setattr i (fieldname d) (func d (db w) i)) w1) as Hs.
    destruct (save write_ok sigs fuel _ w1) as [i2 w2|e w2|]; [|done..].
    destruct Hs as ((evs & [Hl Hg] & Hq) & Heq & _).
    assert (Hin1 : pk i ∈ updating_of w1 d).
    { unfold updating_of, w1. rewrite inflight_added, decide_True by done.
      set_solver. }
    assert (Hin2 : pk i ∈ updating_of w2 d).
    { unfold updating_of. rewrite Heq. done. }
    rewrite updating_remove_eq in Hrun by done. injection Hrun as <-.
    exists i2, w2. split; [done|]. split; [done|]. split; [done|].
    split; [|split; [done|]].
    + exists evs. split; [done|]. by apply Hq.
    + unfold updating_of. rewrite inflight_removed, decide_True by done.
      set_solver.
  - intros q w w' Hrun n.
    pose proof (respects_update _ (respects_save write_ok sigs fuel) d q w)
      as Hb.
    rewrite Hrun in Hb. by destruct Hb as (_ & Heq & _).
  - intros. by apply update_one_in_flight.
Qed.

(** C10: when the save of a row raises after the key was added, the loop
    of [update] stops with that exception (the rows after it are not
    processed), the key is in the rule's [updating] set in the world the
    exception leaves, it is still there after any later operation of the
    process, however that ends, and every later pass of [update] over a
    row with that key skips it. *)
Theorem save_failure_leaves_row_in_flight write_ok sigs fuel d i w old e w' :
  pk i ∉ updating_of w d →
  attrs i !! fieldname d = Some old →
  old ≠ func d (db w) i →
  save write_ok sigs fuel (setattr i (fieldname d) (func d (db w) i))
       (added d (pk i) (emitted (EvFunc (did d) (pk i)) w)) = Raise e w' →
  (∀ rest, for_each (i :: rest) (update_one (save write_ok sigs fuel) d) w
           = Raise e w')
  ∧ pk i ∈ updating_of w' d
  ∧ (∀ fuel' o w1 w2,
       pk i ∈ updating_of w1 d →
       final (run write_ok sigs fuel' o w1) = Some w2 →
       pk i ∈ updating_of w2 d)
  ∧ (∀ save_rec i2 w1,
       pk i2 = pk i → pk i ∈ updating_of w1 d →
       update_one save_rec d i2 w1 = Ok tt w1).
Proof.
  intros Hk Hold Hne Hsave. split; [|split; [|split]].
  - intros rest. simpl. unfold mbind at 1, M_bind at 1.
    rewrite (update_one_changed _ _ _ _ old) by done.
    unfold mbind, M_bind. rewrite updating_add_eq, Hsave. done.
  - pose proof (respects_save write_ok sigs fuel
                  (setattr i (fieldname d) (func d (db w) i))
                  (added d (pk i) (emitted (EvFunc (did d) (pk i)) w))) as Hs.
    rewrite Hsave in Hs. apply (Step_mono _ _ (did d)) in Hs.
    apply Hs. rewrite inflight_added, decide_True by done. set_solver.
  - intros fuel' o w1 w2 Hin Hf.
    apply (respects_final _ _ _ (respects_run write_ok sigs fuel' o)) in Hf.
    by apply (Step_mono _ _ (did d)) in Hf; apply Hf.
  - intros save_rec i2 w1 Hpk Hin. apply update_one_in_flight.
    by rewrite Hpk.
Qed.

(** ** The impact set kept in [self.qs] *)

(** [q0 | resolve(changed)] for every dependency in turn. *)
Definition impact (d : Denorm) (rows : list instance) (changed q0 : QuerySet)
    : QuerySet :=
  foldl (λ q dependency, QOr q (resolve dependency rows changed)) q0 (depend d).

(** The world after [self.qs = q]. *)
Definition with_qs (d : Denorm) (q : QuerySet) (w : World) : World :=
  mkWorld (db w) (updating w) (<[did d := q]> (qs w)) (log w).

Lemma with_qs_id d q w : qs_of w d = Some q → with_qs d q w = w.
Proof.
  intros Hq. destruct w as [rows u qm l]. unfold with_qs, qs_of in *.
  simpl in *. by rewrite insert_id.
Qed.

Lemma with_qs_twice d q q' w : with_qs d q' (with_qs d q w) = with_qs d q' w.
Proof. unfold with_qs. simpl. by rewrite insert_insert_eq. Qed.

Lemma get_qs_eq d w q : qs_of w d = Some q → get_qs d w = Ok q w.
Proof. intros Hq. unfold get_qs. by rewrite Hq. Qed.

Lemma set_qs_eq d q w : set_qs d q w = Ok tt (with_qs d q w).
Proof. reflexivity. Qed.

Lemma qs_of_with_qs d q w : qs_of (with_qs d q w) d = Some q.
Proof. unfold qs_of, with_qs. simpl. by rewrite lookup_insert_eq. Qed.

Lemma resolve_deps_eq d deps c w q0 :
  qs_of w d = Some q0 →
  for_each deps (λ dependency,
    q ← get_qs d; rows ← get_db;
    set_qs d (QOr q (resolve dependency rows c))) w
  = Ok tt (with_qs d
       (foldl (λ q dependency, QOr q (resolve dependency (db w) c)) q0 deps) w).
Proof.
  revert w q0. induction deps as [|dep deps IH]; intros w q0 Hq; simpl.
  - by rewrite with_qs_id.
  - rewrite !bind_eq, (get_qs_eq _ _ q0) by done. cbv beta iota.
    rewrite bind_eq. unfold get_db. rewrite set_qs_eq.
    rewrite (IH _ (QOr q0 (resolve dep (db w) c))) by apply qs_of_with_qs.
    by rewrite with_qs_twice.
Qed.

Lemma resolve_all_eq d c w q0 :
  qs_of w d = Some q0 →
  resolve_all d c w = Ok tt (with_qs d (impact d (db w) c q0) w).
Proof. apply resolve_deps_eq. Qed.

(** What [pre_update_handler] leaves in [self.qs]. *)
Lemma pre_update_handler_eq d sender c w :
  pre_update_handler d sender c w
  = Ok tt (with_qs d (impact d (db w) c (QNone (model d))) w).
Proof.
  unfold pre_update_handler. rewrite bind_eq, set_qs_eq.
  rewrite (resolve_all_eq _ _ _ (QNone (model d))) by apply qs_of_with_qs.
  by rewrite with_qs_twice.
Qed.

(** What [post_update_handler] passes to [update]: the queryset found in
    [self.qs] (the empty one when the attribute is missing) joined with
    the resolvers' results for the changed rows. *)
Lemma post_update_handler_eq save_rec d sender c w :
  post_update_handler save_rec d sender c w
  = (let q := impact d (db w) c (default (QNone (model d)) (qs_of w d)) in
     (update save_rec d q;;
      u ← get_updating d;
      if decide (u = ∅) then del_qs d else mret tt) (with_qs d q w)).
Proof.
  unfold post_update_handler. rewrite bind_eq. unfold hasattr_qs.
  destruct (qs_of w d) as [q0|] eqn:Hq; simpl.
  - rewrite bind_eq. change ((mret tt : M unit) w) with (Ok tt w).
    cbv beta iota.
    rewrite bind_eq, (resolve_all_eq _ _ _ q0) by done. cbv beta iota.
    by rewrite bind_eq, (get_qs_eq _ _ _ (qs_of_with_qs _ _ _)).
  - rewrite bind_eq, set_qs_eq. cbv beta iota.
    rewrite bind_eq, (resolve_all_eq _ _ _ (QNone (model d)))
      by apply qs_of_with_qs.
    rewrite with_qs_twice. cbv beta iota.
    by rewrite bind_eq, (get_qs_eq _ _ _ (qs_of_with_qs _ _ _)).
Qed.

(** Evaluating the impact set built from the empty queryset gives the
    rows of every resolver's result, one resolver after the other. *)
Lemma eval_impact d rows rows' c q0 :
  eval rows (impact d rows' c q0)
  = eval rows q0
    ++ concat (map (λ dependency, eval rows (resolve dependency rows' c))
                   (depend d)).
Proof.
  unfold impact. revert q0.
  induction (depend d) as [|dep deps IH]; intros q0; simpl.
  - by rewrite app_nil_r.
  - rewrite IH. simpl. by rewrite <- app_assoc.
Qed.

(** The world after [del self.qs]. *)
Definition without_qs (d : Denorm) (w : World) : World :=
  mkWorld (db w) (updating w) (delete (did d) (qs w)) (log w).

(** Both phases of one mutation, with nothing of the rule run in between:
    [update] is called with the resolvers' results of the pre-phase joined
    with those of the post-phase. *)
Lemma post_after_pre save_rec d sender c c' w w1 :
  qs w1 = qs (with_qs d (impact d (db w) c (QNone (model d))) w) →
  post_update_handler save_rec d sender c' w1
  = (let q := impact d (db w1) c' (impact d (db w) c (QNone (model d))) in
     (update save_rec d q;;
      u ← get_updating d;
      if decide (u = ∅) then del_qs d else mret tt) (with_qs d q w1)).
Proof.
  intros Hq. rewrite post_update_handler_eq.
  assert (qs_of w1 d = Some (impact d (db w) c (QNone (model d)))) as ->; [|done].
  unfold qs_of. rewrite Hq. apply qs_of_with_qs.
Qed.

(** C9: when [post_update_handler] returns, the rule has no [qs]
    attribute exactly when its [updating] set is empty (the attribute is
    deleted if and only if the set is empty after [update]); the set is
    the one the handler was entered with; and [update] was called with the
    resolvers' results joined to the queryset found in [self.qs], which is
    the empty queryset of the rule's model when the attribute was
    missing. *)
Theorem post_update_handler_clears_qs write_ok sigs fuel d sender c w w' :
  post_update_handler (save write_ok sigs fuel) d sender c w = Ok tt w' →
  (qs_of w' d = None ↔ updating_of w' d = ∅)
  ∧ updating_of w' d = updating_of w d
  ∧ ∃ w2,
      let q := impact d (db w) c (default (QNone (model d)) (qs_of w d)) in
      update (save write_ok sigs fuel) d q (with_qs d q w) = Ok tt w2
      ∧ w' = if decide (updating_of w2 d = ∅) then without_qs d w2 else w2.
Proof.
  intros Hrun. rewrite post_update_handler_eq in Hrun. cbv zeta in Hrun.
  rewrite bind_eq in Hrun.
  set (q := impact d (db w) c (default (QNone (model d)) (qs_of w d))) in *.
  pose proof (respects_update _ (respects_save write_ok sigs fuel) d q
                (with_qs d q w)) as Hb.
  destruct (update _ d q (with_qs d q w)) as [[] w2|e w2|] eqn:Hupd;
    [|done..].
  destruct Hb as (_ & Heq & Hqs).
  rewrite bind_eq in Hrun. unfold get_updating in Hrun.
  assert (Hu : updating_of w2 d = updating_of w d) by apply Heq.
  destruct (decide (updating_of w2 d = ∅)) as [He|Hne].
  - unfold del_qs in Hrun. destruct (qs_of w2 d) as [q2|]; [|done].
    injection Hrun as <-. split; [|split].
    + split; [done|]. intros _. unfold qs_of, without_qs. simpl.
      apply lookup_delete_eq.
    + done.
    + exists w2. cbv zeta. split; [done|]. by rewrite decide_True.
  - injection Hrun as <-. split; [|split].
    + split; [|done]. intros Hnone. exfalso.
      destruct (Hqs (did d)) as [q2 Hq2].
      * by rewrite <- Heq.
      * unfold with_qs. simpl. rewrite lookup_insert_eq. by eexists.
      * unfold qs_of in Hnone. by rewrite Hnone in Hq2.
    + done.
    + exists w2. cbv zeta. split; [done|]. by rewrite decide_False.
Qed.

(** C4 (as the code has it): [pre_update_handler] returns and leaves in
    [self.qs] the empty queryset of the rule's model joined, in turn, with
    every resolver's result for the changed rows; evaluated, it holds the
    rows of the resolvers' results and nothing else.  The rows of the
    owning model that match the changed rows are not added. *)
Theorem pre_update_handler_stores_resolver_union d sender c w :
  let q := impact d (db w) c (QNone (model d)) in
  pre_update_handler d sender c w = Ok tt (with_qs d q w)
  ∧ qs_of (with_qs d q w) d = Some q
  ∧ ∀ rows, eval rows q
      = concat (map (λ dependency, eval rows (resolve dependency (db w) c))
                    (depend d)).
Proof.
  split; [apply pre_update_handler_eq|]. split; [apply qs_of_with_qs|].
  intros rows. by rewrite eval_impact.
Qed.

(** ** What [setup] connects *)

(** The receivers one [setup] adds for a signal and a sender: the pre and
    post handlers for every sender, the two [self_] handlers for the
    rule's own model only. *)
Definition own_receivers (d : Denorm) (s : SignalName) (sender : string)
    : list Receiver :=
  match s with
  | pre_save =>
      mkReceiver PreHandler d None ::
      (if decide (sender = model d)
       then [mkReceiver SelfSaveHandler d (Some (model d))] else [])
  | post_save => [mkReceiver PostHandler d None]
  | pre_delete => [mkReceiver PreHandler d None]
  | post_delete => [mkReceiver PostHandler d None]
  | pre_update => [mkReceiver PreUpdateHandler d None]
  | post_update =>
      mkReceiver PostUpdateHandler d None ::
      (if decide (sender = model d)
       then [mkReceiver SelfUpdateHandler d (Some (model d))] else [])
  end.

Lemma live_receivers_setup d sg s sender :
  live_receivers (setup d sg) s sender
  = live_receivers sg s sender ++ own_receivers d s sender.
Proof.
  unfold live_receivers, setup, connect, own_receivers.
  destruct s; simpl; rewrite ?filter_app, <- ?app_assoc; f_equal;
    rewrite ?filter_cons, ?filter_nil; simpl;
    repeat case_decide; naive_solver.
Qed.

(** C5 (as the code has it): [setup] connects the rule's pre and post
    handlers to [pre_save], [post_save], [pre_delete], [post_delete],
    [pre_update] and [post_update] without a sender, so they are called
    for every model; only [self_save_handler] (on [pre_save]) and
    [self_update_handler] (on [post_update]) are connected for the rule's
    own model alone.  For every signal and sender, the receivers called
    after [setup] are those called before it followed by the rule's own. *)
Theorem setup_connects_for_every_sender d sg s sender :
  live_receivers (setup d sg) s sender
  = live_receivers sg s sender ++ own_receivers d s sender.
Proof. apply live_receivers_setup. Qed.

(** ** [self_save_handler] *)

Lemma self_save_handler_eq d sender i w :
  self_save_handler d sender i w
  = if decide (pk i ∈ updating_of w d) then Ok i w
    else Ok (setattr i (fieldname d) (func d (db w) i))
            (emitted (EvFunc (did d) (pk i)) w).
Proof.
  unfold self_save_handler. rewrite bind_eq. unfold get_updating.
  by case_decide.
Qed.

(** Saving an instance of the owning model when the rule is the only one
    set up: [pre_handler] and [self_save_handler] run, then the instance
    as the latter left it is written, then [post_save] is sent. *)
Lemma save_own_instance write_ok fuel d i w :
  inst_model i = model d →
  let sigs := setup d no_receivers in
  let w0 :=
    with_qs d (impact d (db w) (QPk (model d) (pk i)) (QNone (model d)))
      (emitted (EvSend pre_save (model d))
         (emitted (EvSave (model d) (pk i)) w)) in
  save write_ok sigs (S fuel) i w
  = if decide (pk i ∈ updating_of w d)
    then (db_write write_ok i;;
          send_instance sigs (save write_ok sigs fuel) post_save i) w0
    else
      let i' := setattr i (fieldname d) (func d (db w) i) in
      (db_write write_ok i';;
       send_instance sigs (save write_ok sigs fuel) post_save i')
        (emitted (EvFunc (did d) (pk i)) w0).
Proof.
  intros Hm sigs w0. simpl. unfold save_body.
  rewrite bind_eq. change (emit ?e w) with (Ok tt (emitted e w)).
  cbv beta iota. rewrite bind_eq. unfold send_instance at 1.
  rewrite bind_eq. unfold send. rewrite bind_eq.
  change (emit ?e ?w1) with (Ok tt (emitted e w1)). cbv beta iota.
  assert (Hlr : live_receivers sigs pre_save (inst_model i)
                = [mkReceiver PreHandler d None;
                   mkReceiver SelfSaveHandler d (Some (model d))]).
  { unfold sigs. rewrite live_receivers_setup, Hm. simpl.
    by rewrite decide_True. }
  rewrite Hlr, Hm. simpl.
  rewrite bind_eq. unfold call_receiver at 1. simpl.
  rewrite bind_eq. unfold pre_handler. rewrite pre_update_handler_eq.
  cbv beta iota. change ((mret ?a : M Arg) ?w1) with (Ok a w1).
  cbv beta iota. rewrite bind_eq. unfold call_receiver. simpl.
  rewrite bind_eq, self_save_handler_eq.
  fold w0. replace (updating_of w0 d) with (updating_of w d) by done.
  replace (db w0) with (db w) by done.
  case_decide as Hk; reflexivity.
Qed.

(** C8: [self_save_handler] returns the instance with the denormalized
    field set to [func(instance)] when the key is not in the [updating]
    set, and the instance as it is (and the world as it is) when the key
    is in the set.  [setup] connects it to [pre_save] for the owning
    model, and a direct save of an instance of the owning model (the rule
    being the only one set up) writes the instance as the handler left
    it: the field is set before the write, and [post_save] is sent after
    it. *)
Theorem self_save_handler_sets_field write_ok fuel d i w :
  inst_model i = model d →
  let sigs := setup d no_receivers in
  let i' := setattr i (fieldname d) (func d (db w) i) in
  let w0 :=
    with_qs d (impact d (db w) (QPk (model d) (pk i)) (QNone (model d)))
      (emitted (EvSend pre_save (model d))
         (emitted (EvSave (model d) (pk i)) w)) in
  (∀ sender,
     self_save_handler d sender i w
     = if decide (pk i ∈ updating_of w d) then Ok i w
       else Ok i' (emitted (EvFunc (did d) (pk i)) w))
  ∧ mkReceiver SelfSaveHandler d (Some (model d))
      ∈ live_receivers sigs pre_save (model d)
  ∧ save write_ok sigs (S fuel) i w
    = if decide (pk i ∈ updating_of w d)
      then (db_write write_ok i;;
            send_instance sigs (save write_ok sigs fuel) post_save i) w0
      else (db_write write_ok i';;
            send_instance sigs (save write_ok sigs fuel) post_save i')
             (emitted (EvFunc (did d) (pk i)) w0).
Proof.
  intros Hm sigs i' w0. split; [|split].
  - intros sender. apply self_save_handler_eq.
  - unfold sigs. rewrite live_receivers_setup. simpl.
    rewrite decide_True by done. set_solver.
  - by apply save_own_instance.
Qed.

(** ** Runs that write nothing *)

(** Events that record a call of [update] or of [func], and nothing that
    writes, saves, notifies or touches an [updating] set. *)
Definition read_only (e : Event) : bool :=
  match e with
  | EvFunc _ _ | EvUpdate _ _ => true
  | _ => false
  end.

(** Nothing but such events happened between two worlds. *)
Definition ReadOnly (w w' : World) : Prop :=
  db w' = db w ∧ updating w' = updating w ∧ qs w' = qs w
  ∧ ∃ evs, log w' = log w ++ evs ∧ forallb read_only evs = true.

Lemma ReadOnly_refl w : ReadOnly w w.
Proof. repeat split. exists []. by rewrite app_nil_r. Qed.

Lemma ReadOnly_trans w w1 w2 : ReadOnly w w1 → ReadOnly w1 w2 → ReadOnly w w2.
Proof.
  intros (Hd1 & Hu1 & Hq1 & evs1 & Hl1 & He1)
         (Hd2 & Hu2 & Hq2 & evs2 & Hl2 & He2).
  repeat split; try congruence. exists (evs1 ++ evs2). split.
  - by rewrite Hl2, Hl1, app_assoc.
  - rewrite forallb_app. by rewrite He1, He2.
Qed.

Lemma ReadOnly_emitted e w : read_only e = true → ReadOnly w (emitted e w).
Proof.
  intros He. repeat split. exists [e]. split; [done|]. simpl. by rewrite He.
Qed.

(** ** A shop: customers, orders and line items *)

Module Shop.

Definition row (m : string) (k : Z) (fields : list (string * Z)) : instance :=
  mkInstance m k (list_to_map fields).

(** The orders the given line items point to. *)
Definition orders_of (items : list instance) : list Z :=
  omap (λ i, if decide (inst_model i = "LineItem")
             then attrs i !! "order" else None) items.

Definition items_of_order (rows : list instance) (o : Z) : list instance :=
  filter (λ r, inst_model r = "LineItem" ∧ attrs r !! "order" = Some o) rows.

Definition orders_of_customer (rows : list instance) (c : Z)
    : list instance :=
  filter (λ r, inst_model r = "Order" ∧ attrs r !! "customer" = Some c) rows.

(** [Order.itemCount]: the number of line items of the order; when line
    items change, the orders they point to are recomputed. *)
Definition order_rule : Denorm :=
  mkDenorm 1 "Order" "itemCount"
    (λ rows o, Z.of_nat (length (items_of_order rows (pk o))))
    [mkDependency "LineItem"
       (λ rows changed, QPkIn "Order" (orders_of (eval rows changed)))].

(** [Customer.itemTotal]: the number of line items in the customer's
    orders; when line items change, every customer is recomputed. *)
Definition customer_rule : Denorm :=
  mkDenorm 0 "Customer" "itemTotal"
    (λ rows c, Z.of_nat (length (flat_map (λ o, items_of_order rows (pk o))
                                          (orders_of_customer rows (pk c)))))
    [mkDependency "LineItem" (λ _ _, QAll "Customer")].

(** A rule whose value never settles: the stored value plus one. *)
Definition counter_rule : Denorm :=
  mkDenorm 2 "Counter" "n"
    (λ _ i, default 0 (attrs i !! "n") + 1) [].

(** Every stored value is up to date. *)
Definition shop : list instance :=
  [ row "Customer" 1 [("itemTotal", 1)];
    row "Customer" 2 [("itemTotal", 0)];
    row "Order" 1 [("customer", 1); ("itemCount", 1)];
    row "Order" 2 [("customer", 2); ("itemCount", 0)];
    row "LineItem" 1 [("order", 1)] ].

(** The same rows before the denormalized fields were built. *)
Definition loaded : list instance :=
  [ row "Order" 1 [("customer", 1); ("itemCount", 0)];
    row "LineItem" 1 [("order", 1)] ].

Definition start : World := mkWorld shop ∅ ∅ [].
Definition fresh : World := mkWorld loaded ∅ ∅ [].
Definition counters : World :=
  mkWorld [row "Counter" 1 [("n", 0)]] ∅ ∅ [].

(** The order rule in the middle of recomputing order 1. *)
Definition busy : World := mkWorld loaded {[1%nat := {[1]}]} ∅ [].

(** A storage that accepts every write, and one that refuses them all. *)
Definition accept : list instance → instance → bool := λ _ _, true.
Definition refuse : list instance → instance → bool := λ _ _, false.

(** Line item 1 moved from order 1 to order 2. *)
Definition moved_item : instance := row "LineItem" 1 [("order", 2)].

(** The querysets a rule's [update] was called with, in order. *)
Definition updates_of (n : nat) (evs : list Event) : list QuerySet :=
  omap (λ e, match e with
             | EvUpdate n' q => if decide (n' = n) then Some q else None
             | _ => None
             end) evs.

(** The rows that were written, in order. *)
Definition writes_of (evs : list Event) : list instance :=
  omap (λ e, match e with EvWrite i => Some i | _ => None end) evs.

End Shop.

Import Shop.

(** C3 (failing input): two rules are set up, the customer rule before
    the order rule, every stored value is up to date, and line item 1 is
    moved from order 1 to order 2 by a save.  The pre-phase of the order
    rule resolves order 1 and its post-phase resolves order 2, but the
    customer rule's post-phase runs first and saves a customer; that
    nested save runs the order rule's handlers, which overwrite and then
    delete the order rule's [qs].  In the post-phase of the line item's
    save the order rule finds no [qs] and calls [update] with the
    post-phase result alone: order 1 is not recomputed and keeps
    [itemCount = 1] although it has no line item left.  With the order
    rule alone the same save calls [update] with both results and brings
    order 1 to 0. *)
Theorem pre_impact_lost_between_rules :
  (∃ i w,
     save accept (setup_all [customer_rule; order_rule]) 10 moved_item start
       = Ok i w
     ∧ updates_of 1 (log w)
       = [ QOr (QOr (QNone "Order") (QPkIn "Order" [])) (QPkIn "Order" []);
           QOr (QNone "Order") (QPkIn "Order" []);
           QOr (QOr (QNone "Order") (QPkIn "Order" [])) (QPkIn "Order" []);
           QOr (QNone "Order") (QPkIn "Order" [2]);
           QOr (QOr (QNone "Order") (QPkIn "Order" [])) (QPkIn "Order" []) ]
     ∧ eval (db w) (QPk "Order" 1)
       = [row "Order" 1 [("customer", 1); ("itemCount", 1)]]
     ∧ func order_rule (db w)
         (row "Order" 1 [("customer", 1); ("itemCount", 1)]) = 0)
  ∧ (∃ i w,
       save accept (setup_all [order_rule]) 10 moved_item start = Ok i w
       ∧ updates_of 1 (log w)
         = [ QOr (QOr (QNone "Order") (QPkIn "Order" [1])) (QPkIn "Order" [2]);
             QOr (QOr (QNone "Order") (QPkIn "Order" [])) (QPkIn "Order" []);
             QOr (QOr (QNone "Order") (QPkIn "Order" [])) (QPkIn "Order" []) ]
       ∧ eval (db w) (QPk "Order" 1)
         = [row "Order" 1 [("customer", 1); ("itemCount", 0)]]).
Proof.
  split.
  - eexists _, _. split; [vm_compute; reflexivity|].
    repeat split; vm_compute; reflexivity.
  - eexists _, _. split; [vm_compute; reflexivity|].
    repeat split; vm_compute; reflexivity.
Qed.

(** ** The sentences of the specification that the code does not follow *)

(** The rows of the owning model among the changed rows (the identity
    dependency of the specification). *)
Definition identity_rows (d : Denorm) (rows : list instance)
    (changed : QuerySet) : list instance :=
  filter (λ i, inst_model i = model d) (eval rows changed).

(** C4 as the specification words it: the stored pre-mutation impact set
    holds the rows of every resolver's result together with the owning
    model's own rows among the changed rows. *)
Definition pre_impact_includes_identity : Prop :=
  ∀ d sender changed w w',
    pre_update_handler d sender changed w = Ok tt w' →
    ∃ q, qs_of w' d = Some q
      ∧ ∀ i, i ∈ eval (db w') q
             ↔ i ∈ concat (map (λ dependency,
                                  eval (db w) (resolve dependency (db w) changed))
                               (depend d))
               ∨ i ∈ identity_rows d (db w) changed.

(** C4 (counterexample): order 1 is about to change.  The order rule's
    [pre_update_handler] stores a queryset without rows, although order 1
    is a row of the owning model among the changed rows. *)
Lemma pre_impact_misses_own_rows :
  (∃ w', pre_update_handler order_rule "Order" (QPk "Order" 1) start = Ok tt w'
     ∧ qs_of w' order_rule
       = Some (QOr (QNone "Order") (QPkIn "Order" []))
     ∧ eval (db w') (QOr (QNone "Order") (QPkIn "Order" [])) = []
     ∧ identity_rows order_rule (db start) (QPk "Order" 1)
       = [row "Order" 1 [("customer", 1); ("itemCount", 1)]])
  ∧ ¬ pre_impact_includes_identity.
Proof.
  split.
  - eexists. split; [vm_compute; reflexivity|].
    repeat split; vm_compute; reflexivity.
  - intros Hclaim.
    destruct (Hclaim order_rule "Order" (QPk "Order" 1) start _
                (pre_update_handler_eq _ _ _ _)) as (q & Hq & Hiff).
    rewrite qs_of_with_qs in Hq. injection Hq as <-.
    assert (Hin : row "Order" 1 [("customer", 1); ("itemCount", 1)]
                  ∈ @nil instance).
    { apply (Hiff (row "Order" 1 [("customer", 1); ("itemCount", 1)])).
      right. vm_compute. apply list_elem_of_here. }
    by apply not_elem_of_nil in Hin.
Qed.

(** The source models of a rule's resolvers. *)
Definition sources (d : Denorm) : list string := map source (depend d).

(** C5 as the specification words it: for a model that is neither the
    owning model nor a source model of a resolver, no signal calls a
    receiver of the rule. *)
Definition handlers_only_for_related_models : Prop :=
  ∀ d s sender,
    sender ≠ model d → sender ∉ sources d →
    Forall (λ r, did (r_denorm r) ≠ did d)
           (live_receivers (setup d no_receivers) s sender).

(** C5 (counterexample): the order rule owns "Order" and resolves from
    "LineItem".  [pre_save] of a "Customer" calls its [pre_handler], and
    the save of a customer runs the order rule's [update]. *)
Lemma unrelated_save_calls_handlers :
  ("Customer" ≠ model order_rule ∧ ("Customer" ∉ sources order_rule)
   ∧ live_receivers (setup order_rule no_receivers) pre_save "Customer"
     = [mkReceiver PreHandler order_rule None]
   ∧ ∃ i w,
       save accept (setup order_rule no_receivers) 10
            (row "Customer" 1 [("itemTotal", 1)]) start = Ok i w
       ∧ updates_of 1 (log w)
         = [QOr (QOr (QNone "Order") (QPkIn "Order" [])) (QPkIn "Order" [])])
  ∧ ¬ handlers_only_for_related_models.
Proof.
  assert (Hne : "Customer" ≠ model order_rule) by done.
  assert (Hns : "Customer" ∉ sources order_rule).
  { unfold sources, order_rule. simpl. intros Hin.
    apply list_elem_of_singleton in Hin. discriminate Hin. }
  split.
  - split; [done|]. split; [done|]. split; [reflexivity|].
    eexists _, _. split; vm_compute; reflexivity.
  - intros Hclaim.
    specialize (Hclaim order_rule pre_save "Customer" Hne Hns).
    change (live_receivers (setup order_rule no_receivers) pre_save "Customer")
      with [mkReceiver PreHandler order_rule None] in Hclaim.
    by apply Forall_inv in Hclaim.
Qed.

(** C7 as the specification words it: of two [rebuildall] calls in
    succession, the second writes nothing ([func] is a function of the
    stored rows in every rule of this model). *)
Definition rebuildall_twice_writes_nothing : Prop :=
  ∀ write_ok sigs fuel ds w w1 w2,
    rebuildall write_ok sigs fuel ds w = Ok tt w1 →
    rebuildall write_ok sigs fuel ds w1 = Ok tt w2 →
    db w2 = db w1
    ∧ ∃ evs, log w2 = log w1 ++ evs ∧ forallb read_only evs = true.


(** ** The theorems at work in the shop *)

(** Order 1 before its [itemCount] was built, and after. *)
Definition order1_loaded : instance :=
  row "Order" 1 [("customer", 1); ("itemCount", 0)].
Definition order1_built : instance :=
  row "Order" 1 [("customer", 1); ("itemCount", 1)].

(** The order rule alone. *)
Definition order_signals : Signals := setup order_rule no_receivers.

(** C1 at work: order 1 stores the count [func] computes, and the loop
    body only records the call. *)
Lemma update_one_no_change_witness :
  attrs order1_built !! fieldname order_rule
    = Some (func order_rule (db start) order1_built)
  ∧ update_one (save accept order_signals 5) order_rule order1_built start
    = Ok tt (emitted (EvFunc 1 1) start).
Proof.
  assert (H : attrs order1_built !! fieldname order_rule
              = Some (func order_rule (db start) order1_built))
    by (vm_compute; reflexivity).
  split; [exact H|].
  rewrite (update_one_no_change (save accept order_signals 5)
             order_rule order1_built start H).
  vm_compute. reflexivity.
Defined.

(** C2 at work: order 1 is in flight, and a pass over it changes
    nothing. *)
Lemma in_flight_row_is_skipped_witness :
  pk order1_loaded ∈ updating_of busy order_rule
  ∧ update_one (save accept order_signals 5) order_rule order1_loaded busy
    = Ok tt busy.
Proof.
  assert (H : pk order1_loaded ∈ updating_of busy order_rule)
    by (vm_compute; reflexivity).
  split; [exact H|].
  exact (proj1 (in_flight_row_is_skipped accept order_signals)
           (save accept order_signals 5) order_rule order1_loaded busy H).
Defined.

(** C6 at work: rebuilding the order rule over the loaded rows writes
    order 1 and leaves the [updating] sets as they were. *)
Lemma updating_window_witness :
  ∃ w', update (save accept order_signals 5) order_rule (QAll "Order") fresh
        = Ok tt w'
    ∧ writes_of (log w') = [order1_built]
    ∧ ∀ n, inflight w' n = inflight fresh n.
Proof.
  eexists. split; [vm_compute; reflexivity|].
  split; [vm_compute; reflexivity|].
  apply (proj1 (proj2 (updating_window accept order_signals 5 order_rule))
           (QAll "Order") fresh).
  vm_compute. reflexivity.
Defined.

(** C8 at work: a direct save of order 1 with a stale count. *)
Lemma self_save_handler_sets_field_witness :
  inst_model order1_loaded = model order_rule
  ∧ self_save_handler order_rule "Order" order1_loaded fresh
    = Ok order1_built (emitted (EvFunc 1 1) fresh)
  ∧ ∃ i w, save accept order_signals 5 order1_loaded fresh = Ok i w
      ∧ writes_of (log w) = [order1_built].
Proof.
  assert (H : inst_model order1_loaded = model order_rule) by reflexivity.
  split; [exact H|].
  destruct (self_save_handler_sets_field accept 4 order_rule order1_loaded
              fresh H) as (Hh & _ & Hs).
  split.
  - rewrite Hh. vm_compute. reflexivity.
  - eexists _, _. split; vm_compute; reflexivity.
Defined.

(** C9 at work: the post-phase of a line item's save with no pre-phase
    before it. *)
Lemma post_update_handler_clears_qs_witness :
  ∃ w', post_update_handler (save accept order_signals 5) order_rule
          "LineItem" (QPk "LineItem" 1) fresh = Ok tt w'
    ∧ (qs_of w' order_rule = None ↔ updating_of w' order_rule = ∅)
    ∧ updates_of 1 (log w')
      = [ QOr (QNone "Order") (QPkIn "Order" [1]);
          QOr (QOr (QNone "Order") (QPkIn "Order" [])) (QPkIn "Order" []) ].
Proof.
  eexists. split; [vm_compute; reflexivity|]. split.
  - eapply proj1.
    apply (post_update_handler_clears_qs accept order_signals 5 order_rule
             "LineItem" (QPk "LineItem" 1) fresh).
    vm_compute. reflexivity.
  - vm_compute. reflexivity.
Defined.

(** C10 at work: the storage refuses the write of order 1. *)
Lemma save_failure_leaves_row_in_flight_witness :
  ∃ w', for_each [order1_loaded]
          (update_one (save refuse order_signals 5) order_rule) fresh
        = Raise DatabaseError w'
    ∧ pk order1_loaded ∈ updating_of w' order_rule
    ∧ update_one (save accept order_signals 5) order_rule order1_loaded w'
      = Ok tt w'.
Proof.
  assert (H1 : pk order1_loaded ∉ updating_of fresh order_rule)
    by (vm_compute; intros H; discriminate H).
  assert (H2 : attrs order1_loaded !! fieldname order_rule = Some 0)
    by (vm_compute; reflexivity).
  assert (H3 : 0 ≠ func order_rule (db fresh) order1_loaded)
    by (vm_compute; intros H; discriminate H).
  eassert (H4 : save refuse order_signals 5
                  (setattr order1_loaded (fieldname order_rule)
                     (func order_rule (db fresh) order1_loaded))
                  (added order_rule (pk order1_loaded)
                     (emitted (EvFunc (did order_rule) (pk order1_loaded))
                        fresh))
                = Raise DatabaseError _)
    by (vm_compute; reflexivity).
  destruct (save_failure_leaves_row_in_flight refuse order_signals 5
              order_rule order1_loaded fresh 0 DatabaseError _ H1 H2 H3 H4)
    as (Hloop & Hin & _ & Hskip).
  eexists. split; [apply Hloop|]. split; [exact Hin|].
  by apply Hskip.
Defined.

(** ** The recursion through [save] is bounded *)

Definition all_signals : list SignalName :=
  [pre_save; post_save; pre_delete; post_delete; pre_update; post_update].

(** The rules that have a receiver connected, and their identities. *)
Definition rules_of (sg : Signals) : list Denorm :=
  r_denorm <$> (all_signals ≫= sg).

Definition rule_ids (sg : Signals) : list nat := did <$> rules_of sg.

(** The pairs of a rule in [R] and a key in [P] that are not in flight:
    how many windows can still be opened, one inside the other. *)
Definition slack (R : list nat) (P : list Z) (w : World) : nat :=
  length (filter (λ p, p.2 ∉ inflight w p.1) (cprod R P)).

(** Every stored row has its key in [P]. *)
Definition InP (P : list Z) (w : World) : Prop :=
  Forall (λ r, pk r ∈ P) (db w).

(** The argument a receiver hands on is the one it was given, up to the
    attributes of the instance. *)
Definition same_pk (a a' : Arg) : Prop :=
  match a, a' with
  | AInst i, AInst i' => pk i' = pk i
  | AQs _, AQs _ => True
  | _, _ => False
  end.

Lemma rules_of_elem sg s r : r ∈ sg s → r_denorm r ∈ rules_of sg.
Proof.
  intros Hr. unfold rules_of. apply list_elem_of_fmap_2.
  apply list_elem_of_bind. exists s. split; [done|].
  unfold all_signals. destruct s; set_solver.
Qed.

Lemma slack_bound R P w : (slack R P w ≤ length R * length P)%nat.
Proof.
  unfold slack. etrans; [apply length_filter|].
  by rewrite list_cprod_list_prod, length_prod.
Qed.

Lemma slack_same R P w w' :
  (∀ n, inflight w' n = inflight w n) → slack R P w' = slack R P w.
Proof.
  intros Heq. unfold slack. f_equal. apply list_filter_iff.
  intros [n k]. simpl. by rewrite Heq.
Qed.

Lemma slack_added R P d k w :
  did d ∈ R → k ∈ P → k ∉ updating_of w d →
  (slack R P (added d k w) < slack R P w)%nat.
Proof.
  intros Hd Hk Hout. unfold slack.
  assert (Hsub : filter (λ p, p.2 ∉ inflight (added d k w) p.1) (cprod R P)
                 = filter (λ p, p.2 ∉ inflight (added d k w) p.1)
                     (filter (λ p, p.2 ∉ inflight w p.1) (cprod R P))).
  { rewrite list_filter_filter. apply list_filter_iff. intros [n' k']. simpl.
    rewrite inflight_added. case_decide; set_solver. }
  rewrite Hsub. apply (length_filter_lt _ _ (did d, k)).
  - apply list_elem_of_filter. split; [done|].
    apply list_elem_of_cprod. done.
  - simpl. rewrite inflight_added, decide_True by done. set_solver.
Qed.

Section Ends.

Variable write_ok : list instance → instance → bool.
Variable sigs : Signals.
Variable R : list nat.
Variable P : list Z.
Variable n : nat.
Hypothesis R_covers : ∀ s r, r ∈ sigs s → did (r_denorm r) ∈ R.

(** From a world with at most [n] windows left to open, the computation
    does not run out of fuel; when it returns, the rows still have their
    keys in [P], the windows left are as many, and the value returned
    satisfies [post]. *)
Definition ends {A} (post : A → Prop) (m : M A) : Prop :=
  ∀ w, InP P w → (slack R P w ≤ n)%nat →
    match m w with
    | Ok a w' => InP P w' ∧ (slack R P w' ≤ n)%nat ∧ post a
    | Raise _ _ => True
    | OutOfFuel => False
    end.

Lemma ends_ret {A} (post : A → Prop) (a : A) : post a → ends post (mret a).
Proof. intros Ha w HI Hs. done. Qed.

Lemma ends_raise {A} (post : A → Prop) e : ends post (@raise A e).
Proof. intros w HI Hs. done. Qed.

Lemma ends_bind {A B} (post1 : A → Prop) (post2 : B → Prop)
    (m : M A) (f : A → M B) :
  ends post1 m → (∀ a, post1 a → ends post2 (f a)) → ends post2 (m ≫= f).
Proof.
  intros Hm Hf w HI Hs. rewrite bind_eq. specialize (Hm w HI Hs).
  destruct (m w) as [a w1|e w1|]; [|done..].
  destruct Hm as (HI1 & Hs1 & Ha). by apply Hf.
Qed.

Lemma ends_weaken {A} (post post' : A → Prop) (m : M A) :
  (∀ a, post a → post' a) → ends post m → ends post' m.
Proof.
  intros Himp Hm w HI Hs. specialize (Hm w HI Hs).
  destruct (m w) as [a w1|e w1|]; [|done..]. naive_solver.
Qed.

(** A step that leaves the stored rows and the [updating] sets alone. *)
Lemma ends_same {A} (post : A → Prop) (m : M A) :
  (∀ w, InP P w →
     match m w with
     | Ok a w' => db w' = db w ∧ updating w' = updating w ∧ post a
     | Raise _ _ => True
     | OutOfFuel => False
     end) →
  ends post m.
Proof.
  intros Hm w HI Hs. specialize (Hm w HI).
  destruct (m w) as [a w1|e w1|]; [|done..].
  destruct Hm as (Hdb & Hu & Ha). split; [|split; [|done]].
  - unfold InP. by rewrite Hdb.
  - rewrite (slack_same R P w w1); [done|].
    intros k. unfold inflight. by rewrite Hu.
Qed.

Lemma ends_for_each {A} (l : list A) (body : A → M unit) :
  (∀ x, x ∈ l → ends (λ _, True) (body x)) →
  ends (λ _, True) (for_each l body).
Proof.
  induction l as [|x l IH]; intros Hb; simpl.
  - by apply ends_ret.
  - eapply ends_bind; [apply Hb; set_solver|].
    intros _ _. apply IH. intros y Hy. apply Hb. set_solver.
Qed.

Lemma ends_emit e : ends (λ _, True) (emit e).
Proof. apply ends_same. by intros w _. Qed.

Lemma ends_set_qs d q : ends (λ _, True) (set_qs d q).
Proof. apply ends_same. by intros w _. Qed.

Lemma ends_get_qs d : ends (λ _, True) (get_qs d).
Proof.
  apply ends_same. intros w _. unfold get_qs. by destruct (qs_of w d).
Qed.

Lemma ends_get_db : ends (λ rows, Forall (λ r, pk r ∈ P) rows) get_db.
Proof. apply ends_same. by intros w HI. Qed.

Lemma ends_resolve_all d c : ends (λ _, True) (resolve_all d c).
Proof.
  unfold resolve_all. apply ends_for_each. intros dep _.
  eapply ends_bind; [apply ends_get_qs|]. intros q _.
  eapply ends_bind; [apply ends_get_db|]. intros rows _.
  apply ends_set_qs.
Qed.

Lemma ends_pre_update_handler d sender c :
  ends (λ _, True) (pre_update_handler d sender c).
Proof.
  unfold pre_update_handler.
  eapply ends_bind; [apply ends_set_qs|]. intros _ _.
  apply ends_resolve_all.
Qed.

Lemma ends_del_qs d :
  ends (λ _, True)
    (u ← get_updating d; if decide (u = ∅) then del_qs d else mret tt).
Proof.
  apply ends_same. intros w _. rewrite bind_eq. unfold get_updating.
  case_decide; [|done]. unfold del_qs. by destruct (qs_of w d).
Qed.

Lemma eval_elem_of rows q i : i ∈ eval rows q → i ∈ rows.
Proof.
  revert i. induction q as [m|m|m k|m ks|a IHa b IHb|a IHa]; intros i; simpl.
  - by intros ?%elem_of_nil.
  - by intros [_ ?]%list_elem_of_filter.
  - by intros [_ ?]%list_elem_of_filter.
  - by intros [_ ?]%list_elem_of_filter.
  - intros [?|?]%elem_of_app; auto.
  - rewrite elem_of_remove_dups. auto.
Qed.

Section BodyEnds.

Variable save_rec : instance → M instance.
Hypothesis save_rec_respects : ∀ i, respects (save_rec i).
Hypothesis save_rec_ends :
  ∀ i w, pk i ∈ P → InP P w → (slack R P w < n)%nat →
    match save_rec i w with
    | Ok _ w' => InP P w'
    | Raise _ _ => True
    | OutOfFuel => False
    end.

Lemma ends_update_one d i :
  did d ∈ R → pk i ∈ P → ends (λ _, True) (update_one save_rec d i).
Proof.
  intros Hd Hk w HI Hs.
  destruct (decide (pk i ∈ updating_of w d)) as [Hin|Hout].
  { by rewrite update_one_in_flight. }
  destruct (attrs i !! fieldname d) as [old|] eqn:Hold.
  2:{ unfold update_one. rewrite bind_eq. unfold get_updating.
      rewrite decide_False by done. rewrite !bind_eq. unfold get_db, emit.
      cbv beta iota. rewrite bind_eq. unfold getattr. by rewrite Hold. }
  destruct (decide (old = func d (db w) i)) as [->|Hne].
  { rewrite update_one_unchanged by done. rewrite decide_False by done.
    split; [done|]. split; [|done].
    by rewrite (slack_same R P w (emitted (EvFunc (did d) (pk i)) w)). }
  rewrite (update_one_changed _ _ _ _ old) by done.
  set (w1 := emitted (EvFunc (did d) (pk i)) w).
  set (i' := setattr i (fieldname d) (func d (db w) i)).
  pose proof (window_Bal save_rec save_rec_respects d (pk i) i' w1 Hout) as Hw.
  rewrite bind_eq, updating_add_eq in Hw |- *. cbv beta iota in Hw |- *.
  rewrite bind_eq in Hw |- *.
  assert (Hs3 : (slack R P (added d (pk i) w1) < n)%nat).
  { eapply Nat.lt_le_trans; [by apply slack_added|].
    by rewrite (slack_same R P w w1). }
  pose proof (save_rec_ends i' (added d (pk i) w1) Hk HI Hs3) as He.
  destruct (save_rec i' (added d (pk i) w1)) as [i2 w4|e w4|]; [|done..].
  destruct (updating_remove d (pk i) w4) as [[] w5|e w5|] eqn:Hrem;
    [|done|].
  - destruct Hw as (_ & Heq & _). split; [|split; [|done]].
    + unfold updating_remove in Hrem. rewrite bind_eq in Hrem.
      unfold get_updating in Hrem. case_decide; [|done].
      injection Hrem as <-. done.
    + rewrite (slack_same R P w1 w5) by done.
      by rewrite (slack_same R P w w1).
  - unfold updating_remove in Hrem. rewrite bind_eq in Hrem.
    unfold get_updating in Hrem. by case_decide.
Qed.

Lemma ends_update d q : did d ∈ R → ends (λ _, True) (update save_rec d q).
Proof.
  intros Hd. unfold update.
  eapply ends_bind; [apply ends_emit|]. intros _ _.
  eapply ends_bind; [apply ends_get_db|]. intros rows Hrows.
  apply ends_for_each. intros i Hi. apply ends_update_one; [done|].
  apply eval_elem_of in Hi. rewrite Forall_forall in Hrows. by apply Hrows.
Qed.

Lemma ends_post_update_handler d sender c :
  did d ∈ R → ends (λ _, True) (post_update_handler save_rec d sender c).
Proof.
  intros Hd. unfold post_update_handler.
  eapply ends_bind.
  { apply (ends_same (λ _, True)). by intros w _. }
  intros has _. apply (ends_bind (λ _ : unit, True)).
  { destruct has; [by apply ends_ret | apply ends_set_qs]. }
  intros _ _. eapply ends_bind; [apply ends_resolve_all|]. intros _ _.
  eapply ends_bind; [apply ends_get_qs|]. intros q _.
  eapply ends_bind; [by apply ends_update|]. intros _ _.
  apply ends_del_qs.
Qed.

Lemma ends_self_save_handler d sender i :
  ends (λ i', pk i' = pk i) (self_save_handler d sender i).
Proof.
  apply ends_same. intros w _. rewrite self_save_handler_eq.
  by case_decide.
Qed.

Lemma ends_call_receiver r sender a :
  did (r_denorm r) ∈ R →
  ends (same_pk a) (call_receiver save_rec r sender a).
Proof.
  intros Hd. unfold call_receiver, pre_handler, post_handler,
    self_update_handler.
  destruct (r_handler r), a as [i|q]; try apply ends_raise.
  - eapply ends_bind; [apply ends_pre_update_handler|].
    intros _ _. by apply ends_ret.
  - eapply ends_bind; [by apply ends_post_update_handler|].
    intros _ _. by apply ends_ret.
  - eapply ends_bind; [apply ends_pre_update_handler|].
    intros _ _. by apply ends_ret.
  - eapply ends_bind; [by apply ends_post_update_handler|].
    intros _ _. by apply ends_ret.
  - eapply ends_bind; [by apply ends_update|].
    intros _ _. by apply ends_ret.
  - eapply ends_bind; [apply ends_self_save_handler|].
    intros i' Hi'. by apply ends_ret.
Qed.

Lemma same_pk_trans a b c : same_pk a b → same_pk b c → same_pk a c.
Proof. destruct a, b, c; simpl; try done; congruence. Qed.

Lemma ends_call_receivers rs sender a :
  Forall (λ r, did (r_denorm r) ∈ R) rs →
  ends (same_pk a) (call_receivers save_rec rs sender a).
Proof.
  intros Hrs. revert a. induction Hrs as [|r rs Hr _ IH]; intros a; simpl.
  - apply ends_ret. by destruct a.
  - eapply ends_bind; [by apply ends_call_receiver|].
    intros a' Ha'. eapply ends_weaken; [|apply IH].
    intros a''. by apply same_pk_trans.
Qed.

Lemma ends_send s sender a : ends (same_pk a) (send sigs save_rec s sender a).
Proof.
  unfold send. eapply ends_bind; [apply ends_emit|]. intros _ _.
  apply ends_call_receivers. apply Forall_forall. intros r Hr.
  apply list_elem_of_filter in Hr as [_ Hr]. by eapply R_covers.
Qed.

Lemma ends_send_instance s i :
  ends (λ i', pk i' = pk i) (send_instance sigs save_rec s i).
Proof.
  unfold send_instance. eapply ends_bind; [apply ends_send|].
  intros [i'|q] Ha; [|done]. by apply ends_ret.
Qed.

Lemma InP_db_put rows i :
  pk i ∈ P → Forall (λ r, pk r ∈ P) rows →
  Forall (λ r, pk r ∈ P) (db_put rows i).
Proof.
  intros Hi. induction 1 as [|r rows Hr Hrows IH]; simpl.
  - by constructor.
  - case_decide; by constructor.
Qed.

Lemma ends_db_write i : pk i ∈ P → ends (λ _, True) (db_write write_ok i).
Proof.
  intros Hi w HI Hs. unfold db_write. rewrite bind_eq. unfold get_db.
  destruct (write_ok (db w) i); [|done]. split; [|split; [|done]].
  - by apply InP_db_put.
  - by rewrite (slack_same R P w).
Qed.

Lemma ends_save_body i :
  pk i ∈ P → ends (λ _, True) (save_body write_ok sigs save_rec i).
Proof.
  intros Hi. unfold save_body.
  eapply ends_bind; [apply ends_emit|]. intros _ _.
  eapply ends_bind; [apply ends_send_instance|]. intros i' Hi'.
  eapply ends_bind; [apply ends_db_write; by rewrite Hi'|]. intros _ _.
  eapply ends_weaken; [|apply ends_send_instance]. done.
Qed.

End BodyEnds.

End Ends.

(** ** More fuel does not change a result *)

(** Whenever [m] does not run out of fuel, [m'] does the same as [m]. *)
Definition refines {A} (m m' : M A) : Prop :=
  ∀ w, m w ≠ OutOfFuel → m' w = m w.

Lemma refines_refl {A} (m : M A) : refines m m.
Proof. by intros w _. Qed.

Lemma refines_bind {A B} (m m' : M A) (f f' : A → M B) :
  refines m m' → (∀ a, refines (f a) (f' a)) →
  refines (m ≫= f) (m' ≫= f').
Proof.
  intros Hm Hf w Hw. rewrite (bind_eq m f) in Hw.
  rewrite (bind_eq m f), (bind_eq m' f').
  destruct (m w) as [a w1|e w1|] eqn:Hmw; [| |done].
  - rewrite (Hm w) by (by rewrite Hmw). rewrite Hmw. by apply Hf.
  - rewrite (Hm w) by (by rewrite Hmw). by rewrite Hmw.
Qed.

Lemma refines_for_each {A} (l : list A) (body body' : A → M unit) :
  (∀ x, refines (body x) (body' x)) →
  refines (for_each l body) (for_each l body').
Proof.
  intros Hb. induction l as [|x l IH]; simpl; [apply refines_refl|].
  apply refines_bind; [apply Hb | intros _; apply IH].
Qed.

Section Refines.

Variable write_ok : list instance → instance → bool.
Variable sigs : Signals.
Variables save_rec save_rec' : instance → M instance.
Hypothesis save_rec_refines : ∀ i, refines (save_rec i) (save_rec' i).

Lemma refines_update_one d i :
  refines (update_one save_rec d i) (update_one save_rec' d i).
Proof.
  unfold update_one. apply refines_bind; [apply refines_refl|]. intros u.
  case_decide; [apply refines_refl|].
  apply refines_bind; [apply refines_refl|]. intros rows.
  apply refines_bind; [apply refines_refl|]. intros _.
  apply refines_bind; [apply refines_refl|]. intros old.
  case_decide; [apply refines_refl|].
  apply refines_bind; [apply refines_refl|]. intros _.
  apply refines_bind; [apply save_rec_refines|]. intros _.
  apply refines_refl.
Qed.

Lemma refines_update d q :
  refines (update save_rec d q) (update save_rec' d q).
Proof.
  unfold update. apply refines_bind; [apply refines_refl|]. intros _.
  apply refines_bind; [apply refines_refl|]. intros rows.
  apply refines_for_each, refines_update_one.
Qed.

Lemma refines_post_update_handler d sender c :
  refines (post_update_handler save_rec d sender c)
          (post_update_handler save_rec' d sender c).
Proof.
  unfold post_update_handler.
  apply refines_bind; [apply refines_refl|]. intros has.
  apply refines_bind; [apply refines_refl|]. intros _.
  apply refines_bind; [apply refines_refl|]. intros _.
  apply refines_bind; [apply refines_refl|]. intros q.
  apply refines_bind; [apply refines_update|]. intros _.
  apply refines_refl.
Qed.

Lemma refines_call_receiver r sender a :
  refines (call_receiver save_rec r sender a)
          (call_receiver save_rec' r sender a).
Proof.
  unfold call_receiver, post_handler, self_update_handler.
  destruct (r_handler r), a; try apply refines_refl;
    (apply refines_bind; [|intros ?; apply refines_refl]).
  - apply refines_post_update_handler.
  - apply refines_post_update_handler.
  - apply refines_update.
Qed.

Lemma refines_call_receivers rs sender a :
  refines (call_receivers save_rec rs sender a)
          (call_receivers save_rec' rs sender a).
Proof.
  revert a. induction rs as [|r rs IH]; intros a; simpl;
    [apply refines_refl|].
  apply refines_bind; [apply refines_call_receiver | apply IH].
Qed.

Lemma refines_send_instance s i :
  refines (send_instance sigs save_rec s i)
          (send_instance sigs save_rec' s i).
Proof.
  unfold send_instance, send. apply refines_bind; [|intros ?; apply refines_refl].
  apply refines_bind; [apply refines_refl|]. intros _.
  apply refines_call_receivers.
Qed.

Lemma refines_save_body i :
  refines (save_body write_ok sigs save_rec i)
          (save_body write_ok sigs save_rec' i).
Proof.
  unfold save_body. apply refines_bind; [apply refines_refl|]. intros _.
  apply refines_bind; [apply refines_send_instance|]. intros i'.
  apply refines_bind; [apply refines_refl|]. intros _.
  apply refines_send_instance.
Qed.

End Refines.

Lemma save_more_fuel write_ok sigs fuel fuel' i :
  (fuel ≤ fuel')%nat →
  refines (save write_ok sigs fuel i) (save write_ok sigs fuel' i).
Proof.
  revert fuel' i. induction fuel as [|fuel IH]; intros fuel' i Hle.
  - by intros w Hw.
  - destruct fuel' as [|fuel']; [lia|]. simpl.
    apply refines_save_body. intros i'. apply IH. lia.
Qed.

Lemma save_ends write_ok sigs R P :
  (∀ s r, r ∈ sigs s → did (r_denorm r) ∈ R) →
  ∀ n i w, pk i ∈ P → InP P w → (slack R P w < n)%nat →
    match save write_ok sigs n i w with
    | Ok _ w' => InP P w'
    | Raise _ _ => True
    | OutOfFuel => False
    end.
Proof.
  intros HR. induction n as [|n IH]; intros i w Hi HI Hs; [lia|]. simpl.
  assert (Hs' : (slack R P w ≤ n)%nat) by lia.
  pose proof (ends_save_body write_ok sigs R P n HR (save write_ok sigs n)
                (respects_save write_ok sigs n) IH i Hi w HI Hs') as He.
  destruct (save_body write_ok sigs (save write_ok sigs n) i w); naive_solver.
Qed.

Lemma rule_ids_cover sigs s r :
  r ∈ sigs s → did (r_denorm r) ∈ remove_dups (rule_ids sigs).
Proof.
  intros Hr. apply elem_of_remove_dups. unfold rule_ids.
  apply list_elem_of_fmap_2. by eapply rules_of_elem.
Qed.

(** X1: [save] ends, whatever the rules compute and however they depend
    on each other: the windows open at any moment are for different
    pairs of a rule and a key, so the recursion is never deeper than the
    number of rules with a receiver connected times the number of rows
    (the saved one included).  With more fuel than that, [save] returns
    or raises, and any further fuel gives the same result. *)
Theorem save_terminates write_ok sigs fuel i w :
  (length (remove_dups (rule_ids sigs)) * S (length (db w)) < fuel)%nat →
  is_Some (final (save write_ok sigs fuel i w))
  ∧ ∀ fuel', (fuel ≤ fuel')%nat →
      save write_ok sigs fuel' i w = save write_ok sigs fuel i w.
Proof.
  intros Hfuel.
  set (R := remove_dups (rule_ids sigs)). set (P := pk i :: (pk <$> db w)).
  assert (HI : InP P w).
  { apply Forall_forall. intros r Hr. unfold P. right.
    by apply list_elem_of_fmap_2. }
  assert (Hs : (slack R P w < fuel)%nat).
  { eapply Nat.le_lt_trans; [apply slack_bound|].
    unfold P. simpl. by rewrite length_fmap. }
  pose proof (save_ends write_ok sigs R P (rule_ids_cover sigs) fuel i w
                (list_elem_of_here _ _) HI Hs) as He.
  assert (Hn : save write_ok sigs fuel i w ≠ OutOfFuel)
    by (intros Heq; by rewrite Heq in He).
  split.
  - destruct (save write_ok sigs fuel i w); [by eexists..|done].
  - intros fuel' Hle. by apply (save_more_fuel write_ok sigs fuel fuel').
Qed.

(** X2: [rebuildall] ends as well: with at least as much fuel as the
    number of rules (those rebuilt and those with a receiver connected)
    times the number of rows, it returns or raises, and any further fuel
    gives the same result. *)
Theorem rebuildall_terminates write_ok sigs fuel ds w :
  (length (remove_dups (rule_ids sigs ++ (did <$> ds))) * length (db w)
   ≤ fuel)%nat →
  is_Some (final (rebuildall write_ok sigs fuel ds w))
  ∧ ∀ fuel', (fuel ≤ fuel')%nat →
      rebuildall write_ok sigs fuel' ds w = rebuildall write_ok sigs fuel ds w.
Proof.
  intros Hfuel.
  set (R := remove_dups (rule_ids sigs ++ (did <$> ds))).
  set (P := pk <$> db w).
  assert (HR : ∀ s r, r ∈ sigs s → did (r_denorm r) ∈ R).
  { intros s r Hr. apply elem_of_remove_dups, elem_of_app. left.
    unfold rule_ids. apply list_elem_of_fmap_2. by eapply rules_of_elem. }
  assert (HI : InP P w).
  { apply Forall_forall. intros r Hr. by apply list_elem_of_fmap_2. }
  assert (Hb : (length R * length P ≤ fuel)%nat)
    by (unfold P; by rewrite length_fmap).
  assert (He : ends R P (length R * length P) (λ _, True)
                 (rebuildall write_ok sigs fuel ds)).
  { unfold rebuildall. apply (ends_for_each sigs R P _ HR). intros d Hd.
    apply (ends_update sigs R P _ HR (save write_ok sigs fuel)).
    - apply respects_save.
    - intros i w' Hi HI' Hs'. apply (save_ends write_ok sigs R P HR); [done..|].
      lia.
    - apply elem_of_remove_dups, elem_of_app. right.
      by apply list_elem_of_fmap_2. }
  specialize (He w HI (slack_bound R P w)).
  assert (Hn : rebuildall write_ok sigs fuel ds w ≠ OutOfFuel)
    by (intros Heq; by rewrite Heq in He).
  split.
  - destruct (rebuildall write_ok sigs fuel ds w); [by eexists..|done].
  - intros fuel' Hle. unfold rebuildall in Hn |- *.
    apply (refines_for_each ds
             (λ d, update (save write_ok sigs fuel) d (QAll (model d)))
             (λ d, update (save write_ok sigs fuel') d (QAll (model d))));
      [|done].
    intros d. apply refines_update. intros i.
    by apply save_more_fuel.
Qed.

(** X1 at work: saving the moved line item in the shop. *)
Lemma save_terminates_witness :
  is_Some (final (save accept order_signals 7 moved_item start))
  ∧ save accept order_signals 9 moved_item start
    = save accept order_signals 7 moved_item start.
Proof.
  destruct (save_terminates accept order_signals 7 moved_item start)
    as [Hend Hsame]; [vm_compute; lia|].
  split; [exact Hend|]. apply Hsame. lia.
Defined.

(** X2 at work: rebuilding the order rule over the loaded rows. *)
Lemma rebuildall_terminates_witness :
  is_Some (final (rebuildall accept order_signals 2 [order_rule] fresh))
  ∧ rebuildall accept order_signals 5 [order_rule] fresh
    = rebuildall accept order_signals 2 [order_rule] fresh.
Proof.
  destruct (rebuildall_terminates accept order_signals 2 [order_rule] fresh)
    as [Hend Hsame]; [vm_compute; lia|].
  split; [exact Hend|]. apply Hsame. lia.
Defined.

(** ** The engine writes nothing but the rules' fields *)

(** The field names of the rules that have a receiver connected. *)
Definition field_names (sg : Signals) : list string :=
  fieldname <$> rules_of sg.

(** Two instances of the same row that agree on every attribute whose
    name is not in [N]. *)
Definition same_base (N : list string) (i i' : instance) : Prop :=
  inst_model i = inst_model i' ∧ pk i = pk i'
  ∧ ∀ a, a ∉ N → attrs i !! a = attrs i' !! a.

(** Two tables with the same rows in the same order, up to the attributes
    named in [N]. *)
Definition Base (N : list string) (rows rows' : list instance) : Prop :=
  Forall2 (same_base N) rows rows'.

(** The keys of the stored rows; a table has no key twice. *)
Definition keys (rows : list instance) : list (string * Z) :=
  (λ r, (inst_model r, pk r)) <$> rows.

Definition WellKeyed (w : World) : Prop := NoDup (keys (db w)).

(** What the argument a receiver hands on has in common with the one it
    was given. *)
Definition same_arg (N : list string) (a a' : Arg) : Prop :=
  match a, a' with
  | AInst i, AInst i' => same_base N i' i
  | AQs _, AQs _ => True
  | _, _ => False
  end.

Lemma same_base_refl N i : same_base N i i.
Proof. done. Qed.

Lemma same_base_sym N i i' : same_base N i i' → same_base N i' i.
Proof. intros (? & ? & Ha). repeat split; try done. intros a Hn. by rewrite Ha. Qed.

Lemma same_base_trans N i1 i2 i3 :
  same_base N i1 i2 → same_base N i2 i3 → same_base N i1 i3.
Proof.
  intros (? & ? & Ha) (? & ? & Hb). repeat split; try congruence.
  intros a Hn. by rewrite Ha, Hb.
Qed.

Lemma same_base_setattr N i a v : a ∈ N → same_base N (setattr i a v) i.
Proof.
  intros Ha. repeat split. intros b Hb. simpl.
  rewrite lookup_insert_ne; [done|]. by intros ->.
Qed.

Lemma Base_refl N rows : Base N rows rows.
Proof. induction rows; constructor; [apply same_base_refl | done]. Qed.

Lemma Base_sym N rows rows' : Base N rows rows' → Base N rows' rows.
Proof.
  induction 1; constructor; [by apply same_base_sym | done].
Qed.

Lemma Base_trans N r1 r2 r3 : Base N r1 r2 → Base N r2 r3 → Base N r1 r3.
Proof.
  intros H12. revert r3. induction H12 as [|x y l k Hxy _ IH]; intros r3 H23.
  - done.
  - inversion H23 as [|? z ? k' Hyz Hk]; subst. constructor.
    + by eapply same_base_trans.
    + by apply IH.
Qed.

Lemma Base_keys N rows rows' : Base N rows rows' → keys rows = keys rows'.
Proof.
  induction 1 as [|x y l k (Hm & Hk & _) _ IH]; [done|].
  unfold keys in *. rewrite !fmap_cons. by rewrite Hm, Hk, IH.
Qed.

Lemma Base_elem N rows rows' i :
  Base N rows rows' → i ∈ rows → ∃ r, r ∈ rows' ∧ same_base N i r.
Proof.
  induction 1 as [|x y l k Hxy _ IH]; [by intros ?%elem_of_nil|].
  intros [->|Hi]%elem_of_cons.
  - exists y. split; [apply list_elem_of_here | done].
  - destruct (IH Hi) as (r & Hr & Hs). exists r.
    split; [by apply list_elem_of_further | done].
Qed.

Lemma db_put_Base N rows rows' i i' :
  Base N rows rows' → same_base N i i' →
  Base N (db_put rows i) (db_put rows' i').
Proof.
  intros Hb Hi. induction Hb as [|x y l k Hxy Hlk IH]; simpl.
  - constructor; [done | constructor].
  - pose proof Hxy as (Hm & Hk & Ha). pose proof Hi as (Hm' & Hk' & Ha').
    rewrite Hm, Hk, Hm', Hk'. case_decide.
    + constructor; [done | done].
    + constructor; [done | apply IH].
Qed.

Lemma db_put_existing N rows r i :
  NoDup (keys rows) → r ∈ rows → same_base N i r →
  Base N (db_put rows i) rows.
Proof.
  intros Hnd Hr Hi. induction rows as [|x rows IH]; [by apply elem_of_nil in Hr|].
  simpl. unfold keys in Hnd. simpl in Hnd. apply NoDup_cons in Hnd as [Hx Hnd].
  destruct Hi as (Hm & Hk & Ha). case_decide as Hkey.
  - constructor; [|apply Base_refl].
    apply elem_of_cons in Hr as [->|Hr]; [done|].
    exfalso. apply Hx. destruct Hkey as [-> ->]. rewrite Hm, Hk.
    by apply (list_elem_of_fmap_2 (λ r, (inst_model r, pk r))).
  - constructor; [apply same_base_refl|].
    apply elem_of_cons in Hr as [->|Hr]; [|by apply IH].
    exfalso. apply Hkey. by rewrite Hm, Hk.
Qed.

Lemma keys_db_put rows i :
  keys (db_put rows i) = keys rows
  ∨ (((inst_model i, pk i) ∉ keys rows)
     ∧ keys (db_put rows i) = keys rows ++ [(inst_model i, pk i)]).
Proof.
  induction rows as [|x rows IH]; simpl.
  - right. split; [apply not_elem_of_nil | done].
  - case_decide as Hkey.
    + left. unfold keys. rewrite ?fmap_cons.
      destruct Hkey as [Hm Hk]. by rewrite Hm, Hk.
    + destruct IH as [IH|[Hn IH]].
      * left. unfold keys in *. rewrite ?fmap_cons. by rewrite IH.
      * right. split.
        -- unfold keys in *. rewrite ?fmap_cons.
           intros [Heq|Hin]%elem_of_cons; [|done].
           injection Heq as Hm Hk. by apply Hkey.
        -- unfold keys in *. rewrite ?fmap_cons. by rewrite IH.
Qed.

Lemma NoDup_keys_db_put rows i :
  NoDup (keys rows) → NoDup (keys (db_put rows i)).
Proof.
  intros Hnd. destruct (keys_db_put rows i) as [->|[Hn ->]]; [done|].
  apply NoDup_app. split; [done|]. split; [|apply NoDup_singleton].
  intros x Hx ->%list_elem_of_singleton. done.
Qed.

Section Frames.

Variable write_ok : list instance → instance → bool.
Variable sigs : Signals.
Variable N : list string.
Hypothesis N_covers : ∀ s r, r ∈ sigs s → fieldname (r_denorm r) ∈ N.

(** From a well-keyed table the computation leaves every row in place
    and changes no attribute outside [N], whether it returns or raises. *)
Definition frames {A} (post : A → Prop) (m : M A) : Prop :=
  ∀ w, WellKeyed w →
    match m w with
    | Ok a w' => Base N (db w) (db w') ∧ post a
    | Raise _ w' => Base N (db w) (db w')
    | OutOfFuel => True
    end.

Lemma WellKeyed_Base w w' : WellKeyed w → Base N (db w) (db w') → WellKeyed w'.
Proof. unfold WellKeyed. intros Hw Hb. by rewrite <- (Base_keys _ _ _ Hb). Qed.

Lemma frames_ret {A} (post : A → Prop) (a : A) : post a → frames post (mret a).
Proof. intros Ha w _. split; [apply Base_refl | done]. Qed.

Lemma frames_raise {A} (post : A → Prop) e : frames post (@raise A e).
Proof. intros w _. apply Base_refl. Qed.

Lemma frames_bind {A B} (post1 : A → Prop) (post2 : B → Prop)
    (m : M A) (f : A → M B) :
  frames post1 m → (∀ a, post1 a → frames post2 (f a)) →
  frames post2 (m ≫= f).
Proof.
  intros Hm Hf w Hw. rewrite bind_eq. specialize (Hm w Hw).
  destruct (m w) as [a w1|e w1|]; [|done..].
  destruct Hm as [Hb Ha]. pose proof (WellKeyed_Base _ _ Hw Hb) as Hw1.
  specialize (Hf a Ha w1 Hw1).
  destruct (f a w1) as [b w2|e w2|]; [| |done].
  - destruct Hf as [Hb2 Hpost]. split; [by eapply Base_trans | done].
  - by eapply Base_trans.
Qed.

Lemma frames_weaken {A} (post post' : A → Prop) (m : M A) :
  (∀ a, post a → post' a) → frames post m → frames post' m.
Proof.
  intros Himp Hm w Hw. specialize (Hm w Hw).
  destruct (m w) as [a w1|e w1|]; [|done..]. naive_solver.
Qed.

(** A step that leaves the stored rows alone. *)
Lemma frames_same {A} (post : A → Prop) (m : M A) :
  (∀ w, match m w with
        | Ok a w' => db w' = db w ∧ post a
        | Raise _ w' => db w' = db w
        | OutOfFuel => True
        end) →
  frames post m.
Proof.
  intros Hm w _. specialize (Hm w).
  destruct (m w) as [a w1|e w1|]; [| |done].
  - destruct Hm as [-> Ha]. split; [apply Base_refl | done].
  - rewrite Hm. apply Base_refl.
Qed.

Lemma frames_for_each {A} (l : list A) (body : A → M unit) :
  (∀ x, frames (λ _, True) (body x)) →
  frames (λ _, True) (for_each l body).
Proof.
  intros Hb. induction l as [|x l IH]; simpl.
  - by apply frames_ret.
  - eapply frames_bind; [apply Hb|]. intros _ _. apply IH.
Qed.

Lemma frames_emit e : frames (λ _, True) (emit e).
Proof. apply frames_same. by intros w. Qed.

Lemma frames_pre_update_handler d sender c :
  frames (λ _, True) (pre_update_handler d sender c).
Proof. apply frames_same. intros w. by rewrite pre_update_handler_eq. Qed.

Lemma frames_self_save_handler d sender i :
  fieldname d ∈ N →
  frames (λ i', same_base N i' i) (self_save_handler d sender i).
Proof.
  intros Hd. apply frames_same. intros w. rewrite self_save_handler_eq.
  case_decide; (split; [done|]); [apply same_base_refl|].
  by apply same_base_setattr.
Qed.

Section BodyFrames.

Variable save_rec : instance → M instance.
Hypothesis save_rec_frames :
  ∀ i w, WellKeyed w →
    match save_rec i w with
    | Ok _ w' => Base N (db_put (db w) i) (db w')
    | Raise _ w' =>
        Base N (db w) (db w') ∨ Base N (db_put (db w) i) (db w')
    | OutOfFuel => True
    end.

(** One row of the loop, for a row the table has up to [N]. *)
Lemma frames_update_one d i w :
  fieldname d ∈ N → WellKeyed w →
  (∃ r, r ∈ db w ∧ same_base N i r) →
  match update_one save_rec d i w with
  | Ok _ w' => Base N (db w) (db w')
  | Raise _ w' => Base N (db w) (db w')
  | OutOfFuel => True
  end.
Proof.
  intros Hd Hw (r & Hr & Hir).
  destruct (decide (pk i ∈ updating_of w d)) as [Hin|Hout].
  { rewrite update_one_in_flight by done. apply Base_refl. }
  destruct (attrs i !! fieldname d) as [old|] eqn:Hold.
  2:{ unfold update_one. rewrite bind_eq. unfold get_updating.
      rewrite decide_False by done. rewrite !bind_eq. unfold get_db, emit.
      cbv beta iota. rewrite bind_eq. unfold getattr. rewrite Hold.
      apply Base_refl. }
  destruct (decide (old = func d (db w) i)) as [->|Hne].
  { rewrite update_one_unchanged by done. case_decide; apply Base_refl. }
  rewrite (update_one_changed _ _ _ _ old) by done.
  set (w1 := emitted (EvFunc (did d) (pk i)) w).
  set (i' := setattr i (fieldname d) (func d (db w) i)).
  rewrite bind_eq, updating_add_eq. cbv beta iota. rewrite bind_eq.
  pose proof (save_rec_frames i' (added d (pk i) w1) Hw) as Hs.
  assert (Hput : Base N (db_put (db w) i') (db w)).
  { apply (db_put_existing N _ r); [done..|].
    eapply same_base_trans; [by apply same_base_setattr | done]. }
  destruct (save_rec i' (added d (pk i) w1)) as [i2 w4|e w4|]; [| |done].
  - assert (Hb : Base N (db w) (db w4)).
    { eapply Base_trans; [apply Base_sym, Hput | apply Hs]. }
    unfold updating_remove. rewrite bind_eq. unfold get_updating.
    case_decide; done.
  - destruct Hs as [Hs|Hs]; [done|].
    eapply Base_trans; [apply Base_sym, Hput | apply Hs].
Qed.

Lemma frames_rows d l w :
  fieldname d ∈ N → WellKeyed w →
  (∀ i, i ∈ l → ∃ r, r ∈ db w ∧ same_base N i r) →
  match for_each l (update_one save_rec d) w with
  | Ok _ w' => Base N (db w) (db w')
  | Raise _ w' => Base N (db w) (db w')
  | OutOfFuel => True
  end.
Proof.
  intros Hd. revert w. induction l as [|i l IH]; intros w Hw Hl; simpl.
  - apply Base_refl.
  - rewrite bind_eq.
    pose proof (frames_update_one d i w Hd Hw (Hl i (list_elem_of_here _ _)))
      as H1.
    destruct (update_one save_rec d i w) as [[] w1|e w1|]; [|done..].
    assert (Hw1 : WellKeyed w1) by by eapply WellKeyed_Base.
    assert (Hl1 : ∀ j, j ∈ l → ∃ r, r ∈ db w1 ∧ same_base N j r).
    { intros j Hj. destruct (Hl j) as (r & Hr & Hjr); [by right|].
      destruct (Base_elem _ _ _ r H1 Hr) as (r' & Hr' & Hrr').
      exists r'. split; [done|]. by eapply same_base_trans. }
    specialize (IH w1 Hw1 Hl1).
    destruct (for_each l (update_one save_rec d) w1) as [[] w2|e w2|];
      [| |done]; by eapply Base_trans.
Qed.

Lemma frames_update d q :
  fieldname d ∈ N → frames (λ _, True) (update save_rec d q).
Proof.
  intros Hd w Hw. unfold update. rewrite bind_eq. unfold emit.
  cbv beta iota. rewrite bind_eq. unfold get_db. cbv beta iota.
  set (w1 := mkWorld (db w) (updating w) (qs w)
               (log w ++ [EvUpdate (did d) q])).
  pose proof (frames_rows d (eval (db w) (QDistinct q)) w1 Hd Hw) as Hf.
  destruct (for_each _ _ w1) as [[] w2|e w2|]; [| |done].
  - split; [|done]. apply Hf. intros i Hi. exists i.
    split; [by apply eval_elem_of in Hi | apply same_base_refl].
  - apply Hf. intros i Hi. exists i.
    split; [by apply eval_elem_of in Hi | apply same_base_refl].
Qed.

Lemma frames_resolve_all d c : frames (λ _, True) (resolve_all d c).
Proof.
  unfold resolve_all. apply frames_for_each. intros dep.
  apply frames_same. intros w. rewrite bind_eq. unfold get_qs.
  by destruct (qs_of w d).
Qed.

Lemma frames_post_update_handler d sender c :
  fieldname d ∈ N →
  frames (λ _, True) (post_update_handler save_rec d sender c).
Proof.
  intros Hd. unfold post_update_handler.
  apply (frames_bind (λ _, True)).
  { apply frames_same. by intros w. }
  intros has _. apply (frames_bind (λ _, True)).
  { destruct has; [by apply frames_ret | apply frames_same; by intros w]. }
  intros _ _. apply (frames_bind (λ _, True)); [apply frames_resolve_all|].
  intros _ _. apply (frames_bind (λ _, True)).
  { apply frames_same. intros w. unfold get_qs. by destruct (qs_of w d). }
  intros q _. apply (frames_bind (λ _, True)); [by apply frames_update|].
  intros _ _. apply frames_same. intros w. rewrite bind_eq.
  unfold get_updating. case_decide; [|done]. unfold del_qs.
  by destruct (qs_of w d).
Qed.

Lemma frames_call_receiver r sender a :
  fieldname (r_denorm r) ∈ N →
  frames (same_arg N a) (call_receiver save_rec r sender a).
Proof.
  intros Hd. unfold call_receiver, pre_handler, post_handler,
    self_update_handler.
  assert (Hrefl : same_arg N a a)
    by (destruct a; [apply same_base_refl | done]).
  destruct (r_handler r), a as [i|q]; try apply frames_raise.
  - eapply frames_bind; [apply frames_pre_update_handler|].
    intros _ _. by apply frames_ret.
  - eapply frames_bind; [by apply frames_post_update_handler|].
    intros _ _. by apply frames_ret.
  - eapply frames_bind; [apply frames_pre_update_handler|].
    intros _ _. by apply frames_ret.
  - eapply frames_bind; [by apply frames_post_update_handler|].
    intros _ _. by apply frames_ret.
  - eapply frames_bind; [by apply frames_update|].
    intros _ _. by apply frames_ret.
  - eapply frames_bind; [by apply frames_self_save_handler|].
    intros i' Hi'. by apply frames_ret.
Qed.

Lemma same_arg_trans a b c :
  same_arg N a b → same_arg N b c → same_arg N a c.
Proof.
  destruct a, b, c; simpl; try done. intros H1 H2.
  by eapply same_base_trans.
Qed.

Lemma frames_call_receivers rs sender a :
  Forall (λ r, fieldname (r_denorm r) ∈ N) rs →
  frames (same_arg N a) (call_receivers save_rec rs sender a).
Proof.
  intros Hrs. revert a. induction Hrs as [|r rs Hr _ IH]; intros a; simpl.
  - apply frames_ret. destruct a; [apply same_base_refl | done].
  - eapply frames_bind; [by apply frames_call_receiver|].
    intros a' Ha'. eapply frames_weaken; [|apply IH].
    intros a''. by apply same_arg_trans.
Qed.

Lemma frames_send_instance s i :
  frames (λ i', same_base N i' i) (send_instance sigs save_rec s i).
Proof.
  unfold send_instance, send. eapply frames_bind.
  - eapply frames_bind; [apply frames_emit|]. intros _ _.
    apply frames_call_receivers. apply Forall_forall. intros r Hr.
    apply list_elem_of_filter in Hr as [_ Hr]. by eapply N_covers.
  - intros [i'|q] Ha; [|done]. by apply frames_ret.
Qed.

(** [save]: the table afterwards is the table with the instance put in,
    up to [N]; when it raises, the instance may not have been written. *)
Lemma frames_save_body i w :
  WellKeyed w →
  match save_body write_ok sigs save_rec i w with
  | Ok _ w' => Base N (db_put (db w) i) (db w')
  | Raise _ w' => Base N (db w) (db w') ∨ Base N (db_put (db w) i) (db w')
  | OutOfFuel => True
  end.
Proof.
  intros Hw. unfold save_body. rewrite bind_eq. unfold emit. cbv beta iota.
  set (w1 := mkWorld (db w) (updating w) (qs w)
               (log w ++ [EvSave (inst_model i) (pk i)])).
  rewrite bind_eq.
  pose proof (frames_send_instance pre_save i w1 Hw) as Hpre.
  destruct (send_instance sigs save_rec pre_save i w1) as [i1 w2|e w2|];
    [|by left|done].
  destruct Hpre as [Hb2 Hi1].
  assert (Hw2 : WellKeyed w2) by by eapply WellKeyed_Base.
  rewrite bind_eq. unfold db_write. rewrite bind_eq. unfold get_db.
  cbv beta iota. destruct (write_ok (db w2) i1); [|by left].
  rewrite bind_eq. unfold put_db. cbv beta iota. unfold emit.
  cbn [db updating qs log].
  set (w3 := mkWorld (db_put (db w2) i1) (updating w2) (qs w2)
               (log w2 ++ [EvWrite i1])).
  assert (Hb3 : Base N (db_put (db w) i) (db w3)).
  { unfold w3. simpl. apply db_put_Base; [done | by apply same_base_sym]. }
  assert (Hw3 : WellKeyed w3) by (by apply NoDup_keys_db_put).
  pose proof (frames_send_instance post_save i1 w3 Hw3) as Hpost.
  destruct (send_instance sigs save_rec post_save i1 w3) as [i4 w4|e w4|];
    [| |done].
  - destruct Hpost as [Hb4 _]. by eapply Base_trans.
  - right. by eapply Base_trans.
Qed.

End BodyFrames.

Lemma frames_save fuel i w :
  WellKeyed w →
  match save write_ok sigs fuel i w with
  | Ok _ w' => Base N (db_put (db w) i) (db w')
  | Raise _ w' => Base N (db w) (db w') ∨ Base N (db_put (db w) i) (db w')
  | OutOfFuel => True
  end.
Proof.
  revert i w. induction fuel as [|fuel IH]; intros i w Hw; simpl; [done|].
  by apply frames_save_body.
Qed.

End Frames.

Lemma field_names_cover sigs s r :
  r ∈ sigs s → fieldname (r_denorm r) ∈ field_names sigs.
Proof.
  intros Hr. unfold field_names. apply list_elem_of_fmap_2.
  by eapply rules_of_elem.
Qed.

(** X3: recomputation leaves the data it computes from alone.  From a
    table without a key twice, [update] and [rebuildall], with every
    cascade they set off and however they end, leave every row in place
    (same rows, same order) and change no attribute other than the fields
    of the rules involved. *)
Theorem update_keeps_base_data write_ok sigs fuel :
  (∀ d q w w',
     WellKeyed w →
     final (update (save write_ok sigs fuel) d q w) = Some w' →
     Base (fieldname d :: field_names sigs) (db w) (db w')
     ∧ keys (db w') = keys (db w))
  ∧ (∀ ds w w',
       WellKeyed w →
       final (rebuildall write_ok sigs fuel ds w) = Some w' →
       Base ((fieldname <$> ds) ++ field_names sigs) (db w) (db w')
       ∧ keys (db w') = keys (db w)).
Proof.
  split.
  - intros d q w w' Hw Hf.
    set (N := fieldname d :: field_names sigs).
    assert (HN : ∀ s r, r ∈ sigs s → fieldname (r_denorm r) ∈ N).
    { intros s r Hr. right. by eapply field_names_cover. }
    pose proof (frames_update N (save write_ok sigs fuel)
                  (frames_save write_ok sigs N HN fuel) d q
                  (list_elem_of_here _ _) w Hw) as Hb.
    destruct (update _ d q w) as [[] w1|e w1|]; simplify_eq/=.
    + destruct Hb as [Hb _]. split; [done|]. symmetry. by eapply Base_keys.
    + split; [done|]. symmetry. by eapply Base_keys.
  - intros ds w w' Hw Hf.
    set (N := (fieldname <$> ds) ++ field_names sigs).
    assert (HN : ∀ s r, r ∈ sigs s → fieldname (r_denorm r) ∈ N).
    { intros s r Hr. apply elem_of_app. right. by eapply field_names_cover. }
    assert (Hall : ∀ l, l ⊆ ds →
              frames N (λ _, True)
                (for_each l (λ d, update (save write_ok sigs fuel) d
                                    (QAll (model d))))).
    { induction l as [|d l IH]; intros Hl; simpl.
      - by apply frames_ret.
      - eapply frames_bind.
        + apply frames_update; [apply frames_save, HN|].
          apply elem_of_app. left. apply list_elem_of_fmap_2. set_solver.
        + intros _ _. apply IH. set_solver. }
    specialize (Hall ds (reflexivity _) w Hw). unfold rebuildall in Hf.
    destruct (for_each ds _ w) as [[] w1|e w1|]; simplify_eq/=.
    + destruct Hall as [Hb _]. split; [done|]. symmetry. by eapply Base_keys.
    + split; [done|]. symmetry. by eapply Base_keys.
Qed.

(** X4: a save and the cascade it sets off.  From a table without a key
    twice, when [save] returns the table is the one with the saved
    instance put in its place (or appended, when its key is new), up to
    the fields of the rules; when it raises, the table is that one or,
    if the write did not happen, the one before, up to the same fields.
    No other row is added or dropped. *)
Theorem save_keeps_base_data write_ok sigs fuel i w :
  WellKeyed w →
  match save write_ok sigs fuel i w with
  | Ok _ w' =>
      Base (field_names sigs) (db_put (db w) i) (db w')
      ∧ keys (db w') = keys (db_put (db w) i)
  | Raise _ w' =>
      Base (field_names sigs) (db w) (db w')
      ∨ Base (field_names sigs) (db_put (db w) i) (db w')
  | OutOfFuel => True
  end.
Proof.
  intros Hw.
  pose proof (frames_save write_ok sigs (field_names sigs)
                (field_names_cover sigs) fuel i w Hw) as Hb.
  destruct (save write_ok sigs fuel i w) as [i' w'|e w'|]; [|done..].
  split; [done|]. symmetry. by eapply Base_keys.
Qed.

(** X3 at work: rebuilding the order rule over the loaded rows. *)
Lemma update_keeps_base_data_witness :
  WellKeyed fresh
  ∧ ∃ w', final (rebuildall accept order_signals 5 [order_rule] fresh)
          = Some w'
      ∧ keys (db w') = keys (db fresh).
Proof.
  assert (Hw : WellKeyed fresh)
    by (unfold WellKeyed; apply (bool_decide_unpack _); vm_compute; exact I).
  split; [exact Hw|]. eexists. split; [vm_compute; reflexivity|].
  eapply proj2.
  apply (proj2 (update_keeps_base_data accept order_signals 5)
           [order_rule] fresh); [exact Hw|].
  vm_compute. reflexivity.
Defined.

(** X4 at work: moving the line item in the shop. *)
Lemma save_keeps_base_data_witness :
  WellKeyed start
  ∧ ∃ i w', save accept order_signals 7 moved_item start = Ok i w'
      ∧ keys (db w') = keys (db_put (db start) moved_item).
Proof.
  assert (Hw : WellKeyed start)
    by (unfold WellKeyed; apply (bool_decide_unpack _); vm_compute; exact I).
  split; [exact Hw|].
  pose proof (save_keeps_base_data accept order_signals 7 moved_item start Hw)
    as Hs.
  destruct (save accept order_signals 7 moved_item start) as [i w'|e w'|] eqn:He;
    [|vm_compute in He; discriminate He..].
  exists i, w'. split; [reflexivity | exact (proj2 Hs)].
Defined.

(** ** The exceptions a run can raise *)

(** The signals that send [instance=], and the handlers that take it. *)
Definition sends_instance (s : SignalName) : bool :=
  match s with
  | pre_update | post_update => false
  | _ => true
  end.

Definition takes_instance (h : Handler) : bool :=
  match h with
  | PreHandler | PostHandler | SelfSaveHandler => true
  | _ => false
  end.

(** Every receiver is connected to a signal that sends what it takes. *)
Definition well_typed (sg : Signals) : Prop :=
  ∀ s r, r ∈ sg s → takes_instance (r_handler r) = sends_instance s.

Lemma no_receivers_well_typed : well_typed no_receivers.
Proof. intros s r Hr. by apply elem_of_nil in Hr. Qed.

Lemma setup_well_typed d sg : well_typed sg → well_typed (setup d sg).
Proof.
  intros Hsg s r Hr. unfold setup, connect in Hr.
  destruct s; simpl in Hr;
    repeat (apply elem_of_app in Hr as [Hr| ->%list_elem_of_singleton];
            [|done]);
    by apply Hsg.
Qed.

Lemma setup_all_well_typed ds : well_typed (setup_all ds).
Proof.
  unfold setup_all.
  assert (H : ∀ sg, well_typed sg →
                well_typed (foldl (λ sg d, setup d sg) sg ds)).
  { induction ds as [|d ds IH]; intros sg Hsg; simpl; [done|].
    by apply IH, setup_well_typed. }
  apply H, no_receivers_well_typed.
Qed.

(** A row whose key is in flight keeps the rule's [qs] attribute through
    its window, so [update] never loses the attribute it was called
    with. *)
Lemma update_one_keeps_qs save_rec d i w w' :
  (∀ i, respects (save_rec i)) →
  is_Some (qs_of w d) →
  update_one save_rec d i w = Ok tt w' →
  is_Some (qs_of w' d).
Proof.
  intros Hsr Hq Hrun.
  destruct (decide (pk i ∈ updating_of w d)) as [Hin|Hout].
  { rewrite update_one_in_flight in Hrun by done. by injection Hrun as <-. }
  destruct (attrs i !! fieldname d) as [old|] eqn:Hold.
  2:{ unfold update_one in Hrun. rewrite bind_eq in Hrun.
      unfold get_updating in Hrun. rewrite decide_False in Hrun by done.
      rewrite !bind_eq in Hrun. unfold get_db, emit in Hrun.
      cbv beta iota in Hrun. rewrite bind_eq in Hrun.
      unfold getattr in Hrun. by rewrite Hold in Hrun. }
  destruct (decide (old = func d (db w) i)) as [->|Hne].
  { rewrite update_one_unchanged in Hrun by done.
    rewrite decide_False in Hrun by done. by injection Hrun as <-. }
  rewrite (update_one_changed _ _ _ _ old) in Hrun by done.
  rewrite bind_eq, updating_add_eq in Hrun. cbv beta iota in Hrun.
  rewrite bind_eq in Hrun.
  set (w1 := emitted (EvFunc (did d) (pk i)) w) in *.
  pose proof (Hsr (setattr i (fieldname d) (func d (db w) i))
                (added d (pk i) w1)) as Hb.
  destruct (save_rec _ (added d (pk i) w1)) as [i2 w4|e w4|]; [|done..].
  destruct Hb as (_ & _ & Hqs).
  assert (H4 : is_Some (qs_of w4 d)).
  { apply Hqs; [|done]. rewrite inflight_added, decide_True by done.
    set_solver. }
  unfold updating_remove in Hrun. rewrite bind_eq in Hrun.
  unfold get_updating in Hrun. case_decide; [|done].
  rewrite bind_eq in Hrun. unfold put_updating, emit in Hrun.
  cbv beta iota in Hrun. by injection Hrun as <-.
Qed.

Lemma update_keeps_qs save_rec d q w w' :
  (∀ i, respects (save_rec i)) →
  is_Some (qs_of w d) →
  update save_rec d q w = Ok tt w' →
  is_Some (qs_of w' d).
Proof.
  intros Hsr Hq Hrun. unfold update in Hrun. rewrite bind_eq in Hrun.
  unfold emit in Hrun. cbv beta iota in Hrun. rewrite bind_eq in Hrun.
  unfold get_db in Hrun. cbv beta iota in Hrun. cbn [db] in Hrun.
  set (w1 := mkWorld _ _ _ _) in Hrun.
  assert (Hq1 : is_Some (qs_of w1 d)) by done.
  clearbody w1. clear Hq.
  revert w1 Hq1 Hrun.
  induction (eval (db w) (QDistinct q)) as [|i l IH]; intros w1 Hq1 Hrun;
    simpl in Hrun.
  - by injection Hrun as <-.
  - rewrite bind_eq in Hrun.
    destruct (update_one save_rec d i w1) as [[] w2|e w2|] eqn:H1; [|done..].
    apply (IH w2); [|done]. by eapply update_one_keeps_qs.
Qed.

(** X5: [post_update_handler] does not fail at [del self.qs]: whenever
    the [update] it calls returns, the handler returns, with the
    attribute deleted if the [updating] set is empty and kept
    otherwise. *)
Theorem post_update_handler_del_is_safe write_ok sigs fuel d sender c w w2 :
  let q := impact d (db w) c (default (QNone (model d)) (qs_of w d)) in
  update (save write_ok sigs fuel) d q (with_qs d q w) = Ok tt w2 →
  post_update_handler (save write_ok sigs fuel) d sender c w
  = Ok tt (if decide (updating_of w2 d = ∅) then without_qs d w2 else w2).
Proof.
  intros q Hup. rewrite post_update_handler_eq. cbv zeta. fold q.
  rewrite bind_eq, Hup. cbv beta iota. rewrite bind_eq.
  unfold get_updating. cbv beta iota. case_decide; [|done].
  unfold del_qs.
  destruct (update_keeps_qs _ d q _ w2 (respects_save write_ok sigs fuel)
              (mk_is_Some _ _ (qs_of_with_qs d q w)) Hup) as [q2 ->].
  done.
Qed.

(** X5 at work: the post-phase of a line item's save. *)
Lemma post_update_handler_del_is_safe_witness :
  ∃ w', post_update_handler (save accept order_signals 5) order_rule
          "LineItem" (QPk "LineItem" 1) fresh = Ok tt w'
    ∧ qs_of w' order_rule = None.
Proof.
  eexists. split.
  - eapply (post_update_handler_del_is_safe accept order_signals 5 order_rule
              "LineItem" (QPk "LineItem" 1) fresh).
    vm_compute. reflexivity.
  - vm_compute. reflexivity.
Defined.

(** A queryset that only ever holds rows of model [m]. *)
Definition typed_qs (m : string) (q : QuerySet) : Prop :=
  ∀ rows i, i ∈ eval rows q → inst_model i = m.

Lemma typed_impact d rows c q0 :
  typed_qs (model d) q0 →
  (∀ dep rows' i, dep ∈ depend d → i ∈ eval rows' (resolve dep rows c) →
     inst_model i = model d) →
  typed_qs (model d) (impact d rows c q0).
Proof.
  intros Hq0 Hdeps rows' i. rewrite eval_impact.
  intros [Hi|Hi]%elem_of_app; [by eapply Hq0|].
  apply list_elem_of_In, in_concat in Hi as (l & Hl & Hi).
  apply in_map_iff in Hl as (dep & <- & Hdep).
  eapply Hdeps; apply list_elem_of_In; done.
Qed.

Section Safe.

Variable write_ok : list instance → instance → bool.
Variable sigs : Signals.
Variable ds : list Denorm.
Variable strict : bool.
Hypothesis sigs_typed : well_typed sigs.
Hypothesis sigs_rules : ∀ s r, r ∈ sigs s → r_denorm r ∈ ds.
Hypothesis ds_ids :
  strict = true →
  ∀ d d', d ∈ ds → d' ∈ ds → did d = did d' → model d = model d'.
Hypothesis resolvers_typed :
  strict = true →
  ∀ d dep rows c rows' i,
    d ∈ ds → dep ∈ depend d → i ∈ eval rows' (resolve dep rows c) →
    inst_model i = model d.

(** In the strict reading an instance carries the field of every rule of
    its model, and a stored [qs] only holds rows of the rule's model;
    otherwise nothing is asked. *)
Definition good (i : instance) : Prop :=
  strict = true →
  ∀ d, d ∈ ds → inst_model i = model d → is_Some (attrs i !! fieldname d).

Definition Good (w : World) : Prop :=
  Forall good (db w)
  ∧ (strict = true →
     ∀ d q, d ∈ ds → qs_of w d = Some q → typed_qs (model d) q).

(** The storage accepts every write. *)
Definition accepts : Prop := ∀ rows i, write_ok rows i = true.

(** The exceptions that can come out: a refused write, and, unless the
    reading is strict, a missing attribute. *)
Definition allowed (e : Exn) : Prop :=
  (e = DatabaseError ∧ ¬ accepts) ∨ (e = AttributeError ∧ strict = false).

Definition safe {A} (post : A → Prop) (m : M A) : Prop :=
  ∀ w, Good w →
    match m w with
    | Ok a w' => Good w' ∧ post a
    | Raise e _ => allowed e
    | OutOfFuel => True
    end.

Lemma safe_ret {A} (post : A → Prop) (a : A) : post a → safe post (mret a).
Proof. intros Ha w Hw. done. Qed.

Lemma safe_bind {A B} (post1 : A → Prop) (post2 : B → Prop)
    (m : M A) (f : A → M B) :
  safe post1 m → (∀ a, post1 a → safe post2 (f a)) → safe post2 (m ≫= f).
Proof.
  intros Hm Hf w Hw. rewrite bind_eq. specialize (Hm w Hw).
  destruct (m w) as [a w1|e w1|]; [|done..].
  destruct Hm as [Hw1 Ha]. by apply Hf.
Qed.

Lemma safe_weaken {A} (post post' : A → Prop) (m : M A) :
  (∀ a, post a → post' a) → safe post m → safe post' m.
Proof.
  intros Himp Hm w Hw. specialize (Hm w Hw).
  destruct (m w) as [a w1|e w1|]; [|done..]. naive_solver.
Qed.

(** A step that returns and leaves the stored rows and the [qs]
    attributes alone. *)
Lemma safe_same {A} (post : A → Prop) (m : M A) :
  (∀ w, Good w →
     ∃ a w', m w = Ok a w' ∧ db w' = db w ∧ qs w' = qs w ∧ post a) →
  safe post m.
Proof.
  intros Hm w Hw. destruct (Hm w Hw) as (a & w' & -> & Hdb & Hqs & Ha).
  split; [|done]. unfold Good, qs_of in *. by rewrite Hdb, Hqs.
Qed.

Lemma safe_for_each {A} (l : list A) (body : A → M unit) :
  (∀ x, x ∈ l → safe (λ _, True) (body x)) →
  safe (λ _, True) (for_each l body).
Proof.
  induction l as [|x l IH]; intros Hb; simpl.
  - by apply safe_ret.
  - eapply safe_bind; [apply Hb; apply list_elem_of_here|].
    intros _ _. apply IH. intros y Hy. apply Hb.
    by apply list_elem_of_further.
Qed.

Lemma safe_emit e : safe (λ _, True) (emit e).
Proof. apply safe_same. intros w _. by eexists _, _. Qed.

(** Storing a queryset of the rule's model keeps the worlds good. *)
Lemma Good_with_qs d q w :
  d ∈ ds → (strict = true → typed_qs (model d) q) →
  Good w → Good (with_qs d q w).
Proof.
  intros Hd Hq [Hrows Hqs]. split; [done|].
  intros Hs d' q' Hd' Hlook. unfold qs_of, with_qs in Hlook. simpl in Hlook.
  destruct (decide (did d = did d')) as [Heq|Hne].
  - rewrite Heq, lookup_insert_eq in Hlook. injection Hlook as <-.
    rewrite <- (ds_ids Hs d d' Hd Hd' Heq). by apply Hq.
  - rewrite lookup_insert_ne in Hlook by done. by eapply Hqs.
Qed.

Lemma Good_without_qs d w : Good w → Good (without_qs d w).
Proof.
  intros [Hrows Hqs]. split; [done|].
  intros Hs d' q' Hd' Hlook. unfold qs_of, without_qs in Hlook.
  simpl in Hlook. apply lookup_delete_Some in Hlook as [_ Hlook].
  by eapply Hqs.
Qed.

Lemma typed_QNone m : typed_qs m (QNone m).
Proof. intros rows i Hi. by apply elem_of_nil in Hi. Qed.

Lemma safe_pre_update_handler d sender c :
  d ∈ ds → safe (λ _, True) (pre_update_handler d sender c).
Proof.
  intros Hd w Hw. rewrite pre_update_handler_eq. split; [|done].
  apply Good_with_qs; [done| |done]. intros Hs.
  apply typed_impact; [apply typed_QNone|].
  intros dep rows' i Hdep Hi. by eapply resolvers_typed.
Qed.

Lemma good_setattr i a v : good i → good (setattr i a v).
Proof.
  intros Hi Hs d Hd Hm. simpl.
  destruct (decide (a = fieldname d)) as [->|Hne].
  - rewrite lookup_insert_eq. by eexists.
  - rewrite lookup_insert_ne by done. by apply Hi.
Qed.

Lemma safe_self_save_handler d sender i :
  good i →
  safe (λ i', good i' ∧ inst_model i' = inst_model i)
       (self_save_handler d sender i).
Proof.
  intros Hi. apply safe_same. intros w _. rewrite self_save_handler_eq.
  case_decide; eexists _, _; (split; [done|]); repeat split; try done.
  by apply good_setattr.
Qed.

Lemma Good_db_put rows i :
  good i → Forall good rows → Forall good (db_put rows i).
Proof.
  intros Hi. induction 1 as [|r rows Hr Hrows IH]; simpl.
  - by constructor.
  - case_decide; by constructor.
Qed.

Lemma safe_db_write i : good i → safe (λ _, True) (db_write write_ok i).
Proof.
  intros Hi w [Hrows Hqs]. unfold db_write. rewrite bind_eq. unfold get_db.
  cbv beta iota. destruct (write_ok (db w) i) eqn:Hok.
  - split; [|done]. split; [by apply Good_db_put | done].
  - left. split; [done|]. intros Hacc. by rewrite Hacc in Hok.
Qed.

Section BodySafe.

Variable save_rec : instance → M instance.
Hypothesis save_rec_respects : ∀ i, respects (save_rec i).
Hypothesis save_rec_safe : ∀ i, good i → safe (λ _, True) (save_rec i).

Lemma safe_update_one d i :
  d ∈ ds → good i → (strict = true → inst_model i = model d) →
  safe (λ _, True) (update_one save_rec d i).
Proof.
  intros Hd Hi Hm w Hw.
  destruct (decide (pk i ∈ updating_of w d)) as [Hin|Hout].
  { by rewrite update_one_in_flight. }
  destruct (attrs i !! fieldname d) as [old|] eqn:Hold.
  2:{ unfold update_one. rewrite bind_eq. unfold get_updating.
      rewrite decide_False by done. rewrite !bind_eq. unfold get_db, emit.
      cbv beta iota. rewrite bind_eq. unfold getattr. rewrite Hold.
      right. split; [done|]. destruct strict eqn:Hs; [|done].
      destruct (Hi Hs d Hd (Hm eq_refl)) as [v Hv]. congruence. }
  destruct (decide (old = func d (db w) i)) as [->|Hne].
  { rewrite update_one_unchanged by done. by rewrite decide_False. }
  rewrite (update_one_changed _ _ _ _ old) by done.
  set (w1 := emitted (EvFunc (did d) (pk i)) w).
  set (i' := setattr i (fieldname d) (func d (db w) i)).
  rewrite bind_eq, updating_add_eq. cbv beta iota. rewrite bind_eq.
  pose proof (save_rec_safe i' (good_setattr _ _ _ Hi) (added d (pk i) w1) Hw)
    as Hs.
  pose proof (save_rec_respects i' (added d (pk i) w1)) as Hb.
  destruct (save_rec i' (added d (pk i) w1)) as [i2 w4|e w4|]; [|done..].
  destruct Hb as (_ & Heq & _). destruct Hs as [Hw4 _].
  rewrite updating_remove_eq; [done|].
  unfold updating_of. rewrite Heq, inflight_added, decide_True by done.
  set_solver.
Qed.

Lemma safe_update d q :
  d ∈ ds → (strict = true → typed_qs (model d) q) →
  safe (λ _, True) (update save_rec d q).
Proof.
  intros Hd Hq w Hw. unfold update. rewrite bind_eq. unfold emit.
  cbv beta iota. rewrite bind_eq. unfold get_db. cbv beta iota. cbn [db].
  apply (safe_for_each (eval (db w) (QDistinct q)) (update_one save_rec d));
    [|done].
  intros i Hi. apply safe_update_one; [done| |].
  - apply eval_elem_of in Hi. destruct Hw as [Hrows _].
    rewrite Forall_forall in Hrows. by apply Hrows.
  - intros Hs. simpl in Hi. rewrite elem_of_remove_dups in Hi.
    by eapply Hq.
Qed.

Lemma safe_post_update_handler d sender c :
  d ∈ ds → safe (λ _, True) (post_update_handler save_rec d sender c).
Proof.
  intros Hd w Hw. rewrite post_update_handler_eq. cbv zeta.
  set (q := impact d (db w) c (default (QNone (model d)) (qs_of w d))).
  assert (Hq : strict = true → typed_qs (model d) q).
  { intros Hs. apply typed_impact.
    - destruct (qs_of w d) as [q0|] eqn:Hq0; simpl; [|apply typed_QNone].
      destruct Hw as [_ Hqs]. by eapply Hqs.
    - intros dep rows' i Hdep Hi. by eapply resolvers_typed. }
  rewrite bind_eq.
  pose proof (safe_update d q Hd Hq (with_qs d q w)
                (Good_with_qs d q w Hd Hq Hw)) as Hu.
  destruct (update save_rec d q (with_qs d q w)) as [[] w2|e w2|] eqn:Hup;
    [|done..].
  destruct Hu as [Hw2 _]. rewrite bind_eq. unfold get_updating.
  cbv beta iota. case_decide; [|done]. unfold del_qs.
  destruct (update_keeps_qs _ d q _ w2 save_rec_respects
              (mk_is_Some _ _ (qs_of_with_qs d q w)) Hup) as [q2 ->].
  split; [|done]. by apply Good_without_qs.
Qed.

(** The receivers of a signal that sends an instance. *)
Lemma safe_call_receiver r sender i :
  takes_instance (r_handler r) = true → r_denorm r ∈ ds → good i →
  safe (λ a', ∃ i', a' = AInst i' ∧ good i' ∧ inst_model i' = inst_model i)
       (call_receiver save_rec r sender (AInst i)).
Proof.
  intros Ht Hd Hi. unfold call_receiver, pre_handler, post_handler.
  destruct (r_handler r); try done.
  - eapply safe_bind; [by apply safe_pre_update_handler|].
    intros _ _. apply safe_ret. by exists i.
  - eapply safe_bind; [by apply safe_post_update_handler|].
    intros _ _. apply safe_ret. by exists i.
  - eapply safe_bind; [by apply safe_self_save_handler|].
    intros i' [Hi' Hm]. apply safe_ret. by exists i'.
Qed.

Lemma safe_call_receivers rs sender i :
  Forall (λ r, takes_instance (r_handler r) = true ∧ r_denorm r ∈ ds) rs →
  good i →
  safe (λ a', ∃ i', a' = AInst i' ∧ good i' ∧ inst_model i' = inst_model i)
       (call_receivers save_rec rs sender (AInst i)).
Proof.
  intros Hrs. revert i. induction Hrs as [|r rs [Ht Hd] _ IH]; intros i Hi;
    simpl.
  - apply safe_ret. by exists i.
  - eapply safe_bind; [by apply safe_call_receiver|].
    intros a' (i' & -> & Hi' & Hm). eapply safe_weaken; [|by apply IH].
    intros a'' (i'' & -> & Hi'' & Hm''). exists i''.
    split; [done|]. split; [done | congruence].
Qed.

Lemma safe_send_instance s i :
  sends_instance s = true → good i →
  safe (λ i', good i' ∧ inst_model i' = inst_model i)
       (send_instance sigs save_rec s i).
Proof.
  intros Hs Hi. unfold send_instance, send.
  eapply safe_bind.
  - eapply safe_bind; [apply safe_emit|]. intros _ _.
    apply safe_call_receivers; [|done].
    apply Forall_forall. intros r Hr.
    apply list_elem_of_filter in Hr as [_ Hr]. split.
    + rewrite <- Hs. by apply sigs_typed.
    + by eapply sigs_rules.
  - intros a' (i' & -> & Hi' & Hm). by apply safe_ret.
Qed.

Lemma safe_save_body i :
  good i → safe (λ _, True) (save_body write_ok sigs save_rec i).
Proof.
  intros Hi. unfold save_body.
  eapply safe_bind; [apply safe_emit|]. intros _ _.
  eapply safe_bind; [by apply safe_send_instance|]. intros i' [Hi' _].
  eapply safe_bind; [by apply safe_db_write|]. intros _ _.
  eapply safe_weaken; [|by apply safe_send_instance]. done.
Qed.

End BodySafe.

Lemma safe_save fuel i :
  good i → safe (λ _, True) (save write_ok sigs fuel i).
Proof.
  revert i. induction fuel as [|fuel IH]; intros i Hi; simpl.
  - by intros w _.
  - apply safe_save_body; [apply respects_save | apply IH | done].
Qed.

End Safe.

(** The receivers [setup_all] connects belong to the rules set up. *)
Lemma setup_rules d sg s r :
  r ∈ setup d sg s → r ∈ sg s ∨ r_denorm r = d.
Proof.
  intros Hr. unfold setup, connect in Hr.
  destruct s; simpl in Hr;
    repeat (apply elem_of_app in Hr as [Hr| ->%list_elem_of_singleton];
            [|by right]);
    by left.
Qed.

Lemma setup_all_rules ds s r : r ∈ setup_all ds s → r_denorm r ∈ ds.
Proof.
  unfold setup_all.
  assert (H : ∀ sg, r ∈ foldl (λ sg d, setup d sg) sg ds s →
                r ∈ sg s ∨ r_denorm r ∈ ds).
  { induction ds as [|d ds IH]; intros sg Hr; simpl in Hr; [by left|].
    destruct (IH _ Hr) as [Hr'|Hr']; [|right; by right].
    destruct (setup_rules _ _ _ _ Hr') as [?| ->]; [by left|].
    right. apply list_elem_of_here. }
  intros Hr. destruct (H _ Hr) as [Hn|?]; [|done].
  by apply elem_of_nil in Hn.
Qed.


(** The two rules of the shop. *)
Definition shop_rules : list Denorm := [customer_rule; order_rule].

Lemma shop_rules_cases (Φ : Denorm → Prop) d :
  d ∈ shop_rules → Φ customer_rule → Φ order_rule → Φ d.
Proof.
  intros Hd Hc Ho. unfold shop_rules in Hd.
  apply elem_of_cons in Hd as [->|Hd]; [done|].
  apply list_elem_of_singleton in Hd as ->. done.
Qed.


(** ** The receivers after every [setup] *)

Lemma live_receivers_foldl ds sg s sender :
  live_receivers (foldl (λ sg d, setup d sg) sg ds) s sender
  = live_receivers sg s sender ++ (ds ≫= λ d, own_receivers d s sender).
Proof.
  revert sg. induction ds as [|d ds IH]; intros sg; simpl.
  - by rewrite app_nil_r.
  - rewrite IH, live_receivers_setup. by rewrite <- app_assoc.
Qed.

(** X8: after the rules were set up one after the other, a signal calls
    the rules' receivers in the order of the rules: for each rule its
    pre or post handler and then, for the rule's own model, its
    [self_save_handler] (on [pre_save]) or [self_update_handler] (on
    [post_update]). *)
Theorem setup_all_receivers ds s sender :
  live_receivers (setup_all ds) s sender
  = ds ≫= λ d, own_receivers d s sender.
Proof. unfold setup_all. by rewrite live_receivers_foldl. Qed.

(** ** A row without the field *)

(** X9: when the first row [update] examines is not in flight and has
    no attribute of the rule's field name, [update] raises
    [AttributeError] right after the call of [func] on that row: nothing
    is written, no key is added, and the rows after it are not
    examined, whatever [save] would do. *)
Theorem update_missing_field save_rec d q w i rest :
  eval (db w) (QDistinct q) = i :: rest →
  pk i ∉ updating_of w d →
  attrs i !! fieldname d = None →
  update save_rec d q w
  = Raise AttributeError
      (emitted (EvFunc (did d) (pk i)) (emitted (EvUpdate (did d) q) w)).
Proof.
  intros Hrows Hout Hnone. unfold update. rewrite bind_eq.
  change (emit ?e w) with (Ok tt (emitted e w)). cbv beta iota.
  rewrite bind_eq. unfold get_db. cbv beta iota.
  change (db (emitted (EvUpdate (did d) q) w)) with (db w).
  rewrite Hrows. simpl. rewrite bind_eq. unfold update_one.
  rewrite bind_eq. unfold get_updating. cbv beta iota.
  change (updating_of (emitted (EvUpdate (did d) q) w) d)
    with (updating_of w d).
  rewrite decide_False by done. rewrite !bind_eq. unfold get_db, emit.
  cbv beta iota. rewrite bind_eq. unfold getattr. by rewrite Hnone.
Qed.

(** X9 at work: the order rule run over the line items, which have no
    [itemCount]. *)
Lemma update_missing_field_witness :
  update (save accept order_signals 5) order_rule (QAll "LineItem") fresh
  = Raise AttributeError
      (emitted (EvFunc 1 1) (emitted (EvUpdate 1 (QAll "LineItem")) fresh)).
Proof.
  apply (update_missing_field _ order_rule (QAll "LineItem") fresh
           (row "LineItem" 1 [("order", 1)]) []).
  - vm_compute. reflexivity.
  - vm_compute. intros H. discriminate H.
  - vm_compute. reflexivity.
Defined.

(** ** No impact set is left behind by a save *)

(** The [post_save] receivers of the rules [l]. *)
Definition post_receivers (l : list Denorm) : list Receiver :=
  l ≫= λ d, [mkReceiver PostHandler d None].

Lemma post_save_receivers ds sender :
  live_receivers (setup_all ds) post_save sender = post_receivers ds.
Proof. unfold setup_all. by rewrite live_receivers_foldl. Qed.

Section Tidy.

Variable write_ok : list instance → instance → bool.
Variable ds : list Denorm.

Section BodyTidy.

Variable save_rec : instance → M instance.
Hypothesis save_rec_respects : ∀ i, respects (save_rec i).
Hypothesis save_rec_tidy :
  ∀ i w i' w', save_rec i w = Ok i' w' →
    ∀ d, d ∈ ds → updating_of w d = ∅ → qs_of w' d = None.

(** Another rule's idle [qs] stays absent through one row. *)
Lemma update_one_tidy d i w w' d' :
  update_one save_rec d i w = Ok tt w' →
  d' ∈ ds → did d' ≠ did d → updating_of w d' = ∅ →
  qs_of w d' = None → qs_of w' d' = None.
Proof.
  intros Hrun Hd' Hne Hidle Hnone.
  destruct (decide (pk i ∈ updating_of w d)) as [Hin|Hout].
  { rewrite update_one_in_flight in Hrun by done. by injection Hrun as <-. }
  destruct (attrs i !! fieldname d) as [old|] eqn:Hold.
  2:{ unfold update_one in Hrun. rewrite bind_eq in Hrun.
      unfold get_updating in Hrun. rewrite decide_False in Hrun by done.
      rewrite !bind_eq in Hrun. unfold get_db, emit in Hrun.
      cbv beta iota in Hrun. rewrite bind_eq in Hrun.
      unfold getattr in Hrun. by rewrite Hold in Hrun. }
  destruct (decide (old = func d (db w) i)) as [->|Hneq].
  { rewrite update_one_unchanged in Hrun by done.
    rewrite decide_False in Hrun by done. by injection Hrun as <-. }
  rewrite (update_one_changed _ _ _ _ old) in Hrun by done.
  rewrite bind_eq, updating_add_eq in Hrun. cbv beta iota in Hrun.
  rewrite bind_eq in Hrun.
  set (w1 := emitted (EvFunc (did d) (pk i)) w) in *.
  destruct (save_rec _ (added d (pk i) w1)) as [i2 w4|e w4|] eqn:Hs;
    [|done..].
  assert (H4 : qs_of w4 d' = None).
  { apply (save_rec_tidy _ _ _ _ Hs d' Hd').
    unfold updating_of. rewrite inflight_added, decide_False by done.
    done. }
  unfold updating_remove in Hrun. rewrite bind_eq in Hrun.
  unfold get_updating in Hrun. case_decide; [|done].
  rewrite bind_eq in Hrun. unfold put_updating, emit in Hrun.
  cbv beta iota in Hrun. by injection Hrun as <-.
Qed.

Lemma rows_tidy d l w w' d' :
  for_each l (update_one save_rec d) w = Ok tt w' →
  d' ∈ ds → did d' ≠ did d → updating_of w d' = ∅ →
  qs_of w d' = None → qs_of w' d' = None.
Proof.
  intros Hrun Hd' Hne. revert w Hrun.
  induction l as [|i l IH]; intros w Hrun Hidle Hnone; simpl in Hrun.
  - by injection Hrun as <-.
  - rewrite bind_eq in Hrun.
    pose proof (respects_update_one save_rec save_rec_respects d i w) as Hb.
    destruct (update_one save_rec d i w) as [[] w1|e w1|] eqn:H1; [|done..].
    destruct Hb as (_ & Heq & _).
    apply (IH w1); [done| |].
    + unfold updating_of. by rewrite Heq.
    + by eapply update_one_tidy.
Qed.

Lemma post_update_handler_tidy_other d sender c w w' d' :
  post_update_handler save_rec d sender c w = Ok tt w' →
  d' ∈ ds → did d' ≠ did d → updating_of w d' = ∅ →
  qs_of w d' = None → qs_of w' d' = None.
Proof.
  intros Hrun Hd' Hne Hidle Hnone.
  rewrite post_update_handler_eq in Hrun. cbv zeta in Hrun.
  set (q := impact d (db w) c (default (QNone (model d)) (qs_of w d))) in *.
  rewrite bind_eq in Hrun. unfold update in Hrun. rewrite bind_eq in Hrun.
  unfold emit in Hrun. cbv beta iota in Hrun. rewrite bind_eq in Hrun.
  unfold get_db in Hrun. cbv beta iota in Hrun.
  match type of Hrun with
  | context [for_each ?l ?b ?w0] =>
      destruct (for_each l b w0) as [[] w2|e w2|] eqn:Hrows; [|done..];
      assert (H2 : qs_of w2 d' = None)
  end.
  { eapply rows_tidy; [exact Hrows|done..|].
    unfold qs_of, with_qs. simpl. by rewrite lookup_insert_ne. }
  rewrite bind_eq in Hrun. unfold get_updating in Hrun.
  cbv beta iota in Hrun. case_decide; [|by injection Hrun as <-].
  unfold del_qs in Hrun. destruct (qs_of w2 d); [|done].
  injection Hrun as <-. unfold qs_of. simpl.
  rewrite lookup_delete_ne by done. done.
Qed.

Lemma post_update_handler_tidy_own d sender c w w' :
  post_update_handler save_rec d sender c w = Ok tt w' →
  updating_of w d = ∅ → qs_of w' d = None.
Proof.
  intros Hrun Hidle.
  rewrite post_update_handler_eq in Hrun. cbv zeta in Hrun.
  set (q := impact d (db w) c (default (QNone (model d)) (qs_of w d))) in *.
  rewrite bind_eq in Hrun.
  pose proof (respects_update save_rec save_rec_respects d q (with_qs d q w))
    as Hb.
  destruct (update save_rec d q (with_qs d q w)) as [[] w2|e w2|]; [|done..].
  destruct Hb as (_ & Heq & _).
  rewrite bind_eq in Hrun. unfold get_updating in Hrun.
  cbv beta iota in Hrun.
  assert (H2 : updating_of w2 d = ∅).
  { unfold updating_of. rewrite Heq. exact Hidle. }
  rewrite decide_True in Hrun by done.
  unfold del_qs in Hrun. destruct (qs_of w2 d); [|done].
  injection Hrun as <-. unfold qs_of. simpl. apply lookup_delete_eq.
Qed.

(** The [post_save] receivers in turn: every idle rule of [ds] that is
    among them, or had no [qs], has none afterwards. *)
Lemma post_dispatch_tidy l sender i w a' w' :
  call_receivers save_rec (post_receivers l) sender (AInst i) w = Ok a' w' →
  ∀ d, d ∈ ds → updating_of w d = ∅ →
    (∃ dj, dj ∈ l ∧ did dj = did d) ∨ qs_of w d = None →
    qs_of w' d = None.
Proof.
  revert w. induction l as [|dj l IH]; intros w Hrun d Hd Hidle Hcase.
  - simpl in Hrun. injection Hrun as _ <-.
    destruct Hcase as [(dj & Hdj & _)|?]; [by apply elem_of_nil in Hdj|done].
  - change (post_receivers (dj :: l))
      with (mkReceiver PostHandler dj None :: post_receivers l) in Hrun.
    simpl in Hrun. rewrite bind_eq in Hrun.
    unfold call_receiver in Hrun at 1. simpl in Hrun.
    rewrite bind_eq in Hrun. unfold post_handler in Hrun.
    pose proof (respects_post_update_handler save_rec save_rec_respects
                  dj sender (QPk sender (pk i)) w) as Hb.
    destruct (post_update_handler save_rec dj sender (QPk sender (pk i)) w)
      as [[] w1|e w1|] eqn:Hpost; [|done..].
    destruct Hb as (_ & Heq & _).
    change ((mret (AInst i) : M Arg) w1) with (Ok (AInst i) w1) in Hrun.
    cbv beta iota in Hrun.
    apply (IH w1 Hrun d Hd).
    + unfold updating_of. by rewrite Heq.
    + destruct (decide (did dj = did d)) as [Hsame|Hdiff].
      * right. pose proof (post_update_handler_tidy_own _ _ _ _ _ Hpost)
          as Hown.
        unfold qs_of, updating_of in *. rewrite <- Hsame. apply Hown.
        by rewrite Hsame.
      * destruct Hcase as [(dk & Hdk & Hk)|Hnone].
        -- left. exists dk. split; [|done].
           apply elem_of_cons in Hdk as [->|?]; [done|done].
        -- right. eapply post_update_handler_tidy_other; [exact Hpost|..];
             done.
Qed.

Lemma save_body_tidy i w i' w' :
  save_body write_ok (setup_all ds) save_rec i w = Ok i' w' →
  ∀ d, d ∈ ds → updating_of w d = ∅ → qs_of w' d = None.
Proof.
  intros Hrun d Hd Hidle. unfold save_body in Hrun.
  rewrite bind_eq in Hrun. unfold emit in Hrun at 1.
  cbv beta iota in Hrun. rewrite bind_eq in Hrun.
  match type of Hrun with
  | context [send_instance ?sg ?sr pre_save i ?w0] =>
      pose proof (respects_send_instance sg sr save_rec_respects pre_save i w0)
        as Hpre;
      destruct (send_instance sg sr pre_save i w0) as [i1 w2|e w2|];
        [|done..]
  end.
  destruct Hpre as (_ & Heq2 & _).
  rewrite bind_eq in Hrun.
  pose proof (respects_db_write write_ok i1 w2) as Hwr.
  destruct (db_write write_ok i1 w2) as [[] w3|e w3|]; [|done..].
  destruct Hwr as (_ & Heq3 & _).
  unfold send_instance, send in Hrun. rewrite !bind_eq in Hrun.
  unfold emit in Hrun. cbv beta iota in Hrun.
  rewrite post_save_receivers in Hrun.
  match type of Hrun with
  | context [call_receivers ?sr ?rs ?sender ?a ?w0] =>
      destruct (call_receivers sr rs sender a w0) as [a4 w4|e w4|] eqn:Hpost;
        [|done..]
  end.
  assert (H4 : qs_of w4 d = None).
  { eapply post_dispatch_tidy; [exact Hpost|done| |].
    - unfold updating_of in *. simpl.
      change (inflight (mkWorld (db w3) (updating w3) (qs w3)
                          (log w3 ++ [EvSend post_save (inst_model i1)]))
                (did d)) with (inflight w3 (did d)).
      rewrite Heq3, Heq2. exact Hidle.
    - left. by exists d. }
  destruct a4; by injection Hrun as _ <-.
Qed.

End BodyTidy.

Lemma save_tidy fuel i w i' w' :
  save write_ok (setup_all ds) fuel i w = Ok i' w' →
  ∀ d, d ∈ ds → updating_of w d = ∅ → qs_of w' d = None.
Proof.
  revert i w i' w'. induction fuel as [|fuel IH]; intros i w i' w' Hrun;
    simpl in Hrun; [done|].
  eapply save_body_tidy; [apply respects_save | exact IH | exact Hrun].
Qed.

End Tidy.

(** X10: a save leaves no impact set behind.  With the receivers [setup]
    connects, when [save] returns, every rule that had no key in flight
    when the save began has no [qs] attribute: what the pre-phase stored
    was deleted by the post-phase, also in the rules the cascade went
    through. *)
Theorem save_leaves_no_qs write_ok ds fuel i w i' w' d :
  save write_ok (setup_all ds) fuel i w = Ok i' w' →
  d ∈ ds → updating_of w d = ∅ →
  qs_of w' d = None.
Proof. intros Hrun Hd Hidle. by eapply save_tidy. Qed.

(** X10 at work: moving the line item in the shop, both rules set up. *)
Lemma save_leaves_no_qs_witness :
  ∃ i' w', save accept (setup_all shop_rules) 13 moved_item start = Ok i' w'
    ∧ qs_of w' order_rule = None.
Proof.
  eexists _, _. split; [vm_compute; reflexivity|].
  eapply (save_leaves_no_qs accept shop_rules 13 moved_item start).
  - vm_compute. reflexivity.
  - unfold shop_rules. apply list_elem_of_further, list_elem_of_here.
  - vm_compute. reflexivity.
Defined.

(** ** Rules without dependencies *)

(** The rule's [qs], if it has one, is an empty queryset. *)
Definition NoneQ (w : World) (d : Denorm) : Prop :=
  ∀ q, qs_of w d = Some q → ∃ m, q = QNone m.

Lemma impact_nodeps d rows c q0 : depend d = [] → impact d rows c q0 = q0.
Proof. intros Hd. unfold impact. by rewrite Hd. Qed.

Lemma pre_save_receivers ds sender :
  live_receivers (setup_all ds) pre_save sender
  = ds ≫= λ d, own_receivers d pre_save sender.
Proof. unfold setup_all. by rewrite live_receivers_foldl. Qed.

Section NoDeps.

Variable write_ok : list instance → instance → bool.
Variable ds : list Denorm.
Variable save_rec : instance → M instance.
Hypothesis nodeps : ∀ d, d ∈ ds → depend d = [].

(** The [pre_save] receivers of the rules [l] in turn: the stored rows
    and the [updating] sets stay, and every rule among them ends with an
    empty queryset in [qs]. *)
Lemma pre_dispatch_nodeps l sender i w :
  l ⊆ ds →
  ∃ i1 w1,
    call_receivers save_rec (l ≫= λ d, own_receivers d pre_save sender)
                   sender (AInst i) w = Ok (AInst i1) w1
    ∧ db w1 = db w ∧ updating w1 = updating w
    ∧ ∀ d, (∃ dj, dj ∈ l ∧ did dj = did d) ∨ NoneQ w d → NoneQ w1 d.
Proof.
  revert i w. induction l as [|dj l IH]; intros i w Hl.
  - exists i, w. split; [done|]. split; [done|]. split; [done|].
    intros d [(dj & Hdj & _)|?]; [by apply elem_of_nil in Hdj | done].
  - assert (Hdj : depend dj = []) by (apply nodeps, Hl, list_elem_of_here).
    assert (Hl' : l ⊆ ds) by set_solver.
    change ((dj :: l) ≫= λ d, own_receivers d pre_save sender)
      with (own_receivers dj pre_save sender
            ++ (l ≫= λ d, own_receivers d pre_save sender)).
    set (w1 := with_qs dj (QNone (model dj)) w).
    assert (Hpre : call_receiver save_rec (mkReceiver PreHandler dj None)
                     sender (AInst i) w = Ok (AInst i) w1).
    { unfold call_receiver. simpl. rewrite bind_eq. unfold pre_handler.
      rewrite pre_update_handler_eq. by rewrite impact_nodeps. }
    assert (Hq1 : ∀ d, (did dj = did d ∨ NoneQ w d) → NoneQ w1 d).
    { intros d Hcase q Hq. unfold qs_of, w1, with_qs in Hq. simpl in Hq.
      destruct (decide (did dj = did d)) as [Heq|Hne].
      - rewrite Heq, lookup_insert_eq in Hq. injection Hq as <-. by eexists.
      - rewrite lookup_insert_ne in Hq by done.
        destruct Hcase as [?|Hn]; [done|]. by apply Hn. }
    unfold own_receivers. case_decide as Hown; simpl.
    + rewrite bind_eq, Hpre. cbv beta iota. rewrite bind_eq.
      unfold call_receiver at 1. simpl. rewrite bind_eq.
      rewrite self_save_handler_eq.
      set (r := if decide (pk i ∈ updating_of w1 dj) then _ else _).
      assert (Hr : ∃ i2 w2, r = Ok i2 w2 ∧ db w2 = db w ∧ updating w2 = updating w
                     ∧ qs w2 = qs w1).
      { unfold r. case_decide; by eexists _, _. }
      destruct Hr as (i2 & w2 & -> & Hdb2 & Hu2 & Hqs2). cbv beta iota.
      change ((mret (AInst i2) : M Arg) w2) with (Ok (AInst i2) w2).
      cbv beta iota.
      destruct (IH i2 w2 Hl') as (i3 & w3 & Hrun & Hdb3 & Hu3 & Hq3).
      exists i3, w3. split; [done|]. split; [congruence|].
      split; [congruence|].
      intros d Hcase. apply Hq3.
      destruct Hcase as [(dk & Hdk & Hk)|Hn].
      * apply elem_of_cons in Hdk as [->|Hdk].
        -- right. intros q Hq. unfold qs_of in *. rewrite Hqs2 in Hq.
           by apply (Hq1 d (or_introl Hk)).
        -- left. by exists dk.
      * right. intros q Hq. unfold qs_of in *. rewrite Hqs2 in Hq.
        by apply (Hq1 d (or_intror Hn)).
    + rewrite bind_eq, Hpre. cbv beta iota.
      destruct (IH i w1 Hl') as (i3 & w3 & Hrun & Hdb3 & Hu3 & Hq3).
      exists i3, w3. split; [done|]. split; [done|]. split; [done|].
      intros d Hcase. apply Hq3.
      destruct Hcase as [(dk & Hdk & Hk)|Hn].
      * apply elem_of_cons in Hdk as [->|Hdk].
        -- right. by apply Hq1; left.
        -- left. by exists dk.
      * right. by apply Hq1; right.
Qed.

(** One [post_handler] of a rule whose [qs] is empty or missing: [update]
    runs over no row. *)
Lemma post_handler_nodeps d sender c w :
  d ∈ ds → NoneQ w d →
  ∃ w1, post_update_handler save_rec d sender c w = Ok tt w1
    ∧ db w1 = db w ∧ updating w1 = updating w
    ∧ ∀ d', NoneQ w d' → NoneQ w1 d'.
Proof.
  intros Hd Hq. rewrite post_update_handler_eq. cbv zeta.
  rewrite impact_nodeps by by apply nodeps.
  assert (Hm : ∃ m, default (QNone (model d)) (qs_of w d) = QNone m).
  { destruct (qs_of w d) as [q0|] eqn:Hq0; simpl; [by apply Hq|by eexists]. }
  destruct Hm as [m ->].
  set (w0 := with_qs d (QNone m) w).
  assert (Hq0 : ∀ d', NoneQ w d' → NoneQ w0 d').
  { intros d' Hn q Hlook. unfold qs_of, w0, with_qs in Hlook. simpl in Hlook.
    destruct (decide (did d = did d')) as [Heq|Hne].
    - rewrite Heq, lookup_insert_eq in Hlook. injection Hlook as <-.
      by eexists.
    - rewrite lookup_insert_ne in Hlook by done. by apply Hn. }
  rewrite bind_eq. unfold update. rewrite bind_eq. unfold emit.
  cbv beta iota. rewrite bind_eq. unfold get_db. cbv beta iota. simpl.
  rewrite bind_eq. unfold get_updating. cbv beta iota.
  case_decide as Hu.
  - unfold del_qs, qs_of. simpl. rewrite lookup_insert_eq.
    eexists. split; [done|]. split; [done|]. split; [done|].
    intros d' Hn q Hlook. unfold qs_of in Hlook. simpl in Hlook.
    apply lookup_delete_Some in Hlook as [_ Hlook].
    by apply (Hq0 d' Hn).
  - eexists. split; [done|]. split; [done|]. split; [done|].
    intros d' Hn q Hlook. by apply (Hq0 d' Hn).
Qed.

Lemma post_dispatch_nodeps l sender i w :
  l ⊆ ds → (∀ d, d ∈ ds → NoneQ w d) →
  ∃ w1,
    call_receivers save_rec (post_receivers l) sender (AInst i) w
    = Ok (AInst i) w1
    ∧ db w1 = db w ∧ updating w1 = updating w.
Proof.
  revert w. induction l as [|dj l IH]; intros w Hl Hq.
  - by exists w.
  - assert (Hdj : dj ∈ ds) by (apply Hl, list_elem_of_here).
    assert (Hl' : l ⊆ ds) by set_solver.
    change (post_receivers (dj :: l))
      with (mkReceiver PostHandler dj None :: post_receivers l).
    simpl. rewrite bind_eq. unfold call_receiver at 1. simpl.
    rewrite bind_eq. unfold post_handler.
    destruct (post_handler_nodeps dj sender (QPk sender (pk i)) w Hdj
                (Hq dj Hdj)) as (w1 & -> & Hdb1 & Hu1 & Hq1).
    cbv beta iota. change ((mret (AInst i) : M Arg) w1) with (Ok (AInst i) w1).
    cbv beta iota.
    destruct (IH w1 Hl') as (w2 & Hrun & Hdb2 & Hu2).
    { intros d Hd. apply Hq1. by apply Hq. }
    exists w2. split; [done|]. split; congruence.
Qed.

Lemma save_body_nodeps i w :
  match save_body write_ok (setup_all ds) save_rec i w with
  | Ok i' w' => db w' = db_put (db w) i' ∧ updating w' = updating w
  | Raise e w' => e = DatabaseError ∧ db w' = db w
  | OutOfFuel => False
  end.
Proof.
  unfold save_body. rewrite bind_eq. unfold emit at 1. cbv beta iota.
  rewrite bind_eq. unfold send_instance at 1. rewrite bind_eq.
  unfold send at 1. rewrite bind_eq. unfold emit at 1. cbv beta iota.
  rewrite pre_save_receivers. cbn [db updating qs log].
  match goal with
  | |- context [call_receivers ?sr ?rs ?sender (AInst i) ?w0] =>
      destruct (pre_dispatch_nodeps ds sender i w0 (reflexivity _))
        as (i1 & w1 & Hpre & Hdb1 & Hu1 & Hq1)
  end.
  rewrite Hpre. cbv beta iota.
  change ((mret i1 : M instance) w1) with (Ok i1 w1). cbv beta iota.
  rewrite bind_eq. unfold db_write. rewrite bind_eq. unfold get_db.
  cbv beta iota. destruct (write_ok (db w1) i1).
  2:{ split; [done|]. by rewrite Hdb1. }
  rewrite bind_eq. unfold put_db. cbv beta iota. unfold emit at 1.
  cbv beta iota. unfold send_instance, send. rewrite !bind_eq.
  unfold emit. cbv beta iota.
  rewrite post_save_receivers.
  match goal with
  | |- context [call_receivers ?sr ?rs ?sender (AInst i1) ?w0] =>
      destruct (post_dispatch_nodeps ds sender i1 w0 (reflexivity _))
        as (w2 & Hpost & Hdb2 & Hu2)
  end.
  { intros d Hd q Hlook. apply (Hq1 d); [left; by exists d|]. exact Hlook. }
  rewrite Hpost. cbv beta iota.
  change ((mret i1 : M instance) w2) with (Ok i1 w2). cbv beta iota.
  split.
  - rewrite Hdb2. simpl. by rewrite Hdb1.
  - rewrite Hu2. simpl. by rewrite Hu1.
Qed.

End NoDeps.

(** X11: rules without dependencies set off no cascade.  When no rule
    set up has a resolver, a save needs one level of [save] only: it
    returns with the instance written (as the [self_save_handler]s of
    its model left it) and no other row touched, or raises the storage's
    [DatabaseError] with the rows as they were; more fuel changes
    nothing. *)
Theorem save_without_dependencies write_ok ds fuel i w :
  (∀ d, d ∈ ds → depend d = []) →
  save write_ok (setup_all ds) (S fuel) i w
    = save write_ok (setup_all ds) 1 i w
  ∧ match save write_ok (setup_all ds) 1 i w with
    | Ok i' w' => db w' = db_put (db w) i' ∧ updating w' = updating w
    | Raise e w' => e = DatabaseError ∧ db w' = db w
    | OutOfFuel => False
    end.
Proof.
  intros Hnd.
  pose proof (save_body_nodeps write_ok ds
                (save write_ok (setup_all ds) 0) Hnd i w) as H1.
  change (save_body write_ok (setup_all ds)
            (save write_ok (setup_all ds) 0) i w)
    with (save write_ok (setup_all ds) 1 i w) in H1.
  split; [|exact H1].
  apply (save_more_fuel write_ok (setup_all ds) 1 (S fuel)); [lia|].
  intros Heq. by rewrite Heq in H1.
Qed.

(** X11 at work: the counter rule has no dependency. *)
Lemma save_without_dependencies_witness :
  save accept (setup_all [counter_rule]) 4 (row "Counter" 1 [("n", 5)]) counters
  = save accept (setup_all [counter_rule]) 1 (row "Counter" 1 [("n", 5)])
      counters.
Proof.
  eapply proj1.
  apply (save_without_dependencies accept [counter_rule] 3).
  intros d ->%list_elem_of_singleton. reflexivity.
Defined.

(** ** Deletes and bulk updates end as well *)

Lemma ends_put_db R P n rows :
  Forall (λ r, pk r ∈ P) rows → ends R P n (λ _, True) (put_db rows).
Proof.
  intros Hrows w HI Hs. simpl. split; [done|]. split; [|done].
  by rewrite (slack_same R P w).
Qed.

Lemma bulk_rows_in (P : list Z) name v l rows :
  Forall (λ r, pk r ∈ P) l → Forall (λ r, pk r ∈ P) rows →
  Forall (λ r, pk r ∈ P)
    (foldl (λ acc i, db_put acc (setattr i name v)) rows l).
Proof.
  intros Hl. revert rows. induction Hl as [|r l Hr _ IH]; intros rows Hrows;
    simpl; [done|].
  apply IH. by apply InP_db_put.
Qed.

Section MoreFuel.

Variable write_ok : list instance → instance → bool.
Variable sigs : Signals.
Variable fuel : nat.
Variable w : World.
Hypothesis enough :
  (length (remove_dups (rule_ids sigs)) * length (db w) ≤ fuel)%nat.

Let R := remove_dups (rule_ids sigs).
Let P := pk <$> db w.

Lemma start_InP : InP P w.
Proof. apply Forall_forall. intros r Hr. by apply list_elem_of_fmap_2. Qed.

Lemma save_ends_enough i w' :
  pk i ∈ P → InP P w' → (slack R P w' < length R * length P)%nat →
  match save write_ok sigs fuel i w' with
  | Ok _ w'' => InP P w''
  | Raise _ _ => True
  | OutOfFuel => False
  end.
Proof.
  intros Hi HI Hs.
  apply (save_ends write_ok sigs R P (rule_ids_cover sigs)); [done..|].
  assert (Hlen : (length R * length P ≤ fuel)%nat)
    by (unfold R, P; rewrite length_fmap; exact enough).
  lia.
Qed.

Lemma delete_instance_ends i :
  ends R P (length R * length P) (λ _, True)
    (delete_instance write_ok sigs fuel i).
Proof.
  unfold delete_instance.
  apply (ends_bind R P _ (λ i', pk i' = pk i)).
  { apply (ends_send_instance sigs R P _ (rule_ids_cover sigs)
             (save write_ok sigs fuel) (respects_save write_ok sigs fuel)
             save_ends_enough). }
  intros i' _.
  apply (ends_bind R P _ (λ rows, Forall (λ r, pk r ∈ P) rows));
    [apply ends_get_db|].
  intros rows Hrows.
  apply (ends_bind R P _ (λ _ : unit, True)).
  { apply ends_put_db. apply Forall_forall. intros r Hr.
    apply list_elem_of_filter in Hr as [_ Hr].
    rewrite Forall_forall in Hrows. by apply Hrows. }
  intros _ _.
  apply (ends_bind R P _ (λ _ : unit, True)); [apply ends_emit|].
  intros _ _.
  apply (ends_bind R P _ (λ i'', pk i'' = pk i')).
  { apply (ends_send_instance sigs R P _ (rule_ids_cover sigs)
             (save write_ok sigs fuel) (respects_save write_ok sigs fuel)
             save_ends_enough). }
  intros _ _. by apply ends_ret.
Qed.

Lemma queryset_update_ends m q name v :
  ends R P (length R * length P) (λ _, True)
    (queryset_update write_ok sigs fuel m q name v).
Proof.
  unfold queryset_update.
  apply (ends_bind R P _ (same_pk (AQs q))).
  { apply (ends_send sigs R P _ (rule_ids_cover sigs)
             (save write_ok sigs fuel) (respects_save write_ok sigs fuel)
             save_ends_enough). }
  intros _ _.
  apply (ends_bind R P _ (λ rows, Forall (λ r, pk r ∈ P) rows));
    [apply ends_get_db|].
  intros rows Hrows.
  apply (ends_bind R P _ (λ _ : unit, True)).
  { apply ends_put_db. apply bulk_rows_in; [|done].
    apply Forall_forall. intros r Hr. apply eval_elem_of in Hr.
    rewrite Forall_forall in Hrows. by apply Hrows. }
  intros _ _.
  apply (ends_bind R P _ (same_pk (AQs q))).
  { apply (ends_send sigs R P _ (rule_ids_cover sigs)
             (save write_ok sigs fuel) (respects_save write_ok sigs fuel)
             save_ends_enough). }
  intros _ _. by apply ends_ret.
Qed.

End MoreFuel.

Lemma refines_send write_ok sigs fuel fuel' s sender a :
  (fuel ≤ fuel')%nat →
  refines (send sigs (save write_ok sigs fuel) s sender a)
          (send sigs (save write_ok sigs fuel') s sender a).
Proof.
  intros Hle. unfold send. apply refines_bind; [apply refines_refl|].
  intros _. apply refines_call_receivers. intros i w Hw.
  by apply save_more_fuel.
Qed.

(** X12: [delete] and the bulk [update] end, like [save]: with at least
    as much fuel as the number of rules with a receiver connected times
    the number of rows, the [pre_]/[post_delete] and
    [pre_]/[post_update] handlers and everything they set off return or
    raise, and any further fuel gives the same result. *)
Theorem delete_and_update_terminate write_ok sigs fuel w :
  (length (remove_dups (rule_ids sigs)) * length (db w) ≤ fuel)%nat →
  (∀ i,
     is_Some (final (delete_instance write_ok sigs fuel i w))
     ∧ ∀ fuel', (fuel ≤ fuel')%nat →
         delete_instance write_ok sigs fuel' i w
         = delete_instance write_ok sigs fuel i w)
  ∧ (∀ m q name v,
     is_Some (final (queryset_update write_ok sigs fuel m q name v w))
     ∧ ∀ fuel', (fuel ≤ fuel')%nat →
         queryset_update write_ok sigs fuel' m q name v w
         = queryset_update write_ok sigs fuel m q name v w).
Proof.
  intros Hfuel. split.
  - intros i.
    pose proof (delete_instance_ends write_ok sigs fuel w Hfuel i w
                  (start_InP w) (slack_bound _ _ w)) as He.
    assert (Hn : delete_instance write_ok sigs fuel i w ≠ OutOfFuel)
      by (intros Heq; by rewrite Heq in He).
    split.
    + destruct (delete_instance write_ok sigs fuel i w); [by eexists..|done].
    + intros fuel' Hle. revert Hn. generalize w.
      change (refines (delete_instance write_ok sigs fuel i)
                      (delete_instance write_ok sigs fuel' i)).
      unfold delete_instance.
      apply refines_bind.
      { apply refines_send_instance. intros j w' Hw'.
        by apply save_more_fuel. }
      intros i'. apply refines_bind; [apply refines_refl|]. intros rows.
      apply refines_bind; [apply refines_refl|]. intros _.
      apply refines_bind; [apply refines_refl|]. intros _.
      apply refines_bind; [|intros ?; apply refines_refl].
      apply refines_send_instance. intros j w' Hw'.
      by apply save_more_fuel.
  - intros m q name v.
    pose proof (queryset_update_ends write_ok sigs fuel w Hfuel m q name v w
                  (start_InP w) (slack_bound _ _ w)) as He.
    assert (Hn : queryset_update write_ok sigs fuel m q name v w ≠ OutOfFuel)
      by (intros Heq; by rewrite Heq in He).
    split.
    + destruct (queryset_update write_ok sigs fuel m q name v w);
        [by eexists..|done].
    + intros fuel' Hle. revert Hn. generalize w.
      change (refines (queryset_update write_ok sigs fuel m q name v)
                      (queryset_update write_ok sigs fuel' m q name v)).
      unfold queryset_update.
      apply refines_bind; [by apply refines_send|]. intros _.
      apply refines_bind; [apply refines_refl|]. intros rows.
      apply refines_bind; [apply refines_refl|]. intros _.
      apply refines_bind; [by apply refines_send|].
      intros ?; apply refines_refl.
Qed.

(** X12 at work: deleting the moved line item from the shop. *)
Lemma delete_and_update_terminate_witness :
  is_Some (final (delete_instance accept order_signals 6 moved_item start))
  ∧ delete_instance accept order_signals 8 moved_item start
    = delete_instance accept order_signals 6 moved_item start.
Proof.
  destruct (delete_and_update_terminate accept order_signals 6 start)
    as [Hdel _]; [vm_compute; lia|].
  destruct (Hdel moved_item) as [Hend Hsame].
  split; [exact Hend|]. apply Hsame. lia.
Defined.

(** ** Rules that read base data only: one [rebuildall] settles the table *)

(** The row [r] is the row with the key of [i]. *)
Definition same_key (i r : instance) : Prop :=
  inst_model r = inst_model i ∧ pk r = pk i.

Lemma db_put_elem rows i r :
  NoDup (keys rows) → r ∈ db_put rows i →
  r = i ∨ (r ∈ rows ∧ ¬ same_key i r).
Proof.
  unfold keys. induction rows as [|x rows IH]; simpl.
  - intros _ ->%list_elem_of_singleton. by left.
  - rewrite ?fmap_cons. intros [Hx Hnd]%NoDup_cons. case_decide as Hkey.
    + intros [->|Hr]%elem_of_cons; [by left|]. right.
      split; [by apply list_elem_of_further|].
      intros [Hm Hk]. apply Hx. destruct Hkey as [-> ->].
      rewrite <- Hm, <- Hk.
      by apply (list_elem_of_fmap_2 (λ r, (inst_model r, pk r))).
    + intros [->|Hr]%elem_of_cons.
      * right. split; [apply list_elem_of_here|].
        intros [Hm Hk]. by apply Hkey.
      * destruct (IH Hnd Hr) as [->|[Hr' Hne]]; [by left|].
        right. split; [by apply list_elem_of_further | done].
Qed.

Lemma db_put_Forall2 (R : instance → instance → Prop) rows i r :
  (∀ x, R x x) → NoDup (keys rows) → r ∈ rows → same_key i r → R r i →
  Forall2 R rows (db_put rows i).
Proof.
  intros Hrefl Hnd Hr [Hm Hk] HR. unfold keys in Hnd.
  induction rows as [|x rows IH]; [by apply elem_of_nil in Hr|].
  simpl. rewrite ?fmap_cons in Hnd. apply NoDup_cons in Hnd as [Hx Hnd].
  case_decide as Hkey.
  - constructor; [|clear -Hrefl; induction rows; by constructor].
    apply elem_of_cons in Hr as [->|Hr]; [done|].
    exfalso. apply Hx. destruct Hkey as [-> ->]. rewrite <- Hm, <- Hk.
    by apply (list_elem_of_fmap_2 (λ r, (inst_model r, pk r))).
  - constructor; [apply Hrefl|].
    apply elem_of_cons in Hr as [->|Hr]; [|by apply IH].
    exfalso. by apply Hkey.
Qed.

Lemma Forall2_key_lookup (R : instance → instance → Prop) rows rows' i r :
  Forall2 R rows rows' → keys rows = keys rows' → NoDup (keys rows) →
  i ∈ rows → r ∈ rows' → same_key i r → R i r.
Proof.
  unfold keys. intros HR.
  induction HR as [|x y l k Hxy Hlk IH]; [by intros _ _ ?%elem_of_nil|].
  rewrite ?fmap_cons. intros Hkeys [Hx Hnd]%NoDup_cons Hi Hr [Hm Hk].
  injection Hkeys as Hmx Hkx Hkeys.
  apply elem_of_cons in Hi as [->|Hi], Hr as [->|Hr].
  - done.
  - exfalso. apply Hx. rewrite Hkeys, <- Hm, <- Hk.
    by apply (list_elem_of_fmap_2 (λ r, (inst_model r, pk r))).
  - exfalso. apply Hx. rewrite Hmx, Hkx, Hm, Hk.
    by apply (list_elem_of_fmap_2 (λ r, (inst_model r, pk r))).
  - by apply IH.
Qed.

Lemma Forall2_elem_r {A B} (R : A → B → Prop) l k y :
  Forall2 R l k → y ∈ k → ∃ x, x ∈ l ∧ R x y.
Proof.
  induction 1 as [|x y' l k Hxy _ IH]; [by intros ?%elem_of_nil|].
  intros [->|Hy]%elem_of_cons.
  - exists x. split; [apply list_elem_of_here | done].
  - destruct (IH Hy) as (x' & Hx' & HR). exists x'.
    split; [by apply list_elem_of_further | done].
Qed.

Lemma Forall2_elem_l {A B} (R : A → B → Prop) l k x :
  Forall2 R l k → x ∈ l → ∃ y, y ∈ k ∧ R x y.
Proof.
  induction 1 as [|x' y l k Hxy _ IH]; [by intros ?%elem_of_nil|].
  intros [->|Hx]%elem_of_cons.
  - exists y. split; [apply list_elem_of_here | done].
  - destruct (IH Hx) as (y' & Hy' & HR). exists y'.
    split; [by apply list_elem_of_further | done].
Qed.

Section Settles.

Variable write_ok : list instance → instance → bool.
Variable ds : list Denorm.

(** The world the first [rebuildall] starts from: its table has no key
    twice; the keys it has in flight stay in flight. *)
Variable w0 : World.
Hypothesis keyed : WellKeyed w0.

(** The denormalized fields. *)
Let N : list string := fieldname <$> ds.

(** No [func] reads a denormalized field. *)
Hypothesis base_only :
  ∀ d rows rows' i i',
    d ∈ ds → Base N rows rows' → same_base N i i' →
    func d rows i = func d rows' i'.

(** The rules are different objects, for different fields. *)
Hypothesis ids : ∀ d d', d ∈ ds → d' ∈ ds → did d = did d' → d = d'.
Hypothesis fields :
  ∀ d d', d ∈ ds → d' ∈ ds →
    model d = model d' → fieldname d = fieldname d' → d = d'.

(** The resolvers give rows of the owning model. *)
Hypothesis resolvers_typed :
  ∀ d dep rows c rows' i,
    d ∈ ds → dep ∈ depend d → i ∈ eval rows' (resolve dep rows c) →
    inst_model i = model d.

(** The row stores the value of the rule. *)
Definition correct (d : Denorm) (r : instance) : Prop :=
  attrs r !! fieldname d = Some (func d (db w0) r).

(** The key was left in flight before the run: the rule never looks at
    the row. *)
Definition left_over (d : Denorm) (r : instance) : Prop :=
  pk r ∈ inflight w0 (did d).

(** The row stores the value of every rule of its model that looks at
    it. *)
Definition settled (r : instance) : Prop :=
  ∀ d, d ∈ ds → inst_model r = model d → ¬ left_over d r → correct d r.

(** A later state of a row: the base data is the same and a value that
    was right is still right. *)
Definition adv_row (r r' : instance) : Prop :=
  same_base N r r'
  ∧ ∀ d, d ∈ ds → inst_model r = model d → ¬ left_over d r →
      correct d r → correct d r'.

Definition Adv (rows rows' : list instance) : Prop :=
  Forall2 adv_row rows rows'.

(** The worlds of the run: the table has the base data it started with,
    the keys left in flight are still in flight, and every row with a
    window of this run open stores the value of the window's rule,
    unless it is one of the rows [ex] (the row about to be written). *)
Definition Inv (ex : instance → Prop) (w : World) : Prop :=
  Base N (db w0) (db w)
  ∧ (∀ n, inflight w0 n ⊆ inflight w n)
  ∧ ∀ d r, d ∈ ds → r ∈ db w → inst_model r = model d →
      pk r ∈ inflight w (did d) → ¬ left_over d r → ¬ ex r → correct d r.

Definition nobody (r : instance) : Prop := False.

(** Every [qs] attribute holds rows of its rule's model. *)
Definition Typed (w : World) : Prop :=
  ∀ d q, d ∈ ds → qs_of w d = Some q → typed_qs (model d) q.

Lemma field_in_N d : d ∈ ds → fieldname d ∈ N.
Proof. intros Hd. unfold N. by apply list_elem_of_fmap_2. Qed.

Lemma func_eq d rows i i' :
  d ∈ ds → Base N (db w0) rows → same_base N i i' →
  func d rows i = func d (db w0) i'.
Proof. intros Hd Hb Hi. apply base_only; [done | by apply Base_sym | done]. Qed.

Lemma correct_same_base d r r' :
  d ∈ ds → same_base N r r' →
  attrs r' !! fieldname d = attrs r !! fieldname d →
  correct d r → correct d r'.
Proof.
  intros Hd Hs Ha Hc. unfold correct in *. rewrite Ha, Hc. f_equal.
  apply base_only; [done | apply Base_refl | done].
Qed.

Lemma correct_setattr_own d rows i :
  d ∈ ds → Base N (db w0) rows →
  correct d (setattr i (fieldname d) (func d rows i)).
Proof.
  intros Hd Hb. unfold correct. simpl. rewrite lookup_insert_eq. f_equal.
  apply func_eq; [done..|]. apply same_base_sym, same_base_setattr.
  by apply field_in_N.
Qed.

Lemma correct_setattr_other d d' i v :
  d ∈ ds → d' ∈ ds → model d = model d' → d ≠ d' →
  correct d i → correct d (setattr i (fieldname d') v).
Proof.
  intros Hd Hd' Hm Hne. apply correct_same_base; [done| |].
  - apply same_base_sym, same_base_setattr. by apply field_in_N.
  - simpl. rewrite lookup_insert_ne; [done|].
    intros Heq. apply Hne. by apply fields.
Qed.

Lemma adv_row_refl r : adv_row r r.
Proof. split; [apply same_base_refl | done]. Qed.

Lemma adv_row_trans r1 r2 r3 : adv_row r1 r2 → adv_row r2 r3 → adv_row r1 r3.
Proof.
  intros [Hs1 H1] [Hs2 H2]. split; [by eapply same_base_trans|].
  intros d Hd Hm Hl Hc. pose proof Hs1 as (Hm1 & Hk1 & _).
  apply H2; [done | congruence | |by apply H1].
  unfold left_over in *. by rewrite <- Hk1.
Qed.

Lemma Adv_refl rows : Adv rows rows.
Proof. induction rows; constructor; [apply adv_row_refl | done]. Qed.

Lemma Adv_trans rows1 rows2 rows3 :
  Adv rows1 rows2 → Adv rows2 rows3 → Adv rows1 rows3.
Proof.
  intros H1. revert rows3.
  induction H1 as [|x y l k Hxy _ IH]; intros rows3 H2.
  - exact H2.
  - inversion H2 as [|? z ? m Hyz Hkm]; subst.
    constructor; [by eapply adv_row_trans | by apply IH].
Qed.

Lemma Adv_Base rows rows' : Adv rows rows' → Base N rows rows'.
Proof.
  intros Ha. eapply Forall2_impl; [exact Ha|]. by intros r r' [? _].
Qed.

Lemma Adv_lookup rows rows' i r :
  Adv rows rows' → NoDup (keys rows) → i ∈ rows → r ∈ rows' →
  same_key i r → adv_row i r.
Proof.
  intros Ha Hnd. apply Forall2_key_lookup; [done| |done].
  by eapply Base_keys, Adv_Base.
Qed.

Lemma Inv_NoDup ex w : Inv ex w → NoDup (keys (db w)).
Proof.
  intros (Hb & _). unfold WellKeyed in keyed.
  by rewrite <- (Base_keys _ _ _ Hb).
Qed.

Lemma Inv_same ex w w' :
  db w' = db w → updating w' = updating w → Inv ex w → Inv ex w'.
Proof.
  intros Hdb Hu (Hb & Hl & Hc). unfold Inv, inflight in *.
  rewrite Hdb, Hu. done.
Qed.

Lemma Inv_weaken (ex ex' : instance → Prop) w :
  (∀ r, ex r → ex' r) → Inv ex w → Inv ex' w.
Proof.
  intros Hex (Hb & Hl & Hc). split; [done|]. split; [done|].
  intros d r Hd Hr Hm Hin Hlo Hn. apply Hc; try done.
  intros He. by apply Hn, Hex.
Qed.

Lemma Inv_Adv w w' :
  Inv nobody w → Adv (db w) (db w') →
  (∀ n, inflight w' n = inflight w n) → Inv nobody w'.
Proof.
  intros HJ Ha Hin. pose proof (Inv_NoDup _ _ HJ) as Hnd.
  destruct HJ as (Hb & Hl & Hc).
  split; [eapply Base_trans; [done | by apply Adv_Base]|].
  split; [intros n; by rewrite Hin|].
  intros d r' Hd Hr' Hm Hk Hlo _.
  destruct (Forall2_elem_r _ _ _ _ Ha Hr') as (r & Hr & Hs & Hadv).
  pose proof Hs as (Hm' & Hk' & _).
  apply Hadv; [done | congruence | unfold left_over in *; by rewrite Hk'|].
  apply Hc; [done | done | congruence | | unfold left_over in *; by rewrite Hk'
            | by intros []].
  rewrite Hk', <- Hin. done.
Qed.

Lemma Typed_same w w' : qs w' = qs w → Typed w → Typed w'.
Proof. intros Hq Ht d q Hd. unfold qs_of. rewrite Hq. by apply Ht. Qed.

Lemma Typed_with_qs d q w :
  d ∈ ds → typed_qs (model d) q → Typed w → Typed (with_qs d q w).
Proof.
  intros Hd Hq Ht d' q' Hd' Hlook. unfold qs_of, with_qs in Hlook.
  simpl in Hlook. destruct (decide (did d = did d')) as [Heq|Hne].
  - rewrite Heq, lookup_insert_eq in Hlook. injection Hlook as <-.
    by rewrite <- (ids d d' Hd Hd' Heq).
  - rewrite lookup_insert_ne in Hlook by done. by eapply Ht.
Qed.

Lemma typed_resolved d rows c q0 :
  d ∈ ds → typed_qs (model d) q0 → typed_qs (model d) (impact d rows c q0).
Proof.
  intros Hd Hq0. apply typed_impact; [done|].
  intros dep rows' i Hdep Hi. by eapply resolvers_typed.
Qed.

Section BodySettles.

Variable save_rec : instance → M instance.
Hypothesis save_rec_respects : ∀ i, respects (save_rec i).

(** What a nested [save] is asked and what it gives: the instance is a
    stored row with its base data, and stores the value of every rule
    that has its window open; the write and the cascade lead to a later
    state of the table. *)
Hypothesis save_rec_settles :
  ∀ i w i' w',
    Inv (same_key i) w →
    (∃ r, r ∈ db w ∧ same_key i r ∧ same_base N r i) →
    (∀ d, d ∈ ds → inst_model i = model d → pk i ∈ inflight w (did d) →
          ¬ left_over d i → correct d i) →
    save_rec i w = Ok i' w' →
    Inv nobody w' ∧ Adv (db w) (db w') ∧ Typed w'.

(** The [pre_save] receivers of the rules [l] in turn: the stored rows
    and the [updating] sets stay; the instance keeps its base data and
    the values that were right, and gets the value of every rule among
    [l] of its model that does not have it in flight; the rules among
    [l] end with a [qs] of their model. *)
Lemma pre_dispatch_settles l i w :
  l ⊆ ds → Base N (db w0) (db w) →
  ∃ i1 w1,
    call_receivers save_rec
      (l ≫= λ d, own_receivers d pre_save (inst_model i))
      (inst_model i) (AInst i) w = Ok (AInst i1) w1
    ∧ db w1 = db w ∧ updating w1 = updating w
    ∧ same_base N i1 i
    ∧ (∀ d, d ∈ ds → inst_model i = model d →
         correct d i ∨ (d ∈ l ∧ pk i ∉ inflight w (did d)) → correct d i1)
    ∧ (∀ d, d ∈ ds →
         d ∈ l ∨ (∀ q, qs_of w d = Some q → typed_qs (model d) q) →
         ∀ q, qs_of w1 d = Some q → typed_qs (model d) q).
Proof.
  revert i w. induction l as [|dj l IH]; intros i w Hl Hb.
  - exists i, w. split; [done|]. split; [done|]. split; [done|].
    split; [apply same_base_refl|]. split.
    + intros d Hd Hm [?|[Hn _]]; [done | by apply elem_of_nil in Hn].
    + intros d Hd [Hn|?]; [by apply elem_of_nil in Hn | done].
  - assert (Hdj : dj ∈ ds) by (apply Hl, list_elem_of_here).
    assert (Hl' : l ⊆ ds) by set_solver.
    change ((dj :: l) ≫= λ d, own_receivers d pre_save (inst_model i))
      with (own_receivers dj pre_save (inst_model i)
            ++ (l ≫= λ d, own_receivers d pre_save (inst_model i))).
    set (q1 := impact dj (db w) (QPk (inst_model i) (pk i)) (QNone (model dj))).
    set (w1 := with_qs dj q1 w).
    assert (Hpre : call_receiver save_rec (mkReceiver PreHandler dj None)
                     (inst_model i) (AInst i) w = Ok (AInst i) w1).
    { unfold call_receiver. simpl. rewrite bind_eq. unfold pre_handler.
      by rewrite pre_update_handler_eq. }
    assert (Hq1 : ∀ d, d ∈ ds →
              d = dj ∨ (∀ q, qs_of w d = Some q → typed_qs (model d) q) →
              ∀ q, qs_of w1 d = Some q → typed_qs (model d) q).
    { intros d Hd Hcase q Hq. unfold qs_of, w1, with_qs in Hq. simpl in Hq.
      destruct (decide (did dj = did d)) as [Heq|Hne].
      - rewrite Heq, lookup_insert_eq in Hq. injection Hq as <-.
        rewrite <- (ids dj d Hdj Hd Heq).
        apply typed_resolved; [done | apply typed_QNone].
      - rewrite lookup_insert_ne in Hq by done.
        destruct Hcase as [->|Hn]; [done|]. by apply Hn. }
    (* the instance after the rule's own [self_save_handler], if any *)
    assert (Hself : ∃ i2 w2,
              call_receivers save_rec
                (own_receivers dj pre_save (inst_model i)
                 ++ (l ≫= λ d, own_receivers d pre_save (inst_model i)))
                (inst_model i) (AInst i) w
              = call_receivers save_rec
                  (l ≫= λ d, own_receivers d pre_save (inst_model i))
                  (inst_model i) (AInst i2) w2
              ∧ db w2 = db w ∧ updating w2 = updating w ∧ qs w2 = qs w1
              ∧ inst_model i2 = inst_model i ∧ pk i2 = pk i
              ∧ same_base N i2 i
              ∧ (∀ d, d ∈ ds → inst_model i = model d →
                   correct d i ∨ (d = dj ∧ pk i ∉ inflight w (did d)) →
                   correct d i2)).
    { unfold own_receivers. case_decide as Hown; simpl.
      - rewrite bind_eq, Hpre. cbv beta iota. rewrite bind_eq.
        unfold call_receiver at 1. simpl. rewrite bind_eq.
        rewrite self_save_handler_eq.
        destruct (decide (pk i ∈ updating_of w1 dj)) as [Hin|Hout].
        + cbv beta iota. change ((mret (AInst i) : M Arg) w1)
            with (Ok (AInst i) w1). cbv beta iota.
          exists i, w1. split; [done|]. do 5 (split; [done|]).
          split; [apply same_base_refl|].
          intros d Hd Hm [?|[-> Hn]]; [done|]. by destruct Hn.
        + cbv beta iota.
          set (i2 := setattr i (fieldname dj) (func dj (db w1) i)).
          set (w2 := emitted (EvFunc (did dj) (pk i)) w1).
          change ((mret (AInst i2) : M Arg) w2) with (Ok (AInst i2) w2).
          cbv beta iota. exists i2, w2. split; [done|].
          do 5 (split; [done|]).
          split; [apply same_base_setattr; by apply field_in_N|].
          intros d Hd Hm Hcase.
          destruct (decide (did d = did dj)) as [Heq|Hne].
          * apply (ids d dj Hd Hdj) in Heq as ->.
            by apply correct_setattr_own.
          * destruct Hcase as [Hc|[-> _]]; [|done].
            apply correct_setattr_other; [done|done|congruence| |done].
            by intros ->.
      - rewrite bind_eq, Hpre. cbv beta iota.
        exists i, w1. split; [done|]. do 5 (split; [done|]).
        split; [apply same_base_refl|].
        intros d Hd Hm [?|[-> Hn]]; [done|]. by destruct Hown. }
    destruct Hself as (i2 & w2 & -> & Hdb2 & Hu2 & Hqs2 & Hm2 & Hk2 & Hs2 & Hc2).
    destruct (IH i2 w2 Hl') as (i3 & w3 & Hrun & Hdb3 & Hu3 & Hs3 & Hc3 & Hq3).
    { by rewrite Hdb2. }
    rewrite Hm2 in Hrun. exists i3, w3. split; [done|].
    split; [congruence|]. split; [congruence|].
    split; [by eapply same_base_trans|]. split.
    + intros d Hd Hm Hcase. apply Hc3; [done | congruence|].
      destruct Hcase as [Hc|[Hin Hout]].
      * left. apply Hc2; auto.
      * apply elem_of_cons in Hin as [->|Hin].
        -- left. apply Hc2; auto.
        -- right. split; [done|]. unfold inflight in *.
           by rewrite Hk2, Hu2.
    + intros d Hd Hcase. apply Hq3; [done|].
      destruct Hcase as [Hin|Hn].
      * apply elem_of_cons in Hin as [->|Hin]; [|by left].
        right. intros q Hq. unfold qs_of in *. rewrite Hqs2 in Hq.
        by apply (Hq1 dj Hdj (or_introl eq_refl)).
      * right. intros q Hq. unfold qs_of in *. rewrite Hqs2 in Hq.
        by apply (Hq1 d Hd (or_intror Hn)).
Qed.

(** One row of the loop of [update].  The row [i] was loaded from the
    table of the world [ws]; since then the table has only advanced and
    the [updating] sets are as they were.  Afterwards the stored row
    holds the value of the rule, unless its key was left in flight. *)
Lemma update_one_settles d i ws w w' :
  d ∈ ds → Inv nobody ws → i ∈ db ws → inst_model i = model d →
  Inv nobody w → Adv (db ws) (db w) →
  (∀ n, inflight w n = inflight ws n) →
  update_one save_rec d i w = Ok tt w' →
  Inv nobody w' ∧ Adv (db w) (db w') ∧ (Typed w → Typed w')
  ∧ (∀ n, inflight w' n = inflight w n)
  ∧ (¬ left_over d i → ∀ r, r ∈ db w' → same_key i r → correct d r).
Proof.
  intros Hd HJs Hi Hm HJ Hadv Hinf Hrun.
  pose proof (Inv_NoDup _ _ HJs) as Hnds.
  destruct (decide (pk i ∈ updating_of w d)) as [Hin|Hout].
  { rewrite update_one_in_flight in Hrun by done. injection Hrun as <-.
    split; [done|]. split; [apply Adv_refl|]. split; [done|].
    split; [done|]. intros Hlo r Hr [Hrm Hrk].
    destruct HJ as (_ & _ & Hc).
    apply Hc; [done | done | congruence | by rewrite Hrk | | by intros []].
    unfold left_over in *. by rewrite Hrk. }
  destruct (attrs i !! fieldname d) as [old|] eqn:Hold.
  2:{ unfold update_one in Hrun. rewrite bind_eq in Hrun.
      unfold get_updating in Hrun. rewrite decide_False in Hrun by done.
      rewrite !bind_eq in Hrun. unfold get_db, emit in Hrun.
      cbv beta iota in Hrun. rewrite bind_eq in Hrun.
      unfold getattr in Hrun. by rewrite Hold in Hrun. }
  assert (Hnew : func d (db w) i = func d (db w0) i).
  { apply func_eq; [done | by destruct HJ | apply same_base_refl]. }
  destruct (decide (old = func d (db w) i)) as [->|Hne].
  { rewrite update_one_unchanged in Hrun by done.
    rewrite decide_False in Hrun by done. injection Hrun as <-.
    split; [by eapply Inv_same|]. split; [apply Adv_refl|].
    split; [by apply Typed_same|]. split; [done|].
    intros Hlo r Hr Hkey.
    destruct (Adv_lookup _ _ i r Hadv Hnds Hi Hr Hkey) as [_ Hcr].
    apply Hcr; [done..|]. unfold correct. by rewrite Hold, Hnew. }
  rewrite (update_one_changed _ _ _ _ old) in Hrun by done.
  rewrite bind_eq, updating_add_eq in Hrun. cbv beta iota in Hrun.
  rewrite bind_eq in Hrun.
  set (w1 := emitted (EvFunc (did d) (pk i)) w) in *.
  set (i' := setattr i (fieldname d) (func d (db w) i)) in *.
  set (wa := added d (pk i) w1) in *.
  assert (Hina : ∀ n, inflight wa n
                 = if decide (n = did d) then inflight w n ∪ {[pk i]}
                   else inflight w n).
  { intros n. unfold wa. by rewrite inflight_added. }
  assert (Hlo : ¬ left_over d i).
  { unfold left_over. intros Hl. apply Hout. destruct HJ as (_ & HL & _).
    by apply HL. }
  pose proof (save_rec_respects i' wa) as Hbal.
  destruct (save_rec i' wa) as [i2 w2|e w2|] eqn:Hsave; [|done..].
  destruct Hbal as (_ & Hin2 & _).
  destruct (save_rec_settles i' wa i2 w2) as (HJ2 & Hadv2 & HT2); [| | |done|].
  - (* the invariant, but for the row about to be written *)
    destruct HJ as (Hb & HL & Hc). split; [done|]. split.
    { intros n. rewrite Hina. case_decide; [|apply HL].
      etrans; [apply HL|]. set_solver. }
    intros d' r Hd' Hr Hm' Hk Hlo' Hex.
    apply Hc; [done | done | done | | done | by intros []].
    rewrite Hina in Hk. case_decide as Hn; [|done].
    apply elem_of_union in Hk as [Hk|Hk%elem_of_singleton]; [done|].
    exfalso. apply Hex. apply (ids d' d Hd' Hd) in Hn as ->.
    split; [simpl; congruence | done].
  - (* the instance is a stored row *)
    destruct (Forall2_elem_l _ _ _ _ Hadv Hi) as (r & Hr & Hs & _).
    exists r. split; [done|].
    pose proof Hs as (Hrm & Hrk & _).
    split; [split; simpl; congruence|].
    eapply same_base_trans; [apply same_base_sym, Hs|].
    apply same_base_sym, same_base_setattr. by apply field_in_N.
  - (* the instance has the values of the open windows *)
    intros d' Hd' Hm' Hk Hlo'. rewrite Hina in Hk.
    destruct (decide (did d' = did d)) as [Heq|Hned].
    + apply (ids d' d Hd' Hd) in Heq as ->.
      apply correct_setattr_own; [done | by destruct HJ].
    + apply correct_setattr_other; [done | done | simpl in Hm'; congruence
                                   | by intros -> |].
      destruct HJs as (_ & _ & Hcs).
      apply Hcs; [done | done | done | | done | by intros []].
      by rewrite <- Hinf.
  - unfold updating_remove in Hrun. rewrite bind_eq in Hrun.
    unfold get_updating in Hrun. case_decide as Hmem; [|done].
    rewrite bind_eq in Hrun. unfold put_updating, emit in Hrun.
    cbv beta iota in Hrun. injection Hrun as <-.
    assert (Hinr : ∀ n, inflight (removed d (pk i) w2) n = inflight w n).
    { intros n. rewrite inflight_removed, Hin2, Hina.
      case_decide; [|done]. subst n. unfold updating_of in Hout.
      set_solver. }
    assert (Hsame : ∀ n,
              inflight {| db := db w2;
                          updating := <[did d := updating_of w2 d ∖ {[pk i']}]>
                                        (updating w2);
                          qs := qs w2;
                          log := log w2 ++ [EvRemove (did d) (pk i')] |} n
              = inflight w n) by exact Hinr.
    pose proof HJ2 as (Hb2 & HL2 & Hc2).
    split; [|split; [|split; [|split]]].
    + split; [done|]. split.
      { intros n. rewrite Hsame. by destruct HJ as (_ & HL & _). }
      intros d' r Hd' Hr Hm' Hk Hlo' _.
      apply Hc2; [done | done | done | | done | by intros []].
      rewrite Hsame in Hk. rewrite Hin2, Hina. case_decide; [|done].
      set_solver.
    + exact Hadv2.
    + intros _. by apply (Typed_same w2).
    + exact Hsame.
    + intros _ r Hr [Hrm Hrk].
      apply Hc2; [done | done | congruence | | | by intros []].
      * rewrite Hin2, Hina, decide_True by done. rewrite Hrk. set_solver.
      * unfold left_over in *. by rewrite Hrk.
Qed.

(** The loop of [update] over rows loaded from the table of [ws]. *)
Lemma rows_settle d l ws w w' :
  d ∈ ds → Inv nobody ws →
  (∀ i, i ∈ l → i ∈ db ws ∧ inst_model i = model d) →
  Inv nobody w → Adv (db ws) (db w) →
  (∀ n, inflight w n = inflight ws n) →
  for_each l (update_one save_rec d) w = Ok tt w' →
  Inv nobody w' ∧ Adv (db w) (db w') ∧ (Typed w → Typed w')
  ∧ (∀ n, inflight w' n = inflight w n)
  ∧ (∀ i, i ∈ l → ¬ left_over d i →
       ∀ r, r ∈ db w' → same_key i r → correct d r).
Proof.
  intros Hd HJs. revert w.
  induction l as [|i l IH]; intros w Hl HJ Hadv Hinf Hrun; simpl in Hrun.
  - injection Hrun as <-. split; [done|]. split; [apply Adv_refl|].
    split; [done|]. split; [done|]. by intros i ?%elem_of_nil.
  - rewrite bind_eq in Hrun.
    destruct (update_one save_rec d i w) as [[] w1|e w1|] eqn:H1; [|done..].
    destruct (Hl i (list_elem_of_here _ _)) as [Hi Hm].
    destruct (update_one_settles d i ws w w1 Hd HJs Hi Hm HJ Hadv Hinf H1)
      as (HJ1 & Hadv1 & HT1 & Hin1 & Hc1).
    destruct (IH w1) as (HJ' & Hadv' & HT' & Hin' & Hc'); [| | | |done|].
    + intros j Hj. apply Hl. by apply list_elem_of_further.
    + done.
    + by eapply Adv_trans.
    + intros n. by rewrite Hin1.
    + split; [done|]. split; [by eapply Adv_trans|].
      split; [by auto|]. split; [intros n; by rewrite Hin', Hin1|].
      intros j [->|Hj]%elem_of_cons Hlo r Hr Hkey; [|by eapply Hc'].
      destruct (Forall2_elem_r _ _ _ _ Hadv' Hr) as (r1 & Hr1 & Hs & Hcr).
      pose proof Hs as (Hm1 & Hk1 & _). destruct Hkey as [Hrm Hrk].
      apply Hcr; [done | congruence | unfold left_over in *; congruence|].
      apply Hc1; [done | done|]. split; congruence.
Qed.

Lemma update_settles d q w w' :
  d ∈ ds → typed_qs (model d) q → Inv nobody w →
  update save_rec d q w = Ok tt w' →
  Inv nobody w' ∧ Adv (db w) (db w') ∧ (Typed w → Typed w')
  ∧ (∀ n, inflight w' n = inflight w n)
  ∧ (∀ i, i ∈ eval (db w) q → ¬ left_over d i →
       ∀ r, r ∈ db w' → same_key i r → correct d r).
Proof.
  intros Hd Hq HJ Hrun. unfold update in Hrun. rewrite bind_eq in Hrun.
  change (emit ?e w) with (Ok tt (emitted e w)) in Hrun.
  cbv beta iota in Hrun. rewrite bind_eq in Hrun. unfold get_db in Hrun.
  cbv beta iota in Hrun.
  change (db (emitted (EvUpdate (did d) q) w)) with (db w) in Hrun.
  set (w1 := emitted (EvUpdate (did d) q) w) in *.
  destruct (rows_settle d (eval (db w) (QDistinct q)) w w1 w' Hd HJ)
    as (HJ' & Hadv' & HT' & Hin' & Hc'); [| | | |done|].
  - intros i Hi. simpl in Hi. rewrite elem_of_remove_dups in Hi.
    split; [by eapply eval_elem_of | by eapply Hq].
  - by eapply Inv_same.
  - apply Adv_refl.
  - done.
  - split; [done|]. split; [done|]. split; [by auto|]. split; [done|].
    intros i Hi. apply Hc'. simpl. by rewrite elem_of_remove_dups.
Qed.

Lemma post_update_handler_settles d sender c w w' :
  d ∈ ds → Inv nobody w → Typed w →
  post_update_handler save_rec d sender c w = Ok tt w' →
  Inv nobody w' ∧ Adv (db w) (db w') ∧ Typed w'
  ∧ (∀ n, inflight w' n = inflight w n).
Proof.
  intros Hd HJ HT Hrun. rewrite post_update_handler_eq in Hrun.
  cbv zeta in Hrun.
  set (q := impact d (db w) c (default (QNone (model d)) (qs_of w d))) in *.
  assert (Hq : typed_qs (model d) q).
  { apply typed_resolved; [done|].
    destruct (qs_of w d) as [q0|] eqn:Hq0; simpl;
      [by eapply HT | apply typed_QNone]. }
  rewrite bind_eq in Hrun.
  destruct (update save_rec d q (with_qs d q w)) as [[] w1|e w1|] eqn:Hup;
    [|done..].
  destruct (update_settles d q (with_qs d q w) w1 Hd Hq) as
    (HJ1 & Hadv1 & HT1 & Hin1 & _); [by eapply Inv_same | done|].
  specialize (HT1 (Typed_with_qs d q w Hd Hq HT)).
  rewrite bind_eq in Hrun. unfold get_updating in Hrun.
  cbv beta iota in Hrun. case_decide.
  - unfold del_qs in Hrun. destruct (qs_of w1 d) as [q1|]; [|done].
    injection Hrun as <-. split; [by eapply Inv_same|].
    split; [done|]. split; [|done].
    intros d' q' Hd' Hlook. unfold qs_of in Hlook. simpl in Hlook.
    apply lookup_delete_Some in Hlook as [_ Hlook]. by eapply HT1.
  - by injection Hrun as <-.
Qed.

Lemma post_dispatch_settles l sender i w a w' :
  l ⊆ ds → Inv nobody w → Typed w →
  call_receivers save_rec (post_receivers l) sender (AInst i) w = Ok a w' →
  a = AInst i ∧ Inv nobody w' ∧ Adv (db w) (db w') ∧ Typed w'
  ∧ (∀ n, inflight w' n = inflight w n).
Proof.
  revert w. induction l as [|dj l IH]; intros w Hl HJ HT Hrun.
  - simpl in Hrun. injection Hrun as <- <-.
    split; [done|]. split; [done|]. split; [apply Adv_refl | done].
  - assert (Hdj : dj ∈ ds) by (apply Hl, list_elem_of_here).
    assert (Hl' : l ⊆ ds) by set_solver.
    change (post_receivers (dj :: l))
      with (mkReceiver PostHandler dj None :: post_receivers l) in Hrun.
    simpl in Hrun. rewrite bind_eq in Hrun.
    unfold call_receiver in Hrun at 1. simpl in Hrun.
    rewrite bind_eq in Hrun. unfold post_handler in Hrun.
    destruct (post_update_handler save_rec dj sender (QPk sender (pk i)) w)
      as [[] w1|e w1|] eqn:Hpost; [|done..].
    destruct (post_update_handler_settles _ _ _ _ _ Hdj HJ HT Hpost)
      as (HJ1 & Hadv1 & HT1 & Hin1).
    cbv beta iota in Hrun.
    change ((mret (AInst i) : M Arg) w1) with (Ok (AInst i) w1) in Hrun.
    cbv beta iota in Hrun.
    destruct (IH w1 Hl' HJ1 HT1 Hrun) as (-> & HJ' & Hadv' & HT' & Hin').
    split; [done|]. split; [done|]. split; [by eapply Adv_trans|].
    split; [done|]. intros n. by rewrite Hin', Hin1.
Qed.

(** [save]: the instance written is settled, and so is every row the
    cascade writes. *)
Lemma save_body_settles i w i' w' :
  Inv (same_key i) w →
  (∃ r, r ∈ db w ∧ same_key i r ∧ same_base N r i) →
  (∀ d, d ∈ ds → inst_model i = model d → pk i ∈ inflight w (did d) →
        ¬ left_over d i → correct d i) →
  save_body write_ok (setup_all ds) save_rec i w = Ok i' w' →
  Inv nobody w' ∧ Adv (db w) (db w') ∧ Typed w'.
Proof.
  intros HJ (r & Hr & Hkey & Hsr) Hopen Hrun.
  pose proof (Inv_NoDup _ _ HJ) as Hnd.
  unfold save_body in Hrun. rewrite bind_eq in Hrun.
  unfold emit in Hrun at 1. cbv beta iota in Hrun.
  rewrite bind_eq in Hrun. unfold send_instance in Hrun at 1.
  rewrite bind_eq in Hrun. unfold send in Hrun at 1.
  rewrite bind_eq in Hrun. unfold emit in Hrun at 1.
  cbv beta iota in Hrun. rewrite pre_save_receivers in Hrun.
  cbn [db updating qs log] in Hrun.
  match type of Hrun with
  | context [call_receivers ?sr ?rs ?sender (AInst i) ?wp] =>
      destruct (pre_dispatch_settles ds i wp (reflexivity _))
        as (i1 & w1 & Hpre & Hdb1 & Hu1 & Hs1 & Hc1 & Hq1);
        [by destruct HJ|]
  end.
  rewrite Hpre in Hrun. cbv beta iota in Hrun.
  change ((mret i1 : M instance) w1) with (Ok i1 w1) in Hrun.
  cbv beta iota in Hrun. simpl in Hdb1, Hu1.
  pose proof Hs1 as (Hm1 & Hk1 & _).
  assert (Hin1 : ∀ n, inflight w1 n = inflight w n)
    by (intros n; unfold inflight; by rewrite Hu1).
  (* the instance to be written is settled *)
  assert (Hset : settled i1).
  { intros d Hd Hm Hlo. apply Hc1; [done | congruence|].
    destruct (decide (pk i ∈ inflight w (did d))) as [Hin|Hout].
    - left. apply Hopen; [done | congruence | done|].
      unfold left_over in *. by rewrite <- Hk1.
    - right. split; [done|]. done. }
  rewrite bind_eq in Hrun. unfold db_write in Hrun.
  rewrite bind_eq in Hrun. unfold get_db in Hrun. cbv beta iota in Hrun.
  destruct (write_ok (db w1) i1); [|done].
  rewrite bind_eq in Hrun. unfold put_db in Hrun. cbv beta iota in Hrun.
  unfold emit in Hrun at 1. cbv beta iota in Hrun.
  unfold send_instance, send in Hrun. rewrite !bind_eq in Hrun.
  unfold emit in Hrun. cbv beta iota in Hrun.
  rewrite post_save_receivers in Hrun. cbn [db updating qs log] in Hrun.
  rewrite Hdb1 in Hrun.
  (* the table with the instance written *)
  assert (Hkey1 : same_key i1 r).
  { destruct Hkey as [Hrm Hrk]. split; congruence. }
  assert (Hput : Adv (db w) (db_put (db w) i1)).
  { apply (db_put_Forall2 adv_row _ _ r);
      [apply adv_row_refl | done | done | done|].
    split; [eapply same_base_trans; [done | by apply same_base_sym]|].
    intros d Hd Hm Hlo _. destruct Hkey1 as [Hrm Hrk].
    apply Hset; [done | congruence|].
    unfold left_over in *. by rewrite <- Hrk. }
  match type of Hrun with
  | context [call_receivers ?sr ?rs ?sender (AInst i1) ?wp] =>
      destruct (call_receivers sr rs sender (AInst i1) wp) as [a4 w4|e w4|]
        eqn:Hpost; [|done..];
      destruct (post_dispatch_settles ds sender i1 wp a4 w4 (reflexivity _))
        as (-> & HJ4 & Hadv4 & HT4 & _); [| |done|]
  end.
  - (* the invariant after the write *)
    destruct HJ as (Hb & HL & Hc). split.
    { eapply Base_trans; [done | by apply Adv_Base]. }
    split; [intros n; simpl; unfold inflight; simpl; rewrite Hu1; apply HL|].
    intros d x Hd Hx Hm Hk Hlo _. simpl in Hx.
    apply (db_put_elem _ _ _ Hnd) in Hx as [->|[Hx Hne]].
    + by apply Hset.
    + apply Hc; [done | done | done | | done|].
      * unfold inflight in *. simpl in Hk. by rewrite Hu1 in Hk.
      * intros [Hxm Hxk]. apply Hne. split; congruence.
  - (* every rule has a [qs] of its model *)
    intros d q Hd Hlook. eapply (Hq1 d Hd (or_introl Hd)). exact Hlook.
  - cbv beta iota in Hrun.
    change ((mret i1 : M instance) w4) with (Ok i1 w4) in Hrun.
    injection Hrun as <- <-.
    split; [done|]. split; [|done]. eapply Adv_trans; [exact Hput|].
    exact Hadv4.
Qed.

End BodySettles.

Lemma save_settles fuel i w i' w' :
  Inv (same_key i) w →
  (∃ r, r ∈ db w ∧ same_key i r ∧ same_base N r i) →
  (∀ d, d ∈ ds → inst_model i = model d → pk i ∈ inflight w (did d) →
        ¬ left_over d i → correct d i) →
  save write_ok (setup_all ds) fuel i w = Ok i' w' →
  Inv nobody w' ∧ Adv (db w) (db w') ∧ Typed w'.
Proof.
  revert i w i' w'. induction fuel as [|fuel IH]; intros i w i' w'; simpl;
    [done|].
  apply save_body_settles; [apply respects_save | exact IH].
Qed.

(** The first [rebuildall], rule after rule: every row of the model of a
    rule that had its turn stores the value of that rule, unless its key
    was left in flight. *)
Lemma rebuildall_settles fuel l w w' :
  l ⊆ ds → Inv nobody w →
  rebuildall write_ok (setup_all ds) fuel l w = Ok tt w' →
  Inv nobody w' ∧ Adv (db w) (db w')
  ∧ (∀ n, inflight w' n = inflight w n)
  ∧ ∀ d r, d ∈ l → r ∈ db w' → inst_model r = model d →
      ¬ left_over d r → correct d r.
Proof.
  unfold rebuildall. revert w.
  induction l as [|d l IH]; intros w Hl HJ Hrun; simpl in Hrun.
  - injection Hrun as <-. split; [done|]. split; [apply Adv_refl|].
    split; [done|]. by intros d r ?%elem_of_nil.
  - assert (Hd : d ∈ ds) by (apply Hl, list_elem_of_here).
    assert (Hl' : l ⊆ ds) by set_solver.
    rewrite bind_eq in Hrun.
    destruct (update (save write_ok (setup_all ds) fuel) d (QAll (model d)) w)
      as [[] w1|e w1|] eqn:Hup; [|done..].
    destruct (update_settles (save write_ok (setup_all ds) fuel)
                (respects_save write_ok (setup_all ds) fuel)
                (save_settles fuel) d (QAll (model d)) w w1 Hd)
      as (HJ1 & Hadv1 & _ & Hin1 & Hc1); [|done|done|].
    { intros rows i Hi. simpl in Hi.
      by apply list_elem_of_filter in Hi as [? _]. }
    destruct (IH w1 Hl' HJ1 Hrun) as (HJ' & Hadv' & Hin' & Hc').
    split; [done|]. split; [by eapply Adv_trans|].
    split; [intros n; by rewrite Hin', Hin1|].
    intros d' r' [->|Hd']%elem_of_cons Hr' Hm Hlo; [|by eapply Hc'].
    destruct (Forall2_elem_r _ _ _ _ Hadv' Hr') as (r1 & Hr1 & Hs1 & Hcr1).
    destruct (Forall2_elem_r _ _ _ _ Hadv1 Hr1) as (r & Hr & Hs & _).
    pose proof Hs as (Hrm & Hrk & _). pose proof Hs1 as (Hrm1 & Hrk1 & _).
    apply Hcr1; [done | congruence | unfold left_over in *; congruence|].
    apply (Hc1 r); [|unfold left_over in *; congruence | done|].
    + simpl. apply list_elem_of_filter. split; [congruence | done].
    + split; congruence.
Qed.

End Settles.

(** A pass of [update] over rows that are in flight or store the value
    [func] computes: nothing is written. *)
Lemma for_each_settled save_rec d l w :
  (∀ i, i ∈ l → pk i ∈ updating_of w d
               ∨ attrs i !! fieldname d = Some (func d (db w) i)) →
  ∃ w', for_each l (update_one save_rec d) w = Ok tt w' ∧ ReadOnly w w'.
Proof.
  revert w. induction l as [|i l IH]; intros w Hl; simpl.
  - exists w. split; [done | apply ReadOnly_refl].
  - assert (H1 : ∃ w1, update_one save_rec d i w = Ok tt w1 ∧ ReadOnly w w1).
    { destruct (Hl i (list_elem_of_here _ _)) as [Hin|Hsame].
      - rewrite update_one_in_flight by done. exists w.
        split; [done | apply ReadOnly_refl].
      - rewrite update_one_unchanged by done. eexists. split; [done|].
        case_decide; [apply ReadOnly_refl | by apply ReadOnly_emitted]. }
    destruct H1 as (w1 & Hrun1 & Hro1).
    rewrite bind_eq, Hrun1. cbv beta iota.
    destruct (IH w1) as (w' & Hrun & Hro).
    + intros j Hj. destruct Hro1 as (Hdb & Hu & _).
      unfold updating_of, inflight. rewrite Hdb, Hu. apply Hl.
      by apply list_elem_of_further.
    + exists w'. split; [done | by eapply ReadOnly_trans].
Qed.

Lemma update_settled save_rec d q w :
  (∀ i, i ∈ eval (db w) q →
     pk i ∈ updating_of w d
     ∨ attrs i !! fieldname d = Some (func d (db w) i)) →
  ∃ w', update save_rec d q w = Ok tt w' ∧ ReadOnly w w'.
Proof.
  intros Hall. unfold update. rewrite bind_eq.
  change (emit ?e w) with (Ok tt (emitted e w)). cbv beta iota.
  rewrite bind_eq. unfold get_db. cbv beta iota.
  destruct (for_each_settled save_rec d (eval (db w) (QDistinct q))
              (emitted (EvUpdate (did d) q) w))
    as (w' & Hrun & Hro).
  - intros i Hi. simpl in Hi. rewrite elem_of_remove_dups in Hi.
    by apply Hall.
  - exists w'. split; [done|]. eapply ReadOnly_trans; [|done].
    by apply ReadOnly_emitted.
Qed.

Lemma rebuildall_settled write_ok sigs fuel ds w :
  (∀ d r, d ∈ ds → r ∈ db w → inst_model r = model d →
     pk r ∈ updating_of w d
     ∨ attrs r !! fieldname d = Some (func d (db w) r)) →
  ∃ w', rebuildall write_ok sigs fuel ds w = Ok tt w' ∧ ReadOnly w w'.
Proof.
  unfold rebuildall. revert w.
  induction ds as [|d ds IH]; intros w Hall; simpl.
  - exists w. split; [done | apply ReadOnly_refl].
  - destruct (update_settled (save write_ok sigs fuel) d (QAll (model d)) w)
      as (w1 & Hrun1 & Hro).
    { intros i Hi. simpl in Hi.
      apply list_elem_of_filter in Hi as [Hm Hi].
      apply (Hall d i); [apply list_elem_of_here | done | done]. }
    rewrite bind_eq, Hrun1. cbv beta iota.
    destruct (IH w1) as (w' & Hrun & Hro').
    + intros d' r Hd' Hr Hm. destruct Hro as (Hdb & Hu & _).
      unfold updating_of, inflight. rewrite Hdb, Hu. rewrite Hdb in Hr.
      apply Hall; [by apply list_elem_of_further | done | done].
    + exists w'. split; [done | by eapply ReadOnly_trans].
Qed.


(** *** The shop: both rules read base data only *)

Lemma Base_filter N (P : instance → Prop) `{!∀ r, Decision (P r)} rows rows' :
  (∀ r r', same_base N r r' → P r ↔ P r') →
  Base N rows rows' → Base N (filter P rows) (filter P rows').
Proof.
  intros HP Hb. induction Hb as [|x y l k Hxy _ IH]; [constructor|].
  rewrite !filter_cons. pose proof (HP x y Hxy) as Hiff.
  destruct (decide (P x)) as [Hx|Hx], (decide (P y)) as [Hy|Hy].
  - by constructor.
  - exfalso. by apply Hy, Hiff.
  - exfalso. by apply Hx, Hiff.
  - exact IH.
Qed.

Lemma length_flat_map_Forall2 {A B} (R : A → A → Prop) (f f' : A → list B)
    l l' :
  Forall2 R l l' →
  (∀ x y, R x y → length (f x) = length (f' y)) →
  length (flat_map f l) = length (flat_map f' l').
Proof.
  intros HR Hf. induction HR as [|x y l l' Hxy _ IH]; simpl; [done|].
  rewrite !length_app. by rewrite (Hf x y Hxy), IH.
Qed.

Lemma items_of_order_Base rows rows' o :
  Base (fieldname <$> shop_rules) rows rows' →
  length (items_of_order rows o) = length (items_of_order rows' o).
Proof.
  intros Hb. unfold items_of_order. eapply Forall2_length.
  apply (Base_filter (fieldname <$> shop_rules)); [|done].
  intros r r' (Hm & _ & Ha). rewrite Hm, (Ha "order"); [done|].
  apply (bool_decide_unpack _). vm_compute. exact I.
Qed.

Lemma shop_rules_base_only d rows rows' i i' :
  d ∈ shop_rules → Base (fieldname <$> shop_rules) rows rows' →
  same_base (fieldname <$> shop_rules) i i' →
  func d rows i = func d rows' i'.
Proof.
  intros Hd Hb (_ & Hk & _).
  apply (shop_rules_cases (λ d, func d rows i = func d rows' i') d Hd); simpl.
  - f_equal. rewrite Hk.
    apply (length_flat_map_Forall2 (same_base (fieldname <$> shop_rules))).
    + unfold orders_of_customer.
      apply (Base_filter (fieldname <$> shop_rules)); [|done].
      intros r r' (Hm & _ & Ha). rewrite Hm, (Ha "customer"); [done|].
      apply (bool_decide_unpack _). vm_compute. exact I.
    + intros o o' (_ & Hko & _). rewrite Hko. by apply items_of_order_Base.
  - f_equal. rewrite Hk. by apply items_of_order_Base.
Qed.

(** The shop with every denormalized value out of date. *)
Definition stale : World :=
  mkWorld
    [ row "Customer" 1 [("itemTotal", 7)];
      row "Customer" 2 [("itemTotal", 7)];
      row "Order" 1 [("customer", 1); ("itemCount", 7)];
      row "Order" 2 [("customer", 2); ("itemCount", 7)];
      row "LineItem" 1 [("order", 1)] ] ∅ ∅ [].


(** *** Two rules that read each other's field *)

(** [X.a] is the [b] of the [Y] rows plus one, [Y.b] is the [a] of the
    [X] rows plus one; each rule is recomputed when anything changes. *)
Definition field_sum (m name : string) (rows : list instance) : Z :=
  foldr (λ r acc, if decide (inst_model r = m)
                  then default 0 (attrs r !! name) + acc else acc) 0 rows.

Definition a_rule : Denorm :=
  mkDenorm 3 "X" "a" (λ rows _, field_sum "Y" "b" rows + 1)
    [mkDependency "Y" (λ _ _, QAll "X")].

Definition b_rule : Denorm :=
  mkDenorm 4 "Y" "b" (λ rows _, field_sum "X" "a" rows + 1)
    [mkDependency "X" (λ _ _, QAll "Y")].

Definition mutual : World :=
  mkWorld [row "X" 1 [("a", 0)]; row "Y" 1 [("b", 0)]] ∅ ∅ [].

(** No [func] reads its own field and every dependency is declared, but
    both read a denormalized field: the second [rebuildall] writes
    again. *)
Lemma rebuildall_twice_writes_for_mutual_rules :
  ∃ w1 w2,
    rebuildall accept (setup_all [a_rule; b_rule]) 9 [a_rule; b_rule] mutual
      = Ok tt w1
    ∧ rebuildall accept (setup_all [a_rule; b_rule]) 9 [a_rule; b_rule] w1
      = Ok tt w2
    ∧ db w1 = [row "X" 1 [("a", 1)]; row "Y" 1 [("b", 2)]]
    ∧ db w2 = [row "X" 1 [("a", 3)]; row "Y" 1 [("b", 4)]].
Proof.
  eexists _, _. split; [vm_compute; reflexivity|].
  split; [vm_compute; reflexivity|].
  split; vm_compute; reflexivity.
Qed.

(** ** Unions of querysets of one model *)

(** The queryset is a queryset of the model [m], and so is every operand
    of a union in it.  ([a | b] is modelled for such operands; Django
    refuses to combine querysets of two different base models.) *)
Fixpoint over (m : string) (q : QuerySet) : Prop :=
  match q with
  | QNone m' | QAll m' => m' = m
  | QPk m' _ => m' = m
  | QPkIn m' _ => m' = m
  | QOr a b => over m a ∧ over m b
  | QDistinct a => over m a
  end.

Lemma over_impact d rows c q0 :
  over (model d) q0 →
  (∀ dep, dep ∈ depend d → over (model d) (resolve dep rows c)) →
  over (model d) (impact d rows c q0).
Proof.
  unfold impact. revert q0.
  induction (depend d) as [|dep deps IH]; intros q0 Hq0 Hdeps; simpl; [done|].
  apply IH.
  - split; [done|]. apply Hdeps, list_elem_of_here.
  - intros dep' Hdep'. by apply Hdeps, list_elem_of_further.
Qed.

Section Unions.

Variable write_ok : list instance → instance → bool.
Variable sigs : Signals.
Variable ds : list Denorm.
Hypothesis sigs_rules : ∀ s r, r ∈ sigs s → r_denorm r ∈ ds.
Hypothesis ds_models :
  ∀ d d', d ∈ ds → d' ∈ ds → did d = did d' → model d = model d'.
Hypothesis resolvers_over :
  ∀ d dep rows c,
    d ∈ ds → dep ∈ depend d → over (model d) (resolve dep rows c).

(** Every [qs] attribute is a queryset of its rule's model. *)
Definition Over (w : World) : Prop :=
  ∀ d q, d ∈ ds → qs_of w d = Some q → over (model d) q.

(** The computation keeps it so, whether it returns or raises. *)
Definition keeps {A} (m : M A) : Prop :=
  ∀ w, Over w →
    match m w with
    | Ok _ w' => Over w'
    | Raise _ w' => Over w'
    | OutOfFuel => True
    end.

Lemma keeps_ret {A} (a : A) : keeps (mret a).
Proof. by intros w Hw. Qed.

Lemma keeps_raise {A} e : keeps (@raise A e).
Proof. by intros w Hw. Qed.

Lemma keeps_bind {A B} (m : M A) (f : A → M B) :
  keeps m → (∀ a, keeps (f a)) → keeps (m ≫= f).
Proof.
  intros Hm Hf w Hw. rewrite bind_eq. specialize (Hm w Hw).
  destruct (m w) as [a w1|e w1|]; [|done..]. by apply Hf.
Qed.

(** A step that leaves the [qs] attributes alone. *)
Lemma keeps_quiet {A} (m : M A) :
  (∀ w, match m w with
        | Ok _ w' => qs w' = qs w
        | Raise _ w' => qs w' = qs w
        | OutOfFuel => True
        end) →
  keeps m.
Proof.
  intros Hm w Hw. specialize (Hm w).
  destruct (m w) as [a w1|e w1|]; [| |done];
    intros d q Hd; unfold qs_of; rewrite Hm; by apply Hw.
Qed.

Lemma keeps_for_each {A} (l : list A) (body : A → M unit) :
  (∀ x, x ∈ l → keeps (body x)) → keeps (for_each l body).
Proof.
  induction l as [|x l IH]; intros Hb; simpl; [apply keeps_ret|].
  apply keeps_bind; [apply Hb, list_elem_of_here|]. intros _.
  apply IH. intros y Hy. by apply Hb, list_elem_of_further.
Qed.

Lemma keeps_set_qs d q : d ∈ ds → over (model d) q → keeps (set_qs d q).
Proof.
  intros Hd Hq w Hw d' q' Hd' Hlook. unfold qs_of in Hlook. simpl in Hlook.
  destruct (decide (did d = did d')) as [Heq|Hne].
  - rewrite Heq, lookup_insert_eq in Hlook. injection Hlook as <-.
    by rewrite <- (ds_models d d' Hd Hd' Heq).
  - rewrite lookup_insert_ne in Hlook by done. by eapply Hw.
Qed.

Lemma keeps_del_qs d : keeps (del_qs d).
Proof.
  intros w Hw. unfold del_qs. destruct (qs_of w d); [|done].
  intros d' q' Hd' Hlook. unfold qs_of in Hlook. simpl in Hlook.
  apply lookup_delete_Some in Hlook as [_ Hlook]. by eapply Hw.
Qed.

(** [self.qs |= dependency.resolve(changed_objs)]: both operands are
    querysets of the rule's model. *)
Lemma keeps_resolve_all d c : d ∈ ds → keeps (resolve_all d c).
Proof.
  intros Hd. unfold resolve_all. apply keeps_for_each. intros dep Hdep w Hw.
  rewrite bind_eq. unfold get_qs.
  destruct (qs_of w d) as [q|] eqn:Hq; [|done]. rewrite bind_eq.
  unfold get_db. cbv beta iota.
  apply (keeps_set_qs d (QOr q (resolve dep (db w) c)) Hd); [|done].
  split; [by eapply Hw | by apply resolvers_over].
Qed.

Lemma keeps_pre_update_handler d sender c :
  d ∈ ds → keeps (pre_update_handler d sender c).
Proof.
  intros Hd. unfold pre_update_handler. apply keeps_bind.
  - by apply keeps_set_qs.
  - intros _. by apply keeps_resolve_all.
Qed.

Lemma keeps_self_save_handler d sender i :
  keeps (self_save_handler d sender i).
Proof.
  apply keeps_quiet. intros w. rewrite self_save_handler_eq.
  by case_decide.
Qed.

Lemma keeps_db_write i : keeps (db_write write_ok i).
Proof.
  apply keeps_quiet. intros w. unfold db_write. rewrite bind_eq.
  unfold get_db. cbv beta iota. by destruct (write_ok (db w) i).
Qed.

Section BodyUnions.

Variable save_rec : instance → M instance.
Hypothesis save_rec_keeps : ∀ i, keeps (save_rec i).

Lemma keeps_update_one d i : keeps (update_one save_rec d i).
Proof.
  unfold update_one. apply keeps_bind; [by apply keeps_quiet|]. intros u.
  case_decide; [apply keeps_ret|].
  apply keeps_bind; [by apply keeps_quiet|]. intros rows.
  apply keeps_bind; [by apply keeps_quiet|]. intros _.
  apply keeps_bind.
  { apply keeps_quiet. intros w. unfold getattr.
    by destruct (attrs i !! fieldname d). }
  intros old. case_decide; [apply keeps_ret|].
  apply keeps_bind; [by apply keeps_quiet|]. intros _.
  apply keeps_bind; [apply save_rec_keeps|]. intros _.
  apply keeps_quiet. intros w. unfold updating_remove. rewrite bind_eq.
  unfold get_updating. by case_decide.
Qed.

Lemma keeps_update d q : keeps (update save_rec d q).
Proof.
  unfold update. apply keeps_bind; [by apply keeps_quiet|]. intros _.
  apply keeps_bind; [by apply keeps_quiet|]. intros rows.
  apply keeps_for_each. intros i _. apply keeps_update_one.
Qed.

Lemma keeps_post_update_handler d sender c :
  d ∈ ds → keeps (post_update_handler save_rec d sender c).
Proof.
  intros Hd. unfold post_update_handler.
  apply keeps_bind; [by apply keeps_quiet|]. intros has.
  apply keeps_bind.
  { destruct has; [apply keeps_ret | by apply keeps_set_qs]. }
  intros _. apply keeps_bind; [by apply keeps_resolve_all|]. intros _.
  apply keeps_bind.
  { apply keeps_quiet. intros w. unfold get_qs. by destruct (qs_of w d). }
  intros q. apply keeps_bind; [apply keeps_update|]. intros _.
  apply keeps_bind; [by apply keeps_quiet|]. intros u.
  case_decide; [apply keeps_del_qs | apply keeps_ret].
Qed.

Lemma keeps_call_receiver r sender a :
  r_denorm r ∈ ds → keeps (call_receiver save_rec r sender a).
Proof.
  intros Hr.
  unfold call_receiver, pre_handler, post_handler, self_update_handler.
  destruct (r_handler r), a; try apply keeps_raise;
    (apply keeps_bind; [|intros ?; apply keeps_ret]).
  - by apply keeps_pre_update_handler.
  - by apply keeps_post_update_handler.
  - by apply keeps_pre_update_handler.
  - by apply keeps_post_update_handler.
  - apply keeps_update.
  - apply keeps_self_save_handler.
Qed.

Lemma keeps_call_receivers rs sender a :
  Forall (λ r, r_denorm r ∈ ds) rs →
  keeps (call_receivers save_rec rs sender a).
Proof.
  intros Hrs. revert a. induction Hrs as [|r rs Hr _ IH]; intros a; simpl;
    [apply keeps_ret|].
  apply keeps_bind; [by apply keeps_call_receiver | apply IH].
Qed.

Lemma keeps_send_instance s i :
  keeps (send_instance sigs save_rec s i).
Proof.
  unfold send_instance, send. apply keeps_bind.
  - apply keeps_bind; [by apply keeps_quiet|]. intros _.
    apply keeps_call_receivers. apply Forall_forall. intros r Hr.
    apply list_elem_of_filter in Hr as [_ Hr]. by eapply sigs_rules.
  - intros [i'|q]; apply keeps_ret.
Qed.

Lemma keeps_save_body i : keeps (save_body write_ok sigs save_rec i).
Proof.
  unfold save_body. apply keeps_bind; [by apply keeps_quiet|]. intros _.
  apply keeps_bind; [apply keeps_send_instance|]. intros i'.
  apply keeps_bind; [apply keeps_db_write|]. intros _.
  apply keeps_send_instance.
Qed.

End BodyUnions.

Lemma keeps_save fuel i : keeps (save write_ok sigs fuel i).
Proof.
  revert i. induction fuel as [|fuel IH]; intros i; simpl; [by intros w _|].
  by apply keeps_save_body.
Qed.

Lemma keeps_rebuildall fuel l : keeps (rebuildall write_ok sigs fuel l).
Proof.
  unfold rebuildall. apply keeps_for_each. intros d _.
  apply keeps_update, keeps_save.
Qed.

End Unions.



(** ** What the handlers of a signal leave of the table *)

(** X13: the handlers of a signal sent with an instance, the delete
    signals among them ([pre_handler] on [pre_delete], [post_handler] on
    [post_delete]), and the cascade they set off, change nothing but
    denormalized fields.  From a table without a key twice, whether the
    dispatch returns or raises, the table afterwards has the same rows
    with the same keys in the same order, and no attribute other than
    the fields of the rules with a receiver connected is changed; the
    instance handed back has the base data of the one sent.  So whatever
    rows a delete removes, and however many delete signals it sends, no
    dispatch loses or adds a row. *)
Theorem signal_keeps_base_data write_ok sigs fuel s i w :
  WellKeyed w →
  match send_instance sigs (save write_ok sigs fuel) s i w with
  | Ok i' w' =>
      Base (field_names sigs) (db w) (db w')
      ∧ keys (db w') = keys (db w)
      ∧ same_base (field_names sigs) i' i
  | Raise _ w' =>
      Base (field_names sigs) (db w) (db w') ∧ keys (db w') = keys (db w)
  | OutOfFuel => True
  end.
Proof.
  intros Hw. set (N := field_names sigs).
  pose proof (frames_send_instance sigs N (field_names_cover sigs)
                (save write_ok sigs fuel)
                (frames_save write_ok sigs N (field_names_cover sigs) fuel)
                s i w Hw) as Hsend.
  destruct (send_instance sigs (save write_ok sigs fuel) s i w)
    as [i1 w1|e w1|]; [| |done].
  - destruct Hsend as [Hb Hi]. split; [done|].
    split; [symmetry; by eapply Base_keys | done].
  - split; [done|]. symmetry. by eapply Base_keys.
Qed.

(** The shop after line item 1 was taken out of the table: the count of
    order 1 and the total of customer 1 are stale. *)
Definition item_gone : World :=
  mkWorld (db_remove shop moved_item) ∅ ∅ [].

(** X13 at work: [post_delete] for line item 1, both rules of the shop
    set up. *)
Lemma signal_keeps_base_data_witness :
  WellKeyed item_gone
  ∧ ∃ i' w',
      send_instance (setup_all shop_rules)
        (save accept (setup_all shop_rules) 13) post_delete
        (row "LineItem" 1 [("order", 1)]) item_gone = Ok i' w'
      ∧ keys (db w') = keys (db item_gone).
Proof.
  assert (Hw : WellKeyed item_gone)
    by (unfold WellKeyed; apply (bool_decide_unpack _); vm_compute; exact I).
  split; [exact Hw|].
  pose proof (signal_keeps_base_data accept (setup_all shop_rules) 13
                post_delete (row "LineItem" 1 [("order", 1)]) item_gone Hw)
    as Hb.
  destruct (send_instance (setup_all shop_rules)
              (save accept (setup_all shop_rules) 13) post_delete
              (row "LineItem" 1 [("order", 1)]) item_gone)
    as [i' w'|e w'|] eqn:Hrun; [|by vm_compute in Hrun..].
  exists i', w'. split; [reflexivity | exact (proj1 (proj2 Hb))].
Defined.
